(** * enproxy: a byte-stream tunnel over HTTP request/response pairs

    Shallow embedding of the server side ([Proxy], two revisions of
    [proxy.go]) and of the client read loop ([conn_impl_reads.go]),
    followed by the properties checked against the specification.

    Conventions
    - Go's [error] values are [option error]: [None] is [nil].
    - A [net.Conn], a request body and a response body are environment
      objects.  Their behaviour is given by a script: the outcomes of the
      [Read] (and [Write]) calls still to come, in order.
    - [time.Duration] and [time.Time] are integers (nanoseconds).
    - A handler runs atomically: requests are interleaved at the
      granularity of one [ServeHTTP] call. *)

From Stdlib Require Import ZArith List String Lia Bool.
From stdpp Require Import base option list gmap strings.

Local Open Scope Z_scope.
Local Open Scope string_scope.

(** ** Errors *)

Inductive error : Type :=
| EOF                        (* io.EOF *)
| NetError (timeout : bool)  (* a net.Error and the value of its Timeout() *)
| ErrShortWrite              (* io.ErrShortWrite *)
| OtherError (msg : string). (* any other error value *)

#[global] Instance error_eq_dec : EqDecision error.
Proof. solve_decision. Defined.

Definition isEOF (e : option error) : bool :=
  match e with Some EOF => true | _ => false end.

(** ** io.Reader as a script *)

Abbreviation byte := Byte.byte.

Definition readResult : Type := list byte * option error.
Definition reader : Type := list readResult.

(** [Read] hands out the next scripted outcome.  End-of-stream is final:
    once it has been reported (or the script is exhausted) every later
    call reports [(0, io.EOF)].  A script is finite, so every stream is one
    that ends: a socket that answers every Read with a net.Error that is no
    timeout, on which the response loop of proxy.go reads on for ever, has
    no script. *)
Definition Read (r : reader) : readResult * reader :=
  match r with
  | [] => (([], Some EOF), [])
  | (d, Some EOF) :: _ => ((d, Some EOF), [])
  | res :: rest => (res, rest)
  end.

(** The bytes a reader delivers up to its first error. *)
Fixpoint reader_bytes (r : reader) : list byte :=
  match r with
  | [] => []
  | (d, None) :: rest => d ++ reader_bytes rest
  | (d, Some _) :: _ => d
  end.

(** The reader ends with a clean end-of-stream (no other read error). *)
Fixpoint intact (r : reader) : bool :=
  match r with
  | [] => true
  | (_, None) :: rest => intact rest
  | (_, Some EOF) :: _ => true
  | (_, Some _) :: _ => false
  end.

(** ** io.Copy *)

Record copyResult (W : Type) : Type := mkCopy {
  written : Z;            (* first result of io.Copy *)
  copyErr : option error; (* second result of io.Copy *)
  srcAfter : reader;      (* the source after the copy *)
  dstAfter : W;           (* the destination after the copy *)
  srcReads : nat          (* number of src.Read calls made *)
}.
Arguments mkCopy {W}.
Arguments written {W}.
Arguments copyErr {W}.
Arguments srcAfter {W}.
Arguments dstAfter {W}.
Arguments srcReads {W}.

Section IoCopy.
Context {W : Type}.
Variable write : list byte -> W -> (nat * option error) * W.

(** The loop of io.Copy:
      nr, er := src.Read(buf)
      if nr > 0 { nw, ew := dst.Write(buf[0:nr]); written += nw;
                  if ew != nil { err = ew; break }
                  if nr != nw { err = ErrShortWrite; break } }
      if er == EOF { break }
      if er != nil { err = er; break }
    The recursion is on the script: each iteration consumes one outcome. *)
Fixpoint ioCopyFrom (src : reader) (dst : W) (n : Z) (k : nat) : copyResult W :=
  match src with
  | [] => mkCopy n None [] dst (S k)
  | (d, er) :: rest =>
      let src' := if isEOF er then [] else rest in
      let '(nw, ew, dst') :=
        match d with
        | [] => (0%nat, None, dst)
        | _ :: _ => let '(nw, ew, dst') := write d dst in (nw, ew, dst')
        end in
      let n' := n + Z.of_nat nw in
      match ew with
      | Some e => mkCopy n' (Some e) src' dst' (S k)
      | None =>
          if negb (Nat.eqb nw (length d)) then mkCopy n' (Some ErrShortWrite) src' dst' (S k)
          else match er with
               | Some EOF => mkCopy n' None src' dst' (S k)
               | Some e => mkCopy n' (Some e) src' dst' (S k)
               | None => ioCopyFrom rest dst' n' (S k)
               end
      end
  end.

Definition ioCopy (src : reader) (dst : W) : copyResult W := ioCopyFrom src dst 0 0.
End IoCopy.

(** ** net.Conn *)

Record netConn : Type := mkNetConn {
  inbound : reader;              (* outcomes of the Read calls to come *)
  outbound : list byte;          (* bytes accepted by Write so far, in order *)
  wfaults : list (option error); (* outcomes of the Write calls to come; exhausted = success *)
  readDeadlines : list Z;        (* every deadline given to SetReadDeadline, oldest first *)
  reads : nat;                   (* number of Read calls so far *)
  closed : bool;                 (* Close has been called *)
  emptyRead : option error       (* what Read(emptyBuffer) reports at the end of the stream *)
}.

(** What the calls on a socket return is given by its scripts, [inbound]
    for Read and [wfaults] for Write, whatever else has happened to the
    socket.  [closed] only records that Close was called: a script that
    describes a socket after its Close lets the calls fail, and nothing
    here makes it do so.  Statements that follow a socket over several
    requests are therefore made for sockets that no request closes. *)
Definition conn_Read (c : netConn) : readResult * netConn :=
  let '(res, r') := Read (inbound c) in
  (res, mkNetConn r' (outbound c) (wfaults c) (readDeadlines c) (S (reads c)) (closed c)
                  (emptyRead c)).

(** connOut.Read(emptyBuffer), called by handleGET once io.Copy has met
    the end of the stream.  [emptyBuffer] is declared outside the files at
    hand, and what the call reports depends on it and on the socket: a
    *net.TCPConn answers a Read into a buffer of length zero with (0, nil),
    a Read into a buffer with room reports io.EOF there.  The socket
    carries the answer in [emptyRead]; no data is transferred. *)
Definition conn_ReadEmpty (c : netConn) : option error * netConn :=
  (emptyRead c,
   mkNetConn (inbound c) (outbound c) (wfaults c) (readDeadlines c) (S (reads c)) (closed c)
             (emptyRead c)).

Definition conn_Write (p : list byte) (c : netConn) : (nat * option error) * netConn :=
  match wfaults c with
  | Some e :: rest =>
      ((0%nat, Some e), mkNetConn (inbound c) (outbound c) rest (readDeadlines c) (reads c) (closed c)
                 (emptyRead c))
  | None :: rest =>
      ((length p, None),
       mkNetConn (inbound c) (outbound c ++ p) rest (readDeadlines c) (reads c) (closed c)
                 (emptyRead c))
  | [] =>
      ((length p, None),
       mkNetConn (inbound c) (outbound c ++ p) [] (readDeadlines c) (reads c) (closed c)
                 (emptyRead c))
  end.

Definition conn_SetReadDeadline (t : Z) (c : netConn) : netConn :=
  mkNetConn (inbound c) (outbound c) (wfaults c) (readDeadlines c ++ [t]) (reads c) (closed c)
            (emptyRead c).

Definition conn_Close (c : netConn) : netConn :=
  mkNetConn (inbound c) (outbound c) (wfaults c) (readDeadlines c) (reads c) true (emptyRead c).

(** io.Copy(mlw, connOut): the connection is the source. *)
Definition conn_copy_result {W} (c : netConn) (r : copyResult W) : netConn :=
  mkNetConn (srcAfter r) (outbound c) (wfaults c) (readDeadlines c)
            (reads c + srcReads r) (closed c) (emptyRead c).

(** Every Write still to come succeeds. *)
Definition accepts (faults : list (option error)) : Prop :=
  Forall (fun o => o = None) faults.

(** ** http.ResponseWriter *)

Record responseWriter : Type := mkResp {
  header : gmap string string;            (* resp.Header() *)
  wire : option (Z * gmap string string); (* status and headers as sent by the first WriteHeader *)
  body : list byte;                       (* body bytes written so far *)
  flushed : nat;                          (* how many body bytes Flush has pushed to the client *)
  rfaults : list (option error)           (* outcomes of the Write calls to come *)
}.

Definition freshResponse : responseWriter := mkResp ∅ None [] 0 [].

Definition status (r : responseWriter) : option Z := fst <$> wire r.
Definition sentHeader (r : responseWriter) (k : string) : string :=
  match wire r with
  | Some (_, h) => default "" (h !! k)
  | None => ""
  end.

Definition Header_Set (k v : string) (r : responseWriter) : responseWriter :=
  mkResp (<[k := v]> (header r)) (wire r) (body r) (flushed r) (rfaults r).

(** Only the first WriteHeader counts. *)
Definition WriteHeader (code : Z) (r : responseWriter) : responseWriter :=
  match wire r with
  | Some _ => r
  | None => mkResp (header r) (Some (code, header r)) (body r) (flushed r) (rfaults r)
  end.

(** A Write before WriteHeader sends an implicit 200. *)
Definition resp_Write (p : list byte) (r : responseWriter) : (nat * option error) * responseWriter :=
  let r := WriteHeader 200 r in
  match rfaults r with
  | Some e :: rest => ((0%nat, Some e), mkResp (header r) (wire r) (body r) (flushed r) rest)
  | None :: rest =>
      ((length p, None), mkResp (header r) (wire r) (body r ++ p) (flushed r) rest)
  | [] => ((length p, None), mkResp (header r) (wire r) (body r ++ p) (flushed r) [])
  end.

(** Flush sends what is buffered; like Write, it sends status 200 with
    the headers set so far when no status was sent yet. *)
Definition resp_Flush (r : responseWriter) : responseWriter :=
  let r := WriteHeader 200 r in
  mkResp (header r) (wire r) (body r) (length (body r)) (rfaults r).

(** Go's http.Header.Get: the empty string when the key is absent. *)
Definition Header_Get (h : gmap string string) (k : string) : string := default "" (h !! k).

Record request : Type := mkRequest {
  Method : string;
  reqHeader : gmap string string;
  reqBody : reader
}.

(** ** Durations *)

Definition Millisecond : Z := 1000000.
Definition Second : Z := 1000 * Millisecond.

(** ** Go's int *)

(** An int is 64 bits wide on the 64-bit platforms (on the 32-bit ones
    the same holds with 32), in two's complement; a sum that leaves the
    range wraps around. *)
Definition intBits : Z := 64.
Definition minInt : Z := - 2 ^ (intBits - 1).
Definition maxInt : Z := 2 ^ (intBits - 1) - 1.
Definition wrapInt (x : Z) : Z := (x - minInt) mod 2 ^ intBits + minInt.

(** ** Protocol headers *)

(** Modelled from the spec: the header-name constants are declared outside
    the files at hand; the names are those of the spec's protocol table. *)
Definition X_HTTPCONN_ID : string := "Connection-Id".
Definition X_HTTPCONN_DEST_ADDR : string := "Destination-Address".
Definition X_HTTPCONN_EOF : string := "Upstream-EOF".
Definition X_HTTPCONN_PROXY_HOST : string := "Proxy-Host".

Definition BAD_GATEWAY : Z := 502.
Definition DEFAULT_BUFFER_SIZE : Z := 8096.

(** ** lazyConn and the connection table *)

(** Modelled from the spec: [lazyConn] is declared outside the files at
    hand.  One per connection id: id, destination address, the outbound
    socket (absent until dialed), the permanent EOF flag and the
    bytes-read counter. *)
Record lazyConn : Type := mkLazyConn {
  lcId : string;
  lcAddr : string;
  connOut : option netConn;
  hitEOF : bool;
  bytesRead : Z     (* an int: proxy.go adds the int [n] to it *)
}.

(** Modelled from the spec: [newLazyConn] records id and address; nothing
    is dialed yet. *)
Definition newLazyConn (id addr : string) : lazyConn := mkLazyConn id addr None false 0.

Definition dialFunc : Type := string -> error + netConn.

(** [*lazyConn] values are addresses into [heap]; [connMap] holds
    addresses, so two lookups of one id give the same object.  [dialLog]
    lists the addresses handed to the dial function, oldest first. *)
Abbreviation ptr := nat.

Record connTable : Type := mkTable {
  connMap : gmap string ptr;
  heap : list lazyConn;
  dialLog : list string
}.

Definition emptyTable : connTable := mkTable ∅ [] [].

(** getLazyConn (identical in both revisions of proxy.go):
      l = p.connMap[id]
      if l == nil { l = p.newLazyConn(id, addr); p.connMap[id] = l } *)
Definition getLazyConn (id addr : string) (t : connTable) : ptr * connTable :=
  match connMap t !! id with
  | Some l => (l, t)
  | None =>
      let l := length (heap t) in
      (l, mkTable (<[id := l]> (connMap t)) (heap t ++ [newLazyConn id addr]) (dialLog t))
  end.

Definition lc_withConn (c : netConn) (lc : lazyConn) : lazyConn :=
  mkLazyConn (lcId lc) (lcAddr lc) (Some c) (hitEOF lc) (bytesRead lc).
Definition lc_withEOF (lc : lazyConn) : lazyConn :=
  mkLazyConn (lcId lc) (lcAddr lc) (connOut lc) true (bytesRead lc).
(** [lc.bytesRead = lc.bytesRead + n]: the field is a Go int, so the sum
    wraps around. *)
Definition lc_addBytes (n : Z) (lc : lazyConn) : lazyConn :=
  mkLazyConn (lcId lc) (lcAddr lc) (connOut lc) (hitEOF lc) (wrapInt (bytesRead lc + n)).

(** Writes through a [*lazyConn]. *)
Definition alter_heap (f : lazyConn -> lazyConn) (l : ptr) (t : connTable) : connTable :=
  mkTable (connMap t) (alter f l (heap t)) (dialLog t).
Definition store_conn (l : ptr) (c : netConn) : connTable -> connTable :=
  alter_heap (lc_withConn c) l.
Definition set_hitEOF (l : ptr) : connTable -> connTable :=
  alter_heap lc_withEOF l.
Definition add_bytesRead (l : ptr) (n : Z) : connTable -> connTable :=
  alter_heap (lc_addBytes n) l.

(** Reads through a [*lazyConn]. *)
Definition lc_hitEOF (t : connTable) (l : ptr) : bool :=
  match heap t !! l with Some lc => hitEOF lc | None => false end.
Definition lc_conn (t : connTable) (l : ptr) : option netConn :=
  heap t !! l ≫= connOut.

(** Modelled from the spec: [lazyConn.get] returns the owned socket,
    dialing the recorded address on first use and caching the socket;
    a failed dial is reported and nothing is cached. *)
Definition lazyConn_get (dial : dialFunc) (l : ptr) (t : connTable)
  : (error + netConn) * connTable :=
  match heap t !! l with
  | None => (inl (OtherError "nil lazyConn"), t)
  | Some lc =>
      match connOut lc with
      | Some c => (inr c, t)
      | None =>
          let log := (dialLog t ++ [lcAddr lc])%list in
          match dial (lcAddr lc) with
          | inl e => (inl e, mkTable (connMap t) (heap t) log)
          | inr c => (inr c, store_conn l c (mkTable (connMap t) (heap t) log))
          end
      end
  end.

(** ** maxLatencyWriter (taken by the source from net/http/httputil) *)

Module MaxLatencyWriter.

Record maxLatencyWriter : Type := mkMLW {
  dst : responseWriter;
  latency : Z;
  ticking : bool   (* flushLoop and its time.Ticker are running *)
}.

(** mlw := &maxLatencyWriter{dst, latency, done}; go mlw.flushLoop() *)
Definition start (resp : responseWriter) (lat : Z) : maxLatencyWriter := mkMLW resp lat true.

(** Write: m.dst.Write(p) under the lock. *)
Definition Write (p : list byte) (m : maxLatencyWriter)
  : (nat * option error) * maxLatencyWriter :=
  let '(res, d) := resp_Write p (dst m) in (res, mkMLW d (latency m) (ticking m)).

(** One firing of [case <-t.C] in flushLoop: Flush under the lock. *)
Definition tick (m : maxLatencyWriter) : maxLatencyWriter :=
  if ticking m then mkMLW (resp_Flush (dst m)) (latency m) true else m.

(** stop: [m.done <- true].  flushLoop takes [case <-m.done] and returns,
    its deferred [t.Stop()] cancels the ticker.  Nothing else runs. *)
Definition stop (m : maxLatencyWriter) : maxLatencyWriter :=
  mkMLW (dst m) (latency m) false.

(** What happens to a writer between its creation and its stop. *)
Inductive event : Type :=
| EvWrite (p : list byte)
| EvTick.

Definition step (m : maxLatencyWriter) (e : event) : maxLatencyWriter :=
  match e with
  | EvWrite p => snd (Write p m)
  | EvTick => tick m
  end.

Definition run (evs : list event) (m : maxLatencyWriter) : maxLatencyWriter :=
  fold_left step evs m.

(** Bytes written to the destination and not yet flushed. *)
Definition unflushed (m : maxLatencyWriter) : nat :=
  (length (body (dst m)) - flushed (dst m))%nat.

End MaxLatencyWriter.

(** ** The streaming revision of proxy.go (handlePOST / handleGET) *)

Module Streaming.
Import MaxLatencyWriter.

Definition defaultFlushInterval : Z := 50 * Millisecond.

(** Modelled from the spec: [defaultIdleTimeout] is declared outside the
    files at hand; the field's comment gives 70 seconds. *)
Definition defaultIdleTimeout : Z := 70 * Second.

Record Proxy : Type := mkProxy {
  Dial : option dialFunc;  (* nil until Start *)
  Host : string;
  FlushInterval : Z;
  IdleTimeout : Z;
  table : connTable        (* connMap and the objects it points to *)
}.

Definition with_table (p : Proxy) (t : connTable) : Proxy :=
  mkProxy (Dial p) (Host p) (FlushInterval p) (IdleTimeout p) t.

(** The dial function in force; a Proxy that was never started has none. *)
Definition dialer (p : Proxy) : dialFunc :=
  default (fun _ => inl (OtherError "nil Dial")) (Dial p).

(** Start; [tcpDial] stands for [net.Dial("tcp", addr)]. *)
Definition Start (tcpDial : dialFunc) (p : Proxy) : Proxy :=
  mkProxy
    (Some (default tcpDial (Dial p)))
    (Host p)
    (if decide (FlushInterval p = 0) then defaultFlushInterval else FlushInterval p)
    (if decide (IdleTimeout p = 0) then defaultIdleTimeout else IdleTimeout p)
    emptyTable.

(** badGateway: log the message, resp.WriteHeader(BAD_GATEWAY). *)
Definition badGateway (resp : responseWriter) (msg : string) : responseWriter :=
  WriteHeader BAD_GATEWAY resp.

(** handlePOST:
      _, err := io.Copy(connOut, req.Body)
      if err != nil && err != io.EOF { badGateway(...); return }
      resp.WriteHeader(200) *)
Definition handlePOST (resp : responseWriter) (req : request) (connOut : netConn)
  : responseWriter * netConn :=
  let r := ioCopy conn_Write (reqBody req) connOut in
  let connOut := dstAfter r in
  match copyErr r with
  | Some e =>
      if decide (e = EOF) then (WriteHeader 200 resp, connOut)
      else (badGateway resp "Unable to write to connOut", connOut)
  | None => (WriteHeader 200 resp, connOut)
  end.

(** handleGET; [l] is the [*lazyConn], [connOut] its socket, [now] the
    value of time.Now().  The flush loop only moves bytes from the
    response buffer to the client, so the copy is run with no tick in
    between; see [MaxLatencyWriter] for the loop itself.  For the
    additional read see [conn_ReadEmpty]. *)
Definition handleGET (p : Proxy) (resp : responseWriter) (req : request)
    (l : ptr) (connOut : netConn) (now : Z) (t : connTable)
  : responseWriter * connTable :=
  if lc_hitEOF t l then
    let resp := Header_Set X_HTTPCONN_EOF "true" resp in
    (WriteHeader 200 resp, t)
  else
    let resp := Header_Set "X-Accel-Buffering" "no" resp in
    let resp := WriteHeader 200 resp in
    let mlw := start resp (FlushInterval p) in
    let connOut := conn_SetReadDeadline (now + 30 * Second) connOut in
    let r := ioCopy Write (inbound connOut) mlw in
    let connOut := conn_copy_result connOut r in
    let mlw := dstAfter r in
    let '(err, connOut) :=
      match copyErr r with
      | None =>
          (* Try an additional read to check for EOF *)
          conn_ReadEmpty connOut
      | Some e => (Some e, connOut)
      end in
    let t := store_conn l connOut t in
    let t := if isEOF err then set_hitEOF l t else t in
    (dst (stop mlw), t).

(** ServeHTTP. *)
Definition ServeHTTP (p : Proxy) (resp : responseWriter) (req : request) (now : Z)
  : Proxy * responseWriter :=
  let id := Header_Get (reqHeader req) X_HTTPCONN_ID in
  if decide (id = "") then
    (p, badGateway resp ("No id found in header " +:+ X_HTTPCONN_ID))
  else
    let addr := Header_Get (reqHeader req) X_HTTPCONN_DEST_ADDR in
    if decide (addr = "") then
      (p, badGateway resp ("No address found in header " +:+ X_HTTPCONN_DEST_ADDR))
    else
      let '(lc, t) := getLazyConn id addr (table p) in
      match lazyConn_get (dialer p) lc t with
      | (inl err, t) => (with_table p t, badGateway resp "Unable to get connOut")
      | (inr connOut, t) =>
          if decide (Method req = "POST") then
            let '(resp, connOut) := handlePOST resp req connOut in
            (with_table p (store_conn lc connOut t), resp)
          else if decide (Method req = "GET") then
            let '(resp, t) := handleGET p resp req lc connOut now t in
            (with_table p t, resp)
          else
            (with_table p t, badGateway resp ("Method " +:+ Method req +:+ " not supported"))
      end.

(** A call of ServeHTTP: the response writer, the request, the clock. *)
Definition call : Type := responseWriter * request * Z.

Definition serve (p : Proxy) (c : call) : Proxy * responseWriter :=
  let '(resp, req, now) := c in ServeHTTP p resp req now.

(** Requests served one after the other: the final Proxy and the
    responses, in order. *)
Fixpoint serveAll (calls : list call) (p : Proxy) : Proxy * list responseWriter :=
  match calls with
  | [] => (p, [])
  | c :: rest =>
      let '(p1, r) := serve p c in
      let '(p2, rs) := serveAll rest p1 in
      (p2, r :: rs)
  end.

(** The states a started Proxy goes through. *)
Inductive reachable : Proxy -> Prop :=
| reach_Start tcpDial p0 : reachable (Start tcpDial p0)
| reach_ServeHTTP p resp req now :
    reachable p -> reachable (fst (ServeHTTP p resp req now)).

End Streaming.

(** ** The bounded-read revision of proxy.go (one ServeHTTP for every method) *)

Module Bounded.

(** Modelled from the spec: [defaultIdleTimeout] is declared outside the
    files at hand; the field's comment gives 70 seconds. *)
Definition defaultIdleTimeout : Z := 70 * Second.

Record Proxy : Type := mkProxy {
  Dial : option dialFunc;  (* nil until Start *)
  Host : string;
  IdleInterval : Z;
  IdleTimeout : Z;
  BufferSize : Z;
  table : connTable
}.

Definition with_table (p : Proxy) (t : connTable) : Proxy :=
  mkProxy (Dial p) (Host p) (IdleInterval p) (IdleTimeout p) (BufferSize p) t.

Definition dialer (p : Proxy) : dialFunc :=
  default (fun _ => inl (OtherError "nil Dial")) (Dial p).

(** Start; [tcpDial] stands for [net.Dial("tcp", addr)], and
    [defaultIdleInterval] for the constant of that name, which is declared
    outside the files at hand. *)
Definition Start (tcpDial : dialFunc) (defaultIdleInterval : Z) (p : Proxy) : Proxy :=
  mkProxy
    (Some (default tcpDial (Dial p)))
    (Host p)
    (if decide (IdleInterval p = 0) then defaultIdleInterval else IdleInterval p)
    (if decide (IdleTimeout p = 0) then defaultIdleTimeout else IdleTimeout p)
    (if decide (BufferSize p = 0) then DEFAULT_BUFFER_SIZE else BufferSize p)
    emptyTable.

(** badGateway: Connection: close, status 502, and a body (whose text is
    the same whatever the message). *)
Definition badGateway (resp : responseWriter) (msg : string) : responseWriter :=
  let resp := Header_Set "Connection" "close" resp in
  let resp := WriteHeader BAD_GATEWAY resp in
  snd (resp_Write (list_byte_of_string ("No id found in header " +:+ X_HTTPCONN_ID)) resp).

Definition served : Type := responseWriter * netConn * connTable.

(** The [if first { ... }] block of the response loop: the EOF header
    when the first read reported io.EOF, the proxy host when one is
    configured, then status 200. *)
Definition firstHeaders (p : Proxy) (readErr : option error) (resp : responseWriter)
  : responseWriter :=
  let resp := if isEOF readErr then Header_Set X_HTTPCONN_EOF "true" resp else resp in
  let resp := if decide (Host p = "") then resp
              else Header_Set X_HTTPCONN_PROXY_HOST (Host p) resp in
  WriteHeader 200 resp.

(** One iteration of the response loop of ServeHTTP.  [res] is what
    [connOut.Read(b)] returned and [c] the socket after that call;
    [continue] is the next iteration. *)
Definition loopBody (p : Proxy) (l : ptr) (res : readResult) (c : netConn)
    (resp : responseWriter) (first : bool) (t : connTable)
    (continue : responseWriter -> connTable -> served) : served :=
  let '(d, readErr) := res in
  let resp := if first then firstHeaders p readErr resp else resp in
  let inspect (resp : responseWriter) (t : connTable) : served :=
    match readErr with
    | None => continue resp t
    | Some (NetError true) => (resp, c, t)     (* hit the idle interval *)
    | Some (NetError false) => continue resp t (* a net.Error that is no timeout *)
    | Some EOF => (resp, c, t)
    | Some _ => (resp, conn_Close c, t)        (* unexpected error *)
    end in
  match d with
  | [] => inspect resp t
  | _ :: _ =>
      let '((_, writeErr), resp) := resp_Write d resp in
      match writeErr with
      | Some _ => (resp, conn_Close c, t)
      | None => inspect resp (add_bytesRead l (Z.of_nat (length d)) t)
      end
  end.

(** The response loop: [src] is the read side of the socket [c], [i]
    counts the iterations, [now i] is time.Now() in iteration [i]. *)
Fixpoint readLoop (p : Proxy) (l : ptr) (now : nat -> Z) (i : nat) (src : reader)
    (c : netConn) (resp : responseWriter) (first : bool) (t : connTable) : served :=
  let c := conn_SetReadDeadline (now i + IdleInterval p) c in
  let after (src' : reader) : netConn :=
    mkNetConn src' (outbound c) (wfaults c) (readDeadlines c) (S (reads c)) (closed c)
              (emptyRead c) in
  match src with
  | [] =>
      loopBody p l ([], Some EOF) (after []) resp first t
               (fun resp t => (resp, after [], t))
  | (d, e) :: rest =>
      loopBody p l (d, e) (after (if isEOF e then [] else rest)) resp first t
               (fun resp t => readLoop p l now (S i) rest (after rest) resp false t)
  end.

(** ServeHTTP; [now i] is the value of time.Now() in iteration [i] of
    the response loop. *)
Definition ServeHTTP (p : Proxy) (resp : responseWriter) (req : request) (now : nat -> Z)
  : Proxy * responseWriter :=
  let id := Header_Get (reqHeader req) X_HTTPCONN_ID in
  if decide (id = "") then
    (p, badGateway resp ("No id found in header " +:+ X_HTTPCONN_ID))
  else
    let addr := Header_Get (reqHeader req) X_HTTPCONN_DEST_ADDR in
    if decide (addr = "") then
      (p, badGateway resp ("No address found in header " +:+ X_HTTPCONN_DEST_ADDR))
    else
      let '(lc, t) := getLazyConn id addr (table p) in
      match lazyConn_get (dialer p) lc t with
      | (inl err, t) => (with_table p t, badGateway resp "Unable to get connOut")
      | (inr connOut, t) =>
          (* Pipe request *)
          let r := ioCopy conn_Write (reqBody req) connOut in
          let connOut := dstAfter r in
          match copyErr r with
          | Some _ =>
              (with_table p (store_conn lc (conn_Close connOut) t),
               badGateway resp "Unable to write to connOut")
          | None =>
              (* Write response *)
              let '(resp, connOut, t) :=
                readLoop p lc now 0 (inbound connOut) connOut resp true t in
              (with_table p (store_conn lc connOut t), resp)
          end
      end.

Definition call : Type := responseWriter * request * (nat -> Z).

Definition serve (p : Proxy) (c : call) : Proxy * responseWriter :=
  let '(resp, req, now) := c in ServeHTTP p resp req now.

Fixpoint serveAll (calls : list call) (p : Proxy) : Proxy * list responseWriter :=
  match calls with
  | [] => (p, [])
  | c :: rest =>
      let '(p1, r) := serve p c in
      let '(p2, rs) := serveAll rest p1 in
      (p2, r :: rs)
  end.

End Bounded.

(** ** The client read loop (conn_impl_reads.go) *)

Module Client.

(** Modelled from the spec: the header-name constant is declared outside
    the files at hand; it names the upstream-EOF response header. *)
Definition X_ENPROXY_EOF : string := "Upstream-EOF".

Record rwResponse : Type := mkRw { n : Z; err : option error }.

(** The parts of an *http.Response the loop uses. *)
Record httpResponse : Type := mkHttpResponse {
  respHeader : gmap string string;
  Body : reader;
  bodyClosed : bool
}.

(** A caller's buffer [b []byte], by its length. *)
Definition buffer : Type := nat.

(** The fields of Conn the read side uses.  A channel is the queue of
    what was sent and not yet received; [readResponsesCh] keeps every
    response sent, oldest first. *)
Record Conn : Type := mkConn {
  doneReading : bool;
  readRequestsCh : list buffer;
  readRequestsClosed : bool;
  readResponsesCh : list rwResponse;
  stopReadCh : nat;
  closedFlag : bool;
  lastActivityTime : Z;
  IdleTimeout : Z
}.

Definition with_requests (q : list buffer) (c : Conn) : Conn :=
  mkConn (doneReading c) q (readRequestsClosed c) (readResponsesCh c) (stopReadCh c)
         (closedFlag c) (lastActivityTime c) (IdleTimeout c).
Definition with_stops (k : nat) (c : Conn) : Conn :=
  mkConn (doneReading c) (readRequestsCh c) (readRequestsClosed c) (readResponsesCh c) k
         (closedFlag c) (lastActivityTime c) (IdleTimeout c).
(** [c.readResponsesCh <- r] *)
Definition respond (r : rwResponse) (c : Conn) : Conn :=
  mkConn (doneReading c) (readRequestsCh c) (readRequestsClosed c) (readResponsesCh c ++ [r])
         (stopReadCh c) (closedFlag c) (lastActivityTime c) (IdleTimeout c).

(** Modelled from the spec: [isClosed], [isIdle] and [markActive] are
    declared outside the files at hand.  Idle means that at least
    IdleTimeout has passed since the last activity. *)
Definition isClosed (c : Conn) : bool := closedFlag c.
Definition isIdle (now : Z) (c : Conn) : bool :=
  (IdleTimeout c <=? now - lastActivityTime c)%Z.
Definition markActive (now : Z) (c : Conn) : Conn :=
  mkConn (doneReading c) (readRequestsCh c) (readRequestsClosed c) (readResponsesCh c)
         (stopReadCh c) (closedFlag c) now (IdleTimeout c).

(** submitRead: the result and the Conn afterwards. *)
Definition submitRead (b : buffer) (c : Conn) : bool * Conn :=
  if doneReading c then (false, c)
  else (true, with_requests (readRequestsCh c ++ [b]) c).

(** What the proxy side answers during one iteration:
    redialProxyIfNecessary's error and doRequest's result (both declared
    outside the files at hand). *)
Record transport : Type := mkTransport {
  redialErr : option error;
  requestResult : error + httpResponse
}.

(** The locals of processReads; [gets] counts the calls of
    [doRequest(..., OP_READ, nil)]. *)
Record loopState : Type := mkLoop {
  resp : option httpResponse;
  gets : nat
}.

Inductive outcome : Type :=
| Continue (st : loopState) (c : Conn)  (* next iteration *)
| Return (st : loopState) (c : Conn)    (* processReads returns *)
| NotReady.                             (* the chosen case cannot fire *)

(** The case [select] takes. *)
Inductive choice : Type :=
| CaseRead   (* b := <-c.readRequestsCh *)
| CaseStop   (* <-c.stopReadCh *)
| CaseTimer. (* <-time.After(c.Config.IdleTimeout) *)

(** Lines 86-116: read from the current response into the caller's buffer. *)
Definition readFromResponse (now : Z) (r : httpResponse) (g : nat) (c : Conn) : outcome :=
  let '((d, e), body') := Read (Body r) in
  let c := if decide (d = []) then c else markActive now c in
  let hitEOFUpstream := bool_decide (Header_Get (respHeader r) X_ENPROXY_EOF = "true") in
  let errToClient := if isEOF e && negb hitEOFUpstream then None else e in
  let c := respond (mkRw (Z.of_nat (length d)) errToClient) c in
  match e with
  | None => Continue (mkLoop (Some (mkHttpResponse (respHeader r) body' (bodyClosed r))) g) c
  | Some EOF =>
      (* Current response is done: resp.Body.Close(); resp = nil *)
      if hitEOFUpstream then Return (mkLoop None g) c
      else Continue (mkLoop None g) c
  | Some _ => Return (mkLoop (Some (mkHttpResponse (respHeader r) body' (bodyClosed r))) g) c
  end.

(** One iteration of the [for] loop of processReads. *)
Definition iteration (ch : choice) (now : Z) (tr : transport) (st : loopState) (c : Conn)
  : outcome :=
  if isClosed c then Return st c
  else
    match ch with
    | CaseRead =>
        match readRequestsCh c with
        | [] => NotReady
        | b :: q =>
            let c := with_requests q c in
            match resp st with
            | None =>
                (* Old response finished *)
                if isIdle now c then Return st c
                else
                  let c :=
                    match redialErr tr with
                    | Some _ => respond (mkRw 0 (Some (OtherError "Unable to redial proxy"))) c
                    | None => c
                    end in
                  match requestResult tr with
                  | inl _ =>
                      Return (mkLoop None (S (gets st)))
                             (respond (mkRw 0 (Some (OtherError "Unable to issue read request"))) c)
                  | inr r => readFromResponse now r (S (gets st)) c
                  end
            | Some r => readFromResponse now r (gets st) c
            end
        end
    | CaseStop =>
        match stopReadCh c with
        | O => NotReady
        | S k => Return st (with_stops k c)
        end
    | CaseTimer => if isIdle now c then Return st c else Continue st c
    end.

(** The [for]/[select] of cleanupAfterReads, after doneReading is set:
    every queued submission is answered with (0, io.EOF), every pending
    stop signal is dropped, then the requests channel is closed.  The
    answers are all alike, so the order in which [select] picks the ready
    cases does not show in the result; see [cleanupRun] for the loop as
    a relation. *)
Fixpoint drainRequests (q : list buffer) (c : Conn) : Conn :=
  match q with
  | [] => with_requests [] c
  | _ :: q' => drainRequests q' (respond (mkRw 0 (Some EOF)) c)
  end.

Definition closeBody (r : httpResponse) : httpResponse :=
  mkHttpResponse (respHeader r) (Body r) true.

(** [c.doneReading = true], under the write lock. *)
Definition setDoneReading (c : Conn) : Conn :=
  mkConn true (readRequestsCh c) (readRequestsClosed c) (readResponsesCh c)
         (stopReadCh c) (closedFlag c) (lastActivityTime c) (IdleTimeout c).

Definition cleanupAfterReads (r : option httpResponse) (c : Conn)
  : Conn * option httpResponse :=
  let c := setDoneReading c in
  let c := drainRequests (readRequestsCh c) c in
  let c := with_stops 0 c in
  (mkConn (doneReading c) (readRequestsCh c) true (readResponsesCh c) (stopReadCh c)
          (closedFlag c) (lastActivityTime c) (IdleTimeout c),
   closeBody <$> r).

(** The same loop, one [select] at a time. *)
Inductive cleanupStep : Conn -> Conn -> Prop :=
| cleanup_request b q c :
    readRequestsCh c = b :: q ->
    cleanupStep c (respond (mkRw 0 (Some EOF)) (with_requests q c))
| cleanup_stop k c :
    stopReadCh c = S k ->
    cleanupStep c (with_stops k c).

Inductive cleanupRun : Conn -> Conn -> Prop :=
| cleanup_default c :
    readRequestsCh c = [] -> stopReadCh c = O ->
    cleanupRun c (mkConn (doneReading c) [] true (readResponsesCh c) O
                         (closedFlag c) (lastActivityTime c) (IdleTimeout c))
| cleanup_more c c1 c' :
    cleanupStep c c1 -> cleanupRun c1 c' -> cleanupRun c c'.

(** processReads up to its loop: dial the proxy, wait for the initial
    response. *)
Record initialResponse : Type := mkInitial {
  initErr : option error;
  initResp : option httpResponse
}.

(** The read goroutine: [Some st] while processReads runs, [None] once it
    has returned and its deferred cleanupAfterReads(resp) has run.  The
    argument of the deferred call is evaluated at the [defer] statement,
    where [resp] is still nil. *)
Definition system : Type := Conn * option loopState.

Definition exitReads (c : Conn) : system := (fst (cleanupAfterReads None c), None).

Definition processReads_start (dialErr : option error) (ir : initialResponse) (c : Conn)
  : system :=
  match dialErr with
  | Some _ => exitReads c
  | None =>
      match initErr ir with
      | Some _ => exitReads c
      | None => (c, Some (mkLoop (initResp ir) 0))
      end
  end.

(** What can happen to a Conn, as far as the files at hand go: a caller
    submits a read, or the read goroutine runs one iteration. *)
Inductive action : Type :=
| Submit (b : buffer)
| Iterate (ch : choice) (now : Z) (tr : transport).

Definition step (s : system) (a : action) : system :=
  let '(c, lp) := s in
  match a with
  | Submit b => (snd (submitRead b c), lp)
  | Iterate ch now tr =>
      match lp with
      | None => s
      | Some st =>
          match iteration ch now tr st c with
          | Continue st' c' => (c', Some st')
          | Return _ c' => exitReads c'
          | NotReady => s
          end
      end
  end.

Definition run (acts : list action) (s : system) : system := fold_left step acts s.

End Client.

(** * Invariants of the connection table *)

(** What a [*lazyConn] may become: id and address stay, the EOF flag and
    the socket are never taken back. *)
Definition lc_le (lc lc' : lazyConn) : Prop :=
  lcId lc' = lcId lc /\ lcAddr lc' = lcAddr lc /\
  (hitEOF lc = true -> hitEOF lc' = true) /\
  (is_Some (connOut lc) -> is_Some (connOut lc')).

(** [t'] is a later state of [t]: no entry of the map and no object is
    lost, and objects only change as [lc_le] allows. *)
Definition extends (t t' : connTable) : Prop :=
  (forall id l, connMap t !! id = Some l -> connMap t' !! id = Some l) /\
  (forall l lc, heap t !! l = Some lc -> exists lc', heap t' !! l = Some lc' /\ lc_le lc lc').

(** The EOF flag is only set on a connection that was dialed. *)
Definition lc_ok (lc : lazyConn) : Prop := hitEOF lc = true -> is_Some (connOut lc).

(** The map and the objects agree: an entry points to the object of that
    id, and every object is the one its id is mapped to. *)
Definition table_ok (t : connTable) : Prop :=
  (forall id l, connMap t !! id = Some l -> exists lc, heap t !! l = Some lc /\ lcId lc = id) /\
  (forall l lc, heap t !! l = Some lc -> connMap t !! lcId lc = Some l) /\
  (forall l lc, heap t !! l = Some lc -> lc_ok lc).

(** What the response loop of the bounded-read ServeHTTP may do to the
    socket [c], the response [resp] and the table [t] it starts from: it
    never writes to the socket, it keeps the table in order, and it answers
    200 unless a status was sent before. *)
Definition loop_post (c : netConn) (resp : responseWriter) (first : bool) (t : connTable)
    (out : Bounded.served) : Prop :=
  let '(resp', c', t') := out in
  outbound c' = outbound c /\ extends t t' /\ (table_ok t -> table_ok t') /\
  length (heap t') = length (heap t) /\ dialLog t' = dialLog t /\
  (forall w, wire resp = Some w -> wire resp' = Some w) /\
  (first = true -> wire resp = None -> status resp' = Some 200).





(** No two objects of the heap carry the same connection id. *)
Definition one_per_id (t : connTable) : Prop :=
  forall l1 l2 lc1 lc2,
    heap t !! l1 = Some lc1 -> heap t !! l2 = Some lc2 -> lcId lc1 = lcId lc2 -> l1 = l2.

(** A socket on which [datas] arrive, one chunk per read, and the next
    read exceeds its deadline with nothing read. *)
Definition timing_out (datas : list (list byte)) (rest : reader) : reader :=
  (((fun d => (d, None)) <$> datas) ++ ([], Some (NetError true)) :: rest)%list.


(** The terminal answer cleanupAfterReads gives: zero bytes, io.EOF. *)
Definition terminalEOF : Client.rwResponse := Client.mkRw 0 (Some EOF).

(** What is sent before the read result when a GET had to be issued and
    the redial failed. *)
Definition redialNotice (st : Client.loopState) (tr : Client.transport)
  : list Client.rwResponse :=
  match Client.resp st, Client.redialErr tr with
  | None, Some _ => [Client.mkRw 0 (Some (OtherError "Unable to redial proxy"))]
  | _, _ => []
  end.

(** The response a read submission is served from: the active one, or the
    one a fresh GET brings. *)
Definition servedFrom (st : Client.loopState) (now : Z) (tr : Client.transport)
    (c : Client.Conn) (r : Client.httpResponse) : Prop :=
  Client.resp st = Some r \/
  (Client.resp st = None /\ Client.isIdle now c = false /\ Client.requestResult tr = inr r).

(** * Sample requests, sockets and proxies *)

Module Sample.

(** A fresh socket whose peer will produce [script], and on which a Read
    into emptyBuffer at the end of the stream reports io.EOF. *)
Definition socket (script : reader) : netConn :=
  mkNetConn script [] [] [] 0 false (Some EOF).

(** The same with a Read into emptyBuffer that reports (0, nil), as a
    *net.TCPConn answers a Read into a buffer of length zero. *)
Definition tcpSocket (script : reader) : netConn :=
  mkNetConn script [] [] [] 0 false None.

(** A dial function that connects every address to such a socket. *)
Definition dialTo (script : reader) : dialFunc := fun _ => inr (socket script).

Definition headers : gmap string string :=
  {[ X_HTTPCONN_ID := "abc"; X_HTTPCONN_DEST_ADDR := "example.com:80" ]}.

Definition GET : request := mkRequest "GET" headers [].
Definition POST (payload : list byte) : request :=
  mkRequest "POST" headers [(payload, None)].

Definition hi : list byte := [Byte.x68; Byte.x69].

(** A started streaming proxy with the default intervals. *)
Definition streaming (script : reader) : Streaming.Proxy :=
  Streaming.Start (dialTo script) (Streaming.mkProxy None "" 0 0 emptyTable).

(** The same, dialing sockets of the second kind. *)
Definition streamingTCP (script : reader) : Streaming.Proxy :=
  Streaming.Start (fun _ => inr (tcpSocket script)) (Streaming.mkProxy None "" 0 0 emptyTable).

(** A started bounded-read proxy; idle interval 35 ms. *)
Definition bounded (script : reader) : Bounded.Proxy :=
  Bounded.Start (dialTo script) (35 * Millisecond)
                (Bounded.mkProxy None "" 0 0 0 emptyTable).

(** A clock that reads 0 at every call of time.Now(). *)
Definition noon : nat -> Z := fun _ => 0.

(** A client connection that is open, was last active at time 0 and
    times out after 70 s. *)
Definition conn (queue : list Client.buffer) : Client.Conn :=
  Client.mkConn false queue false [] 0 false 0 (70 * Second).

Definition response (eofHeader : bool) (script : reader) : Client.httpResponse :=
  Client.mkHttpResponse
    (if eofHeader then {[ Client.X_ENPROXY_EOF := "true" ]} else ∅) script false.

Definition transport (r : Client.httpResponse) : Client.transport :=
  Client.mkTransport None (inr r).

End Sample.

(** * Further notions used by the properties beyond C1-C10 *)

(** The bytes a stream still holds: every chunk up to the end of the
    stream (whatever errors lie in between). *)
Fixpoint stream_bytes (r : reader) : list byte :=
  match r with
  | [] => []
  | (d, Some EOF) :: _ => d
  | (d, _) :: rest => d ++ stream_bytes rest
  end.

(** The read error at which the response loop of the bounded-read ServeHTTP
    stops: the first one that is not a net.Error without timeout. *)
Fixpoint stop_error (r : reader) : error :=
  match r with
  | [] => EOF
  | (_, None) :: rest => stop_error rest
  | (_, Some (NetError false)) :: rest => stop_error rest
  | (_, Some e) :: _ => e
  end.

(** The errors the loop takes for normal ends of a response. *)
Definition expected (e : error) : bool :=
  match e with
  | EOF | NetError true => true
  | _ => false
  end.

(** A GET for [id] with a new response writer whose writes all succeed. *)
Definition get_for (id : string) (c : Streaming.call) : Prop :=
  let '(resp, req, _) := c in
  Method req = "GET" /\
  Header_Get (reqHeader req) X_HTTPCONN_ID = id /\
  Header_Get (reqHeader req) X_HTTPCONN_DEST_ADDR <> "" /\
  wire resp = None /\ body resp = [] /\ accepts (rfaults resp).

(** A POST for [id] whose body ends cleanly. *)
Definition post_for (id : string) (c : Streaming.call) : Prop :=
  let '(resp, req, _) := c in
  Method req = "POST" /\
  Header_Get (reqHeader req) X_HTTPCONN_ID = id /\
  Header_Get (reqHeader req) X_HTTPCONN_DEST_ADDR <> "" /\
  wire resp = None /\ intact (reqBody req) = true.

(** A request for [id] to the bounded-read revision: body ending cleanly,
    new response writer whose writes all succeed. *)
Definition exchange_for (id : string) (c : Bounded.call) : Prop :=
  let '(resp, req, _) := c in
  Header_Get (reqHeader req) X_HTTPCONN_ID = id /\
  Header_Get (reqHeader req) X_HTTPCONN_DEST_ADDR <> "" /\
  wire resp = None /\ body resp = [] /\ accepts (rfaults resp) /\
  intact (reqBody req) = true.

(** The bytes-read counter of the lazyConn at [l]. *)
Definition lc_bytesRead (t : connTable) (l : ptr) : Z :=
  match heap t !! l with Some lc => bytesRead lc | None => 0 end.


(** [t'] differs from [t] at most in the object at address [l]. *)
Definition only_at (l : ptr) (t t' : connTable) : Prop :=
  connMap t' = connMap t /\ forall j, j <> l -> heap t' !! j = heap t !! j.

(** What a request for [id] may not touch: the entries of the other ids,
    and every object but the one [id] is mapped to. *)
Definition others_kept (id : string) (t t' : connTable) : Prop :=
  (forall id', id' <> id -> connMap t' !! id' = connMap t !! id') /\
  (forall l lc, heap t !! l = Some lc -> connMap t !! id <> Some l -> heap t' !! l = Some lc).

(** The writes among the events of a maxLatencyWriter. *)
Definition isWrite (e : MaxLatencyWriter.event) : bool :=
  match e with MaxLatencyWriter.EvWrite _ => true | MaxLatencyWriter.EvTick => false end.

(** The iterations of processReads that call doRequest: a read submission
    is taken while no response is active, the Conn being neither closed
    nor idle. *)
Definition fetches (ch : Client.choice) (now : Z) (st : Client.loopState) (c : Client.Conn)
  : bool :=
  negb (Client.isClosed c) &&
  match ch, Client.readRequestsCh c, Client.resp st with
  | Client.CaseRead, _ :: _, None => negb (Client.isIdle now c)
  | _, _, _ => false
  end.

(** The bytes the events of a maxLatencyWriter hand to Write, in order. *)
Definition payload (evs : list MaxLatencyWriter.event) : list byte :=
  concat ((fun e => match e with
                    | MaxLatencyWriter.EvWrite p => p
                    | MaxLatencyWriter.EvTick => []
                    end) <$> evs).

(** A call of the streaming tunnel for [id]: a GET or a POST as above,
    with a response writer that holds nothing yet. *)
Definition tunnel_call (id : string) (c : Streaming.call) : Prop :=
  get_for id c \/ (post_for id c /\ body (fst (fst c)) = []).

(** The bytes a call sends towards the destination: the body of a POST;
    the body of a GET is not looked at. *)
Definition posted (c : Streaming.call) : list byte :=
  if decide (Method (snd (fst c)) = "POST") then reader_bytes (reqBody (snd (fst c))) else [].

(** The values of an int. *)
Definition inInt (x : Z) : Prop := minInt <= x <= maxInt.

(** A stream none of whose reads fails for good: each one brings data,
    times out, reports a net.Error that is no timeout, or meets the end of
    the stream. *)
Fixpoint calm (r : reader) : bool :=
  match r with
  | [] => true
  | (_, Some EOF) :: _ => true
  | (_, None) :: rest => calm rest
  | (_, Some (NetError _)) :: rest => calm rest
  | (_, Some _) :: _ => false
  end.

(** Reads after which the response loop of the bounded-read ServeHTTP
    reads on: no error, or a net.Error that is no timeout. *)
Definition continuing (pre : reader) : Prop :=
  Forall (fun res : readResult => snd res = None \/ snd res = Some (NetError false)) pre.

(** The reads among [pre] that bring data; the response loop follows each
    of them by one Write to the client. *)
Fixpoint chunks (pre : reader) : nat :=
  match pre with
  | [] => 0
  | ([], _) :: rest => chunks rest
  | (_ :: _, _) :: rest => S (chunks rest)
  end.
(** * Properties *)

Import MaxLatencyWriter.

(** ** io.Copy into a socket *)

Lemma Read_cons_nil (d : list byte) (rest : reader) :
  Read ((d, None) :: rest) = ((d, None), rest).
Proof. reflexivity. Qed.

Lemma Read_after_EOF (r : reader) (d : list byte) :
  fst (Read r) = (d, Some EOF) -> snd (Read r) = [].
Proof.
  destruct r as [|[d' [e|]] rest]; simpl; try done.
  destruct e; simpl; intros H; by inversion H.
Qed.

(** One iteration of the loop of io.Copy, in terms of [Read]. *)
Lemma ioCopyFrom_unfold {W} (write : list byte -> W -> (nat * option error) * W)
    (src : reader) (dst : W) (n : Z) (k : nat) :
  ioCopyFrom write src dst n k =
    let '((d, er), src') := Read src in
    let '(nw, ew, dst') :=
      match d with
      | [] => (0%nat, None, dst)
      | _ :: _ => let '(nw, ew, dst') := write d dst in (nw, ew, dst')
      end in
    let n' := n + Z.of_nat nw in
    match ew with
    | Some e => mkCopy n' (Some e) src' dst' (S k)
    | None =>
        if negb (Nat.eqb nw (length d)) then mkCopy n' (Some ErrShortWrite) src' dst' (S k)
        else match er with
             | Some EOF => mkCopy n' None src' dst' (S k)
             | Some e => mkCopy n' (Some e) src' dst' (S k)
             | None => ioCopyFrom write src' dst' n' (S k)
             end
    end.
Proof.
  destruct src as [|[d [e|]] rest].
  - cbn. by rewrite Z.add_0_r.
  - destruct e; reflexivity.
  - reflexivity.
Qed.

(** io.Copy returns nil only at the end of its source: whatever the writer,
    a copy that reports no error has left the source at end-of-stream. *)
Lemma ioCopyFrom_nil_at_end {W} (write : list byte -> W -> (nat * option error) * W)
    (src : reader) (dst : W) (n : Z) (k : nat) :
  copyErr (ioCopyFrom write src dst n k) = None ->
  srcAfter (ioCopyFrom write src dst n k) = [].
Proof.
  revert dst n k. induction src as [|[d er] rest IH]; intros dst n k; [done|].
  cbn [ioCopyFrom].
  destruct (match d with
            | [] => (0%nat, None, dst)
            | _ :: _ => let '(nw, ew, dst') := write d dst in (nw, ew, dst')
            end) as [[nw ew] dst'].
  destruct ew as [e|]; [done|].
  destruct (negb (nw =? length d)%nat); [done|].
  destruct er as [[]|]; try done. apply IH.
Qed.

Lemma conn_Write_cases (p : list byte) (c : netConn) :
  (exists e rest, wfaults c = Some e :: rest /\
     conn_Write p c = ((0%nat, Some e),
       mkNetConn (inbound c) (outbound c) rest (readDeadlines c) (reads c) (closed c)
                 (emptyRead c))) \/
  (conn_Write p c = ((length p, None),
       mkNetConn (inbound c) (outbound c ++ p) (tail (wfaults c)) (readDeadlines c)
                 (reads c) (closed c) (emptyRead c)) /\
   head (wfaults c) <> Some (Some EOF) /\ forall e, head (wfaults c) <> Some (Some e)).
Proof.
  unfold conn_Write. destruct (wfaults c) as [|[e|] rest]; simpl.
  - right. repeat split; congruence.
  - left. eauto.
  - right. repeat split; congruence.
Qed.

Lemma accepts_tail (fs : list (option error)) : accepts fs -> accepts (tail fs).
Proof. destruct fs; simpl; [done|]. unfold accepts. by inversion 1. Qed.

Lemma conn_Write_accepts (p : list byte) (c : netConn) :
  accepts (wfaults c) ->
  conn_Write p c = ((length p, None),
       mkNetConn (inbound c) (outbound c ++ p) (tail (wfaults c)) (readDeadlines c)
                 (reads c) (closed c) (emptyRead c)).
Proof.
  intros Hacc. destruct (conn_Write_cases p c) as [(e & rest & Hw & _)|[H _]]; [|done].
  rewrite Hw in Hacc. inversion Hacc; discriminate.
Qed.

(** Whatever happens, the socket has received a prefix of the body: nothing
    is reordered, repeated or skipped. *)
Lemma ioCopyFrom_conn_prefix (src : reader) (c : netConn) (n : Z) (k : nat) :
  exists m, outbound (dstAfter (ioCopyFrom conn_Write src c n k))
            = (outbound c ++ take m (reader_bytes src))%list.
Proof.
  revert c n k. induction src as [|[d er] rest IH]; intros c n k.
  - exists 0%nat. simpl. by rewrite app_nil_r.
  - cbn [ioCopyFrom]. destruct d as [|b d].
    + cbn. destruct er as [e|].
      * exists 0%nat. destruct e; cbn; by rewrite app_nil_r.
      * destruct (IH c (n + Z.of_nat 0) (S k)) as [m Hm]. exists m. exact Hm.
    + destruct (conn_Write_cases (b :: d) c) as [(e & fs & _ & ->)|[-> _]].
      * exists 0%nat. cbn. by rewrite app_nil_r.
      * cbn [negb]. rewrite Nat.eqb_refl. cbn [negb].
        destruct er as [e|].
        -- exists (length (b :: d)). cbn [reader_bytes]. rewrite take_ge by lia.
           destruct e; reflexivity.
        -- match goal with |- context [ioCopyFrom _ rest ?c' ?n' ?k'] =>
             destruct (IH c' n' k') as [m Hm] end.
           exists (length (b :: d) + m)%nat. rewrite Hm. cbn [outbound reader_bytes].
           rewrite take_app_add'; [|done]. by rewrite <- app_assoc.
Qed.

(** When the body ends cleanly and the socket takes every write, the socket
    has received the whole body and io.Copy reports no error. *)
Lemma ioCopyFrom_conn_exact (src : reader) (c : netConn) (n : Z) (k : nat) :
  intact src = true -> accepts (wfaults c) ->
  let r := ioCopyFrom conn_Write src c n k in
  copyErr r = None /\
  outbound (dstAfter r) = (outbound c ++ reader_bytes src)%list /\
  accepts (wfaults (dstAfter r)) /\
  inbound (dstAfter r) = inbound c /\ readDeadlines (dstAfter r) = readDeadlines c /\
  reads (dstAfter r) = reads c /\ closed (dstAfter r) = closed c.
Proof.
  revert c n k. induction src as [|[d er] rest IH]; intros c n k Hin Hacc.
  - cbn. by rewrite app_nil_r.
  - cbn [ioCopyFrom]. destruct d as [|b d].
    + cbn. destruct er as [e|].
      * destruct e; try discriminate. cbn. by rewrite app_nil_r.
      * apply (IH c (n + Z.of_nat 0) (S k)); done.
    + rewrite (conn_Write_accepts _ _ Hacc). cbn [negb]. rewrite Nat.eqb_refl. cbn [negb].
      destruct er as [e|].
      * destruct e; try discriminate. cbn. split_and!; try done. by apply accepts_tail.
      * match goal with |- context [ioCopyFrom _ rest ?c' ?n' ?k'] =>
          destruct (IH c' n' k') as (He & Ho & Ha & Hi & Hd & Hr & Hc) end;
          [done | by apply accepts_tail |].
        cbv zeta. rewrite He, Ho, Hi, Hd, Hr, Hc. cbn. split_and!; try done.
        by rewrite <- app_assoc.
Qed.

(** ** The connection table *)

Lemma lc_le_refl (lc : lazyConn) : lc_le lc lc.
Proof. by unfold lc_le. Qed.

Lemma lc_le_trans (a b c : lazyConn) : lc_le a b -> lc_le b c -> lc_le a c.
Proof. unfold lc_le. intros (?&?&?&?) (?&?&?&?). split_and!; [congruence..|auto|auto]. Qed.

Lemma extends_refl (t : connTable) : extends t t.
Proof. split; [done|]. intros l lc H. exists lc. split; [done|apply lc_le_refl]. Qed.

Lemma extends_trans (t1 t2 t3 : connTable) : extends t1 t2 -> extends t2 t3 -> extends t1 t3.
Proof.
  intros [Hm1 Hh1] [Hm2 Hh2]. split; [by auto|].
  intros l lc H. destruct (Hh1 _ _ H) as (lc2 & H2 & Hle2).
  destruct (Hh2 _ _ H2) as (lc3 & H3 & Hle3). exists lc3. split; [done|].
  by eapply lc_le_trans.
Qed.

Lemma emptyTable_ok : table_ok emptyTable.
Proof. split_and!; intros ? ?; cbn; [by rewrite lookup_empty | done | done]. Qed.

Lemma alter_heap_lookup (f : lazyConn -> lazyConn) (l j : ptr) (t : connTable) :
  heap (alter_heap f l t) !! j = if decide (l = j) then f <$> heap t !! j else heap t !! j.
Proof.
  cbn. destruct (decide (l = j)) as [->|Hne].
  - apply list_lookup_alter_eq.
  - by apply list_lookup_alter_ne.
Qed.

Lemma alter_heap_extends (f : lazyConn -> lazyConn) (l : ptr) (t : connTable) :
  (forall lc, heap t !! l = Some lc -> lc_le lc (f lc)) -> extends t (alter_heap f l t).
Proof.
  intros Hf. split; [done|]. intros j lc Hj. rewrite alter_heap_lookup.
  destruct (decide (l = j)) as [->|Hne].
  - rewrite Hj. exists (f lc). split; [done|by apply Hf].
  - exists lc. split; [done|apply lc_le_refl].
Qed.

Lemma alter_heap_ok (f : lazyConn -> lazyConn) (l : ptr) (t : connTable) :
  (forall lc, lcId (f lc) = lcId lc) ->
  (forall lc, heap t !! l = Some lc -> lc_ok (f lc)) ->
  table_ok t -> table_ok (alter_heap f l t).
Proof.
  intros Hid Hok (Hm & Hh & Hf). split_and!.
  - intros id j Hj. cbn in Hj. destruct (Hm _ _ Hj) as (lc & Hlc & Hlcid).
    rewrite alter_heap_lookup. destruct (decide (l = j)) as [->|Hne].
    + rewrite Hlc. exists (f lc). split; [done|]. by rewrite Hid.
    + by exists lc.
  - intros j lc'. rewrite alter_heap_lookup. cbn. destruct (decide (l = j)) as [->|Hne].
    + destruct (heap t !! j) as [lc|] eqn:E; [|done]. cbn. intros [= <-].
      rewrite Hid. by apply Hh.
    + apply Hh.
  - intros j lc'. rewrite alter_heap_lookup. destruct (decide (l = j)) as [->|Hne].
    + destruct (heap t !! j) as [lc|] eqn:E; [|done]. cbn. intros [= <-]. by apply Hok.
    + apply Hf.
Qed.

Lemma store_conn_extends (l : ptr) (c : netConn) (t : connTable) : extends t (store_conn l c t).
Proof. apply alter_heap_extends. intros lc _. unfold lc_le; cbn. split_and!; eauto. Qed.

Lemma store_conn_ok (l : ptr) (c : netConn) (t : connTable) :
  table_ok t -> table_ok (store_conn l c t).
Proof. apply alter_heap_ok; [done|]. intros lc _ _. cbn. eauto. Qed.

Lemma add_bytesRead_extends (l : ptr) (n : Z) (t : connTable) :
  extends t (add_bytesRead l n t).
Proof. apply alter_heap_extends. intros lc _. by unfold lc_le. Qed.

Lemma add_bytesRead_ok (l : ptr) (n : Z) (t : connTable) :
  table_ok t -> table_ok (add_bytesRead l n t).
Proof.
  intros Hok. apply alter_heap_ok; [done| |done]. intros lc Hl. apply Hok in Hl. exact Hl.
Qed.

Lemma set_hitEOF_extends (l : ptr) (t : connTable) : extends t (set_hitEOF l t).
Proof. apply alter_heap_extends. intros lc _. by unfold lc_le. Qed.

Lemma set_hitEOF_ok (l : ptr) (t : connTable) :
  (forall lc, heap t !! l = Some lc -> is_Some (connOut lc)) ->
  table_ok t -> table_ok (set_hitEOF l t).
Proof. intros Hc. apply alter_heap_ok; [done|]. intros lc Hl _. cbn. by apply Hc. Qed.

Lemma lc_conn_store_conn (l : ptr) (c : netConn) (t : connTable) :
  (l < length (heap t))%nat -> lc_conn (store_conn l c t) l = Some c.
Proof.
  intros Hl. unfold lc_conn, store_conn. rewrite alter_heap_lookup, decide_True by done.
  destruct (lookup_lt_is_Some_2 _ _ Hl) as [lc ->]. done.
Qed.

Lemma alter_heap_length (f : lazyConn -> lazyConn) (l : ptr) (t : connTable) :
  length (heap (alter_heap f l t)) = length (heap t).
Proof. apply length_alter. Qed.

Lemma getLazyConn_extends (id addr : string) (t : connTable) :
  extends t (snd (getLazyConn id addr t)).
Proof.
  unfold getLazyConn. destruct (connMap t !! id) as [l|] eqn:E; [apply extends_refl|].
  split; cbn.
  - intros id' l' H. rewrite lookup_insert_ne; [done|congruence].
  - intros l lc H. exists lc. split; [by apply lookup_app_l_Some|apply lc_le_refl].
Qed.

Lemma getLazyConn_ok (id addr : string) (t : connTable) :
  table_ok t -> table_ok (snd (getLazyConn id addr t)).
Proof.
  intros (Hm & Hh & Hf). unfold getLazyConn.
  destruct (connMap t !! id) as [l|] eqn:E; [done|]. cbn. split_and!; cbn.
  - intros id' l'. rewrite lookup_insert. case_decide as Hd.
    + intros [= <-]. subst id'. exists (newLazyConn id addr). split; [|done].
      by rewrite lookup_app_r, Nat.sub_diag.
    + intros H. destruct (Hm _ _ H) as (lc & Hlc & Hi). exists lc. split; [|done].
      by apply lookup_app_l_Some.
  - intros l lc H. apply lookup_app_Some in H as [H|[Hlen H]].
    + rewrite lookup_insert_ne; [by apply Hh|]. intros Heq. apply Hh in H.
      rewrite <- Heq in H. congruence.
    + destruct (l - length (heap t))%nat as [|k] eqn:Ek; [|by destruct k].
      cbn in H. injection H as <-. cbn. rewrite lookup_insert_eq. f_equal. lia.
  - intros l lc H. apply lookup_app_Some in H as [H|[Hlen H]]; [by eapply Hf|].
    destruct (l - length (heap t))%nat as [|k] eqn:Ek; [|by destruct k].
    cbn in H. injection H as <-. done.
Qed.

(** The object getLazyConn returns is in the heap and carries the id. *)
Lemma getLazyConn_lookup (id addr : string) (t : connTable) :
  table_ok t ->
  connMap (snd (getLazyConn id addr t)) !! id = Some (fst (getLazyConn id addr t)) /\
  exists lc, heap (snd (getLazyConn id addr t)) !! fst (getLazyConn id addr t) = Some lc /\
             lcId lc = id.
Proof.
  intros Hok. pose proof (getLazyConn_ok id addr t Hok) as (Hm' & _ & _).
  assert (connMap (snd (getLazyConn id addr t)) !! id = Some (fst (getLazyConn id addr t))) as H.
  { unfold getLazyConn. destruct (connMap t !! id) as [l|] eqn:E; cbn; [done|].
    apply lookup_insert_eq. }
  split; [done|]. by apply Hm'.
Qed.

Lemma lazyConn_get_cached (dial : dialFunc) (l : ptr) (t : connTable) (lc : lazyConn)
    (c : netConn) :
  heap t !! l = Some lc -> connOut lc = Some c -> lazyConn_get dial l t = (inr c, t).
Proof. intros Hl Hc. unfold lazyConn_get. by rewrite Hl, Hc. Qed.

Lemma lazyConn_get_extends (dial : dialFunc) (l : ptr) (t : connTable) :
  extends t (snd (lazyConn_get dial l t)).
Proof.
  unfold lazyConn_get. destruct (heap t !! l) as [lc|] eqn:E; [|apply extends_refl].
  destruct (connOut lc) as [c|]; [apply extends_refl|].
  destruct (dial (lcAddr lc)) as [e|c]; cbn [snd].
  - split; [done|]. intros j lc' H. exists lc'. split; [done|apply lc_le_refl].
  - eapply extends_trans; [|apply store_conn_extends].
    split; [done|]. intros j lc' H. exists lc'. split; [done|apply lc_le_refl].
Qed.

Lemma table_ok_log (t : connTable) (log : list string) :
  table_ok t -> table_ok (mkTable (connMap t) (heap t) log).
Proof. intros H. exact H. Qed.

Lemma lazyConn_get_ok (dial : dialFunc) (l : ptr) (t : connTable) :
  table_ok t -> table_ok (snd (lazyConn_get dial l t)).
Proof.
  intros Hok. unfold lazyConn_get. destruct (heap t !! l) as [lc|] eqn:E; [|done].
  destruct (connOut lc) as [c|]; [done|].
  destruct (dial (lcAddr lc)) as [e|c]; cbn [snd]; [by apply (table_ok_log t)|].
  by apply store_conn_ok, (table_ok_log t).
Qed.

Lemma lazyConn_get_length (dial : dialFunc) (l : ptr) (t : connTable) :
  length (heap (snd (lazyConn_get dial l t))) = length (heap t).
Proof.
  unfold lazyConn_get. destruct (heap t !! l) as [lc|] eqn:E; [|done].
  destruct (connOut lc) as [c|]; [done|].
  destruct (dial (lcAddr lc)) as [e|c]; cbn [snd]; [done|].
  unfold store_conn. by rewrite alter_heap_length.
Qed.

(** A socket returned by get() is the one the lazyConn holds afterwards. *)
Lemma lazyConn_get_inr (dial : dialFunc) (l : ptr) (t t' : connTable) (c : netConn) :
  lazyConn_get dial l t = (inr c, t') ->
  lc_conn t' l = Some c /\ (l < length (heap t'))%nat.
Proof.
  unfold lazyConn_get. destruct (heap t !! l) as [lc|] eqn:E; [|done].
  pose proof (lookup_lt_Some _ _ _ E) as Hlt.
  destruct (connOut lc) as [c0|] eqn:Ec.
  - intros [= <- <-]. split; [|done]. unfold lc_conn. by rewrite E.
  - destruct (dial (lcAddr lc)) as [e|c1]; [done|]. intros [= <- <-]. split.
    + by apply lc_conn_store_conn.
    + unfold store_conn. by rewrite alter_heap_length.
Qed.

(** get() dials at most once, and only a lazyConn that has no socket yet. *)
Lemma lazyConn_get_dialLog (dial : dialFunc) (l : ptr) (t : connTable) :
  dialLog (snd (lazyConn_get dial l t)) = dialLog t \/
  exists lc, heap t !! l = Some lc /\ connOut lc = None /\
             dialLog (snd (lazyConn_get dial l t)) = (dialLog t ++ [lcAddr lc])%list.
Proof.
  unfold lazyConn_get. destruct (heap t !! l) as [lc|] eqn:E; [|by left].
  destruct (connOut lc) as [c|] eqn:Ec; [by left|]. right. exists lc.
  destruct (dial (lcAddr lc)); done.
Qed.


(** ** The response writer *)

Lemma wire_Header_Set (k v : string) (r : responseWriter) : wire (Header_Set k v r) = wire r.
Proof. reflexivity. Qed.

Lemma status_WriteHeader (code : Z) (r : responseWriter) :
  wire r = None -> status (WriteHeader code r) = Some code.
Proof. intros H. unfold status, WriteHeader. by rewrite H. Qed.

Lemma wire_WriteHeader_Some (code : Z) (r : responseWriter) (w : Z * gmap string string) :
  wire r = Some w -> WriteHeader code r = r.
Proof. intros H. unfold WriteHeader. by rewrite H. Qed.

Lemma wire_resp_Write (p : list byte) (r : responseWriter) (w : Z * gmap string string) :
  wire r = Some w -> wire (snd (resp_Write p r)) = Some w.
Proof.
  intros H. unfold resp_Write. rewrite (wire_WriteHeader_Some _ _ _ H).
  by destruct (rfaults r) as [|[e|] rest].
Qed.

Lemma body_WriteHeader (code : Z) (r : responseWriter) : body (WriteHeader code r) = body r.
Proof. unfold WriteHeader. by destruct (wire r). Qed.

(** ** The streaming ServeHTTP keeps the table well formed *)

Lemma Streaming_handleGET_table (p : Streaming.Proxy) (resp : responseWriter) (req : request)
    (l : ptr) (c : netConn) (now : Z) (t : connTable) :
  lc_conn t l = Some c ->
  let t' := snd (Streaming.handleGET p resp req l c now t) in
  extends t t' /\ (table_ok t -> table_ok t') /\ dialLog t' = dialLog t.
Proof.
  intros Hc. unfold Streaming.handleGET.
  destruct (lc_hitEOF t l); cbn [snd]; [split_and!; [apply extends_refl|done|done]|].
  destruct (copyErr _) as [e|]; [|unfold conn_ReadEmpty].
  all: cbn [snd]; match goal with |- context [isEOF ?e] => destruct (isEOF e) end.
  all: split_and!; try done.
  all: try (eapply extends_trans; [apply store_conn_extends|]; try apply set_hitEOF_extends;
            apply extends_refl).
  all: try apply store_conn_extends.
  all: intros Hok; try by apply store_conn_ok.
  all: apply set_hitEOF_ok; [|by apply store_conn_ok].
  all: intros lc; unfold store_conn; rewrite alter_heap_lookup, decide_True by done.
  all: destruct (heap t !! l); cbn; [intros [= <-]; cbn; eauto|done].
Qed.

Lemma Streaming_ServeHTTP_table (p : Streaming.Proxy) (resp : responseWriter) (req : request)
    (now : Z) :
  let p' := fst (Streaming.ServeHTTP p resp req now) in
  extends (Streaming.table p) (Streaming.table p') /\
  (table_ok (Streaming.table p) -> table_ok (Streaming.table p')) /\
  Streaming.Dial p' = Streaming.Dial p.
Proof.
  unfold Streaming.ServeHTTP.
  case_decide; [cbn; split_and!; [apply extends_refl|done..]|].
  case_decide; [cbn; split_and!; [apply extends_refl|done..]|].
  set (id := Header_Get (reqHeader req) X_HTTPCONN_ID).
  set (addr := Header_Get (reqHeader req) X_HTTPCONN_DEST_ADDR).
  pose proof (getLazyConn_extends id addr (Streaming.table p)) as He1.
  pose proof (getLazyConn_ok id addr (Streaming.table p)) as Ho1.
  destruct (getLazyConn id addr (Streaming.table p)) as [l t1]. cbn [snd] in He1, Ho1.
  pose proof (lazyConn_get_extends (Streaming.dialer p) l t1) as He2.
  pose proof (lazyConn_get_ok (Streaming.dialer p) l t1) as Ho2.
  destruct (lazyConn_get (Streaming.dialer p) l t1) as [[e|c] t2] eqn:Eg; cbn [snd] in He2, Ho2.
  { cbn. split_and!; [by eapply extends_trans|by auto|done]. }
  apply lazyConn_get_inr in Eg as [Hc Hlen].
  case_decide.
  { destruct (Streaming.handlePOST resp req c) as [resp' c']. cbn. split_and!; [| |done].
    - eapply extends_trans; [done|]. eapply extends_trans; [done|apply store_conn_extends].
    - intros Hok. apply store_conn_ok. auto. }
  case_decide.
  { pose proof (Streaming_handleGET_table p resp req l c now t2 Hc) as (He3 & Ho3 & _).
    destruct (Streaming.handleGET p resp req l c now t2) as [resp' t3]. cbn in *.
    split_and!; [|by auto|done].
    eapply extends_trans; [done|]. by eapply extends_trans. }
  cbn. split_and!; [by eapply extends_trans|by auto|done].
Qed.

Lemma Streaming_reachable_ok (p : Streaming.Proxy) :
  Streaming.reachable p -> table_ok (Streaming.table p).
Proof.
  induction 1 as [tcpDial p0|p resp req now Hr IH]; [apply emptyTable_ok|].
  by apply Streaming_ServeHTTP_table.
Qed.

(** ** The response loop of the bounded-read ServeHTTP *)

(** One iteration of the response loop in terms of [conn_Read]: the loop
    sets the deadline, reads the socket once and runs the loop body. *)
Lemma Bounded_readLoop_unfold (p : Bounded.Proxy) (l : ptr) (now : nat -> Z) (i : nat)
    (c : netConn) (resp : responseWriter) (first : bool) (t : connTable) :
  Bounded.readLoop p l now i (inbound c) c resp first t =
    let c1 := conn_SetReadDeadline (now i + Bounded.IdleInterval p) c in
    let '(res, c2) := conn_Read c1 in
    Bounded.loopBody p l res c2 resp first t
      (fun resp t => Bounded.readLoop p l now (S i) (inbound c2) c2 resp false t).
Proof.
  unfold conn_Read. cbn [inbound conn_SetReadDeadline].
  destruct (inbound c) as [|[d [e|]] rest]; cbn [Bounded.readLoop Read isEOF].
  - reflexivity.
  - destruct e; reflexivity.
  - reflexivity.
Qed.

Lemma firstHeaders_wire (p : Bounded.Proxy) (e : option error) (resp : responseWriter) :
  (forall w, wire resp = Some w -> wire (Bounded.firstHeaders p e resp) = Some w) /\
  (wire resp = None -> status (Bounded.firstHeaders p e resp) = Some 200).
Proof.
  unfold Bounded.firstHeaders. split.
  - intros w Hw. erewrite wire_WriteHeader_Some; by destruct (isEOF e); case_decide.
  - intros Hw. apply status_WriteHeader. by destruct (isEOF e); case_decide.
Qed.

Lemma status_wire (r : responseWriter) (code : Z) :
  status r = Some code -> exists h, wire r = Some (code, h).
Proof. unfold status. destruct (wire r) as [[s h]|]; [|done]. cbn. intros [= ->]. eauto. Qed.

Lemma loop_post_trans (c c1 c2 : netConn) (resp resp1 : responseWriter) (first : bool)
    (t t1 : connTable) (out : Bounded.served) :
  loop_post c resp first t (resp1, c1, t1) -> outbound c2 = outbound c1 ->
  loop_post c2 resp1 false t1 out ->
  (first = true -> wire resp = None -> is_Some (wire resp1)) ->
  loop_post c resp first t out.
Proof.
  destruct out as [[resp' c'] t']. unfold loop_post.
  intros (Ho & He & Hk & Hl & Hd & Hw & Hs) Hc (Ho' & He' & Hk' & Hl' & Hd' & Hw' & _) Hf.
  split_and!; try congruence; eauto using extends_trans.
  intros Hfirst Hnone. specialize (Hs Hfirst Hnone).
  apply status_wire in Hs as [h Hh]. unfold status. by rewrite (Hw' _ Hh).
Qed.

Lemma loopBody_post (p : Bounded.Proxy) (l : ptr) (res : readResult) (c0 c : netConn)
    (resp : responseWriter) (first : bool) (t : connTable)
    (continue : responseWriter -> connTable -> Bounded.served) :
  outbound c = outbound c0 ->
  (forall resp2 t2, loop_post c0 resp first t (resp2, c, t2) ->
     (first = true -> wire resp = None -> is_Some (wire resp2)) ->
     loop_post c0 resp first t (continue resp2 t2)) ->
  loop_post c0 resp first t (Bounded.loopBody p l res c resp first t continue).
Proof.
  intros Hout Hcont. unfold Bounded.loopBody. destruct res as [d e].
  set (resp1 := if first then Bounded.firstHeaders p e resp else resp).
  assert (forall w, wire resp = Some w -> wire resp1 = Some w) as Hw1.
  { subst resp1. destruct first; [|done]. apply firstHeaders_wire. }
  assert (first = true -> wire resp = None -> status resp1 = Some 200) as Hs1.
  { subst resp1. intros -> Hn. by apply firstHeaders_wire. }
  assert (forall c', outbound c' = outbound c0 -> loop_post c0 resp first t (resp1, c', t)) as Hret1.
  { intros c' Hc'. unfold loop_post. split_and!; try done. apply extends_refl. }
  assert (forall c' r n, outbound c' = outbound c0 ->
            r = snd (resp_Write n resp1) ->
            forall t2, t2 = t \/ (exists k, t2 = add_bytesRead l k t) ->
            loop_post c0 resp first t (r, c', t2)) as Hret2.
  { intros c' r n Hc' -> t2 Ht2. unfold loop_post.
    assert (extends t t2 /\ (table_ok t -> table_ok t2) /\
            length (heap t2) = length (heap t) /\ dialLog t2 = dialLog t) as (?&?&?&?).
    { destruct Ht2 as [->|[k ->]].
      - split_and!; try done. apply extends_refl.
      - split_and!; try done. apply add_bytesRead_extends. apply add_bytesRead_ok.
        apply alter_heap_length. }
    split_and!; try done.
    - intros w Hw. apply wire_resp_Write. auto.
    - intros Hf Hn. destruct (status_wire _ _ (Hs1 Hf Hn)) as [h Hh].
      unfold status. by rewrite (wire_resp_Write _ _ _ Hh). }
  assert (first = true -> wire resp = None -> is_Some (wire resp1)) as Hsome1.
  { intros Hf Hn. destruct (status_wire _ _ (Hs1 Hf Hn)) as [h Hh]. eauto. }
  destruct d as [|b d].
  - destruct e as [[]|]; try (apply Hret1; done); try (apply Hcont; [apply Hret1|]; done).
    destruct timeout; [apply Hret1; done|apply Hcont; [apply Hret1|]; done].
  - destruct (resp_Write (b :: d) resp1) as [[nw we] resp2] eqn:Ew.
    assert (resp2 = snd (resp_Write (b :: d) resp1)) as Hr2 by (by rewrite Ew).
    assert (first = true -> wire resp = None -> is_Some (wire resp2)) as Hsome2.
    { intros Hf Hn. destruct (Hsome1 Hf Hn) as [w Hw]. rewrite Hr2.
      rewrite (wire_resp_Write _ _ _ Hw). eauto. }
    destruct we as [we|].
    + eapply Hret2; [done|done|by left].
    + destruct e as [[]|].
      all: try (eapply Hret2; [done|done|right; eauto]).
      all: try (apply Hcont; [eapply Hret2; [done|done|right; eauto]|done]).
      destruct timeout.
      * eapply Hret2; [done|done|right; eauto].
      * apply Hcont; [eapply Hret2; [done|done|right; eauto]|done].
Qed.

Lemma Bounded_readLoop_post (p : Bounded.Proxy) (l : ptr) (now : nat -> Z) (src : reader) :
  forall (i : nat) (c : netConn) (resp : responseWriter) (first : bool) (t : connTable),
  loop_post c resp first t (Bounded.readLoop p l now i src c resp first t).
Proof.
  induction src as [|[d e] rest IH]; intros i c resp first t; cbn [Bounded.readLoop].
  - apply loopBody_post; [done|]. intros resp2 t2 H _. exact H.
  - apply loopBody_post; [done|]. intros resp2 t2 H Hs.
    eapply loop_post_trans; [exact H| |apply IH|exact Hs]. done.
Qed.

(** ** POST: the body reaches the socket *)

Lemma lc_conn_Some (t : connTable) (l : ptr) (c : netConn) :
  lc_conn t l = Some c -> exists lc, heap t !! l = Some lc /\ connOut lc = Some c.
Proof.
  unfold lc_conn. destruct (heap t !! l) as [lc|]; [|done]. cbn. eauto.
Qed.

Lemma getLazyConn_existing (id addr : string) (t : connTable) (l : ptr) :
  connMap t !! id = Some l -> getLazyConn id addr t = (l, t).
Proof. intros H. unfold getLazyConn. by rewrite H. Qed.

(** A POST for an id whose socket is there: the body is copied to the
    socket, the status depends on the error of the copy alone. *)
Lemma Streaming_ServeHTTP_POST (p : Streaming.Proxy) (resp : responseWriter) (req : request)
    (now : Z) (l : ptr) (c : netConn) :
  Method req = "POST" ->
  Header_Get (reqHeader req) X_HTTPCONN_ID <> "" ->
  Header_Get (reqHeader req) X_HTTPCONN_DEST_ADDR <> "" ->
  connMap (Streaming.table p) !! Header_Get (reqHeader req) X_HTTPCONN_ID = Some l ->
  lc_conn (Streaming.table p) l = Some c ->
  Streaming.ServeHTTP p resp req now =
    (Streaming.with_table p
       (store_conn l (snd (Streaming.handlePOST resp req c)) (Streaming.table p)),
     fst (Streaming.handlePOST resp req c)).
Proof.
  intros Hm Hid Haddr Hl Hc. unfold Streaming.ServeHTTP.
  rewrite !decide_False by done.
  rewrite (getLazyConn_existing _ _ _ _ Hl).
  destruct (lc_conn_Some _ _ _ Hc) as (lc & Hlc & Hco).
  rewrite (lazyConn_get_cached _ _ _ _ _ Hlc Hco).
  rewrite decide_True by done. by destruct (Streaming.handlePOST resp req c).
Qed.

Lemma Bounded_ServeHTTP_existing (p : Bounded.Proxy) (resp : responseWriter) (req : request)
    (now : nat -> Z) (l : ptr) (c : netConn) :
  Header_Get (reqHeader req) X_HTTPCONN_ID <> "" ->
  Header_Get (reqHeader req) X_HTTPCONN_DEST_ADDR <> "" ->
  connMap (Bounded.table p) !! Header_Get (reqHeader req) X_HTTPCONN_ID = Some l ->
  lc_conn (Bounded.table p) l = Some c ->
  Bounded.ServeHTTP p resp req now =
    let r := ioCopy conn_Write (reqBody req) c in
    match copyErr r with
    | Some _ =>
        (Bounded.with_table p (store_conn l (conn_Close (dstAfter r)) (Bounded.table p)),
         Bounded.badGateway resp "Unable to write to connOut")
    | None =>
        let '(resp', c', t') :=
          Bounded.readLoop p l now 0 (inbound (dstAfter r)) (dstAfter r) resp true
                           (Bounded.table p) in
        (Bounded.with_table p (store_conn l c' t'), resp')
    end.
Proof.
  intros Hid Haddr Hl Hc. unfold Bounded.ServeHTTP.
  rewrite !decide_False by done.
  rewrite (getLazyConn_existing _ _ _ _ Hl).
  destruct (lc_conn_Some _ _ _ Hc) as (lc & Hlc & Hco).
  by rewrite (lazyConn_get_cached _ _ _ _ _ Hlc Hco).
Qed.

(** C1: a POST for an existing connection id, whose socket is there.  The
    socket has then received what it had received before followed by a
    prefix of the request body (nothing reordered, repeated or skipped);
    when the body ends cleanly and the socket takes every write it has
    received the whole body and the status is 200.  Both revisions. *)
Theorem C1_post_body_reaches_socket (req : request) (resp : responseWriter) (l : ptr)
    (c : netConn) :
  Method req = "POST" ->
  Header_Get (reqHeader req) X_HTTPCONN_ID <> "" ->
  Header_Get (reqHeader req) X_HTTPCONN_DEST_ADDR <> "" ->
  wire resp = None ->
  (forall (p : Streaming.Proxy) (now : Z),
     connMap (Streaming.table p) !! Header_Get (reqHeader req) X_HTTPCONN_ID = Some l ->
     lc_conn (Streaming.table p) l = Some c ->
     let out := Streaming.ServeHTTP p resp req now in
     exists c',
       lc_conn (Streaming.table (fst out)) l = Some c' /\
       (exists m, outbound c' = (outbound c ++ take m (reader_bytes (reqBody req)))%list) /\
       (intact (reqBody req) = true -> accepts (wfaults c) ->
        outbound c' = (outbound c ++ reader_bytes (reqBody req))%list /\
        status (snd out) = Some 200)) /\
  (forall (p : Bounded.Proxy) (now : nat -> Z),
     connMap (Bounded.table p) !! Header_Get (reqHeader req) X_HTTPCONN_ID = Some l ->
     lc_conn (Bounded.table p) l = Some c ->
     let out := Bounded.ServeHTTP p resp req now in
     exists c',
       lc_conn (Bounded.table (fst out)) l = Some c' /\
       (exists m, outbound c' = (outbound c ++ take m (reader_bytes (reqBody req)))%list) /\
       (intact (reqBody req) = true -> accepts (wfaults c) ->
        outbound c' = (outbound c ++ reader_bytes (reqBody req))%list /\
        status (snd out) = Some 200)).
Proof.
  intros Hm Hid Haddr Hw. split.
  - intros p now Hl Hc out. subst out.
    rewrite (Streaming_ServeHTTP_POST p resp req now l c) by done. cbn [fst snd].
    destruct (lc_conn_Some _ _ _ Hc) as (lc & Hlc & _).
    exists (snd (Streaming.handlePOST resp req c)). split_and!.
    + apply lc_conn_store_conn. by eapply lookup_lt_Some.
    + unfold Streaming.handlePOST, ioCopy.
      destruct (ioCopyFrom_conn_prefix (reqBody req) c 0 0) as [m Hp]. exists m.
      destruct (copyErr _) as [e|]; [case_decide|]; exact Hp.
    + intros Hin Hacc. unfold Streaming.handlePOST, ioCopy.
      destruct (ioCopyFrom_conn_exact (reqBody req) c 0 0 Hin Hacc) as (He & Ho & _).
      rewrite He. cbn [fst snd]. split; [exact Ho|by apply status_WriteHeader].
  - intros p now Hl Hc out. subst out.
    rewrite (Bounded_ServeHTTP_existing p resp req now l c) by done.
    destruct (lc_conn_Some _ _ _ Hc) as (lc & Hlc & _).
    pose proof (lookup_lt_Some _ _ _ Hlc) as Hlt.
    unfold ioCopy. cbv zeta.
    destruct (ioCopyFrom_conn_prefix (reqBody req) c 0 0) as [m Hp].
    destruct (copyErr (ioCopyFrom conn_Write (reqBody req) c 0 0)) as [e|] eqn:Ee.
    + cbn [fst snd]. eexists. split_and!.
      * by apply lc_conn_store_conn.
      * exists m. exact Hp.
      * intros Hin Hacc.
        destruct (ioCopyFrom_conn_exact (reqBody req) c 0 0 Hin Hacc) as (He & _). congruence.
    + pose proof (Bounded_readLoop_post p l now
        (inbound (dstAfter (ioCopyFrom conn_Write (reqBody req) c 0 0))) 0
        (dstAfter (ioCopyFrom conn_Write (reqBody req) c 0 0)) resp true (Bounded.table p)) as Hpost.
      destruct (Bounded.readLoop _ _ _ _ _ _ _ _ _) as [[resp' c'] t'].
      destruct Hpost as (Ho & _ & _ & Hlen & _ & _ & Hs).
      cbn [fst snd]. exists c'. split_and!.
      * apply lc_conn_store_conn. cbn. lia.
      * exists m. by rewrite Ho.
      * intros Hin Hacc.
        destruct (ioCopyFrom_conn_exact (reqBody req) c 0 0 Hin Hacc) as (_ & Hex & _).
        split; [by rewrite Ho|auto].
Qed.

Lemma C1_witness :
  let pS := fst (Streaming.ServeHTTP (Sample.streaming []) freshResponse (Sample.POST []) 0) in
  let pB := fst (Bounded.ServeHTTP (Sample.bounded []) freshResponse (Sample.POST []) Sample.noon) in
  let outS := Streaming.ServeHTTP pS freshResponse (Sample.POST Sample.hi) 1 in
  let outB := Bounded.ServeHTTP pB freshResponse (Sample.POST Sample.hi) Sample.noon in
  (exists c', lc_conn (Streaming.table (fst outS)) 0 = Some c' /\
              outbound c' = Sample.hi /\ status (snd outS) = Some 200) /\
  (exists c', lc_conn (Bounded.table (fst outB)) 0 = Some c' /\
              outbound c' = Sample.hi /\ status (snd outB) = Some 200).
Proof.
  intros pS pB outS outB. split.
  - destruct (C1_post_body_reaches_socket (Sample.POST Sample.hi) freshResponse 0%nat
                (Sample.socket []))
      as [HS _]; [reflexivity | vm_compute; discriminate | vm_compute; discriminate
                 | reflexivity |].
    destruct (HS pS 1) as (c' & Hc' & _ & Hex);
      [vm_compute; reflexivity | vm_compute; reflexivity |].
    exists c'. split; [exact Hc'|]. apply Hex; [reflexivity | constructor].
  - destruct (C1_post_body_reaches_socket (Sample.POST Sample.hi) freshResponse 0%nat
                (mkNetConn [] [] [] [35 * Millisecond] 1 false (Some EOF)))
      as [_ HB]; [reflexivity | vm_compute; discriminate | vm_compute; discriminate
                 | reflexivity |].
    destruct (HB pB Sample.noon) as (c' & Hc' & _ & Hex);
      [vm_compute; reflexivity | vm_compute; reflexivity |].
    exists c'. split; [exact Hc'|]. apply Hex; [reflexivity | constructor].
Defined.

(** ** GET once the EOF flag is set *)

Lemma Streaming_with_table_id (p : Streaming.Proxy) : Streaming.with_table p (Streaming.table p) = p.
Proof. by destruct p. Qed.

Lemma Streaming_ServeHTTP_GET (p : Streaming.Proxy) (resp : responseWriter) (req : request)
    (now : Z) (l : ptr) (c : netConn) :
  Method req = "GET" ->
  Header_Get (reqHeader req) X_HTTPCONN_ID <> "" ->
  Header_Get (reqHeader req) X_HTTPCONN_DEST_ADDR <> "" ->
  connMap (Streaming.table p) !! Header_Get (reqHeader req) X_HTTPCONN_ID = Some l ->
  lc_conn (Streaming.table p) l = Some c ->
  Streaming.ServeHTTP p resp req now =
    (Streaming.with_table p (snd (Streaming.handleGET p resp req l c now (Streaming.table p))),
     fst (Streaming.handleGET p resp req l c now (Streaming.table p))).
Proof.
  intros Hm Hid Haddr Hl Hc. unfold Streaming.ServeHTTP.
  rewrite !decide_False by done.
  rewrite (getLazyConn_existing _ _ _ _ Hl).
  destruct (lc_conn_Some _ _ _ Hc) as (lc & Hlc & Hco).
  rewrite (lazyConn_get_cached _ _ _ _ _ Hlc Hco).
  rewrite Hm. rewrite decide_False by done. rewrite decide_True by done.
  by destruct (Streaming.handleGET p resp req l c now (Streaming.table p)).
Qed.

Lemma sentHeader_WriteHeader_Set (code : Z) (k v : string) (r : responseWriter) :
  wire r = None -> sentHeader (WriteHeader code (Header_Set k v r)) k = v.
Proof.
  intros H. unfold sentHeader, WriteHeader. cbn. rewrite H. cbn. by rewrite lookup_insert_eq.
Qed.

(** In a table that is in order, a set EOF flag comes with a socket. *)
Lemma hitEOF_has_conn (t : connTable) (l : ptr) :
  table_ok t -> lc_hitEOF t l = true -> exists c, lc_conn t l = Some c.
Proof.
  intros (_ & _ & Hf). unfold lc_hitEOF, lc_conn.
  destruct (heap t !! l) as [lc|] eqn:E; [|done]. intros Hh.
  destruct (Hf _ _ E Hh) as [c Hc]. exists c. cbn. done.
Qed.

(** A GET for an id whose EOF flag is set, in a table that is in order. *)
Lemma Streaming_GET_flagged (p : Streaming.Proxy) (resp : responseWriter)
    (req : request) (now : Z) (l : ptr) :
  table_ok (Streaming.table p) ->
  Method req = "GET" ->
  Header_Get (reqHeader req) X_HTTPCONN_ID <> "" ->
  Header_Get (reqHeader req) X_HTTPCONN_DEST_ADDR <> "" ->
  connMap (Streaming.table p) !! Header_Get (reqHeader req) X_HTTPCONN_ID = Some l ->
  lc_hitEOF (Streaming.table p) l = true ->
  wire resp = None ->
  let out := Streaming.ServeHTTP p resp req now in
  status (snd out) = Some 200 /\
  sentHeader (snd out) X_HTTPCONN_EOF = "true" /\
  body (snd out) = body resp /\
  fst out = p.
Proof.
  intros Hok Hm Hid Haddr Hl Hf Hw out. subst out.
  destruct (hitEOF_has_conn _ _ Hok Hf) as [c Hc].
  rewrite (Streaming_ServeHTTP_GET p resp req now l c) by done.
  unfold Streaming.handleGET. rewrite Hf. cbn [fst snd].
  split_and!.
  - by apply status_WriteHeader.
  - by apply sentHeader_WriteHeader_Set.
  - by rewrite body_WriteHeader.
  - apply Streaming_with_table_id.
Qed.

(** C4: a GET for a connection id whose lazyConn has the EOF flag set is
    answered at once with status 200, the EOF header "true" and nothing
    written to the body; the Proxy, and with it the socket, is left as it
    was (no read, no dial). *)
Theorem C4_get_after_eof_is_short_circuited (p : Streaming.Proxy) (resp : responseWriter)
    (req : request) (now : Z) (l : ptr) :
  Streaming.reachable p ->
  Method req = "GET" ->
  Header_Get (reqHeader req) X_HTTPCONN_ID <> "" ->
  Header_Get (reqHeader req) X_HTTPCONN_DEST_ADDR <> "" ->
  connMap (Streaming.table p) !! Header_Get (reqHeader req) X_HTTPCONN_ID = Some l ->
  lc_hitEOF (Streaming.table p) l = true ->
  wire resp = None ->
  let out := Streaming.ServeHTTP p resp req now in
  status (snd out) = Some 200 /\
  sentHeader (snd out) X_HTTPCONN_EOF = "true" /\
  body (snd out) = body resp /\
  fst out = p /\
  lc_conn (Streaming.table (fst out)) l = lc_conn (Streaming.table p) l /\
  dialLog (Streaming.table (fst out)) = dialLog (Streaming.table p).
Proof.
  intros Hr Hm Hid Haddr Hl Hf Hw out.
  destruct (Streaming_GET_flagged p resp req now l (Streaming_reachable_ok _ Hr)
              Hm Hid Haddr Hl Hf Hw) as (H1 & H2 & H3 & H4).
  fold out in H1, H2, H3, H4. split_and!; try done; by rewrite H4.
Qed.

Lemma C4_witness :
  let p := fst (Streaming.ServeHTTP (Sample.streaming []) freshResponse Sample.GET 0) in
  let out := Streaming.ServeHTTP p freshResponse Sample.GET 5 in
  status (snd out) = Some 200 /\
  sentHeader (snd out) X_HTTPCONN_EOF = "true" /\
  body (snd out) = [] /\
  fst out = p /\
  lc_conn (Streaming.table (fst out)) 0 = lc_conn (Streaming.table p) 0 /\
  dialLog (Streaming.table (fst out)) = dialLog (Streaming.table p).
Proof.
  apply (C4_get_after_eof_is_short_circuited
           (fst (Streaming.ServeHTTP (Sample.streaming []) freshResponse Sample.GET 0))
           freshResponse Sample.GET 5 0%nat).
  - apply Streaming.reach_ServeHTTP, Streaming.reach_Start.
  - reflexivity.
  - vm_compute. discriminate.
  - vm_compute. discriminate.
  - vm_compute. reflexivity.
  - vm_compute. reflexivity.
  - reflexivity.
Defined.


(** ** Requests that are turned away *)

Lemma Bounded_badGateway_status (resp : responseWriter) (msg : string) :
  wire resp = None -> status (Bounded.badGateway resp msg) = Some BAD_GATEWAY.
Proof.
  intros Hw. unfold Bounded.badGateway.
  assert (wire (WriteHeader BAD_GATEWAY (Header_Set "Connection" "close" resp))
          = Some (BAD_GATEWAY, header (Header_Set "Connection" "close" resp))) as H.
  { unfold WriteHeader. cbn. by rewrite Hw. }
  unfold status. by rewrite (wire_resp_Write _ _ _ H).
Qed.

Lemma Bounded_ServeHTTP_table (p : Bounded.Proxy) (resp : responseWriter) (req : request)
    (now : nat -> Z) :
  let p' := fst (Bounded.ServeHTTP p resp req now) in
  extends (Bounded.table p) (Bounded.table p') /\
  (table_ok (Bounded.table p) -> table_ok (Bounded.table p')).
Proof.
  unfold Bounded.ServeHTTP.
  case_decide; [cbn; split; [apply extends_refl|done]|].
  case_decide; [cbn; split; [apply extends_refl|done]|].
  set (id := Header_Get (reqHeader req) X_HTTPCONN_ID).
  set (addr := Header_Get (reqHeader req) X_HTTPCONN_DEST_ADDR).
  pose proof (getLazyConn_extends id addr (Bounded.table p)) as He1.
  pose proof (getLazyConn_ok id addr (Bounded.table p)) as Ho1.
  destruct (getLazyConn id addr (Bounded.table p)) as [l t1]. cbn [snd] in He1, Ho1.
  pose proof (lazyConn_get_extends (Bounded.dialer p) l t1) as He2.
  pose proof (lazyConn_get_ok (Bounded.dialer p) l t1) as Ho2.
  destruct (lazyConn_get (Bounded.dialer p) l t1) as [[e|c] t2] eqn:Eg; cbn [snd] in He2, Ho2.
  { cbn. split; [by eapply extends_trans|by auto]. }
  cbv zeta. destruct (copyErr _) as [e|].
  { cbn. split.
    - eapply extends_trans; [done|]. eapply extends_trans; [done|apply store_conn_extends].
    - intros Hok. apply store_conn_ok. auto. }
  match goal with |- context [Bounded.readLoop ?p ?l ?now ?i ?src ?c ?r ?f ?t] =>
    pose proof (Bounded_readLoop_post p l now src i c r f t) as Hpost;
    destruct (Bounded.readLoop p l now i src c r f t) as [[resp' c'] t3] end.
  destruct Hpost as (_ & He3 & Ho3 & _). cbn. split.
  - eapply extends_trans; [done|]. eapply extends_trans; [done|].
    eapply extends_trans; [done|apply store_conn_extends].
  - intros Hok. apply store_conn_ok. auto.
Qed.




(** ** getLazyConn *)

Lemma table_ok_one_per_id (t : connTable) : table_ok t -> one_per_id t.
Proof.
  intros (_ & Hh & _) l1 l2 lc1 lc2 H1 H2 Hid.
  apply Hh in H1, H2. rewrite Hid in H1. congruence.
Qed.

Lemma Streaming_serveAll_table (calls : list Streaming.call) (p : Streaming.Proxy) :
  extends (Streaming.table p) (Streaming.table (fst (Streaming.serveAll calls p))) /\
  (table_ok (Streaming.table p) ->
   table_ok (Streaming.table (fst (Streaming.serveAll calls p)))).
Proof.
  revert p. induction calls as [|[[resp req] now] rest IH]; intros p.
  - cbn. split; [apply extends_refl|done].
  - cbn [Streaming.serveAll Streaming.serve].
    pose proof (Streaming_ServeHTTP_table p resp req now) as (He & Ho & _).
    destruct (Streaming.ServeHTTP p resp req now) as [p1 r]. cbn [fst] in He, Ho.
    specialize (IH p1) as [He' Ho'].
    destruct (Streaming.serveAll rest p1) as [p2 rs]. cbn [fst] in *.
    split; [by eapply extends_trans|auto].
Qed.

Lemma Bounded_serveAll_table (calls : list Bounded.call) (p : Bounded.Proxy) :
  extends (Bounded.table p) (Bounded.table (fst (Bounded.serveAll calls p))) /\
  (table_ok (Bounded.table p) ->
   table_ok (Bounded.table (fst (Bounded.serveAll calls p)))).
Proof.
  revert p. induction calls as [|[[resp req] now] rest IH]; intros p.
  - cbn. split; [apply extends_refl|done].
  - cbn [Bounded.serveAll Bounded.serve].
    pose proof (Bounded_ServeHTTP_table p resp req now) as (He & Ho).
    destruct (Bounded.ServeHTTP p resp req now) as [p1 r]. cbn [fst] in He, Ho.
    specialize (IH p1) as [He' Ho'].
    destruct (Bounded.serveAll rest p1) as [p2 rs]. cbn [fst] in *.
    split; [by eapply extends_trans|auto].
Qed.

(** Every state a started proxy reaches has its table in order. *)
Lemma Streaming_started_ok (tcpDial : dialFunc) (p0 : Streaming.Proxy)
    (calls : list Streaming.call) :
  table_ok (Streaming.table (fst (Streaming.serveAll calls (Streaming.Start tcpDial p0)))).
Proof. apply Streaming_serveAll_table, emptyTable_ok. Qed.

Lemma Bounded_started_ok (tcpDial : dialFunc) (defaultIdleInterval : Z) (p0 : Bounded.Proxy)
    (calls : list Bounded.call) :
  table_ok (Bounded.table
              (fst (Bounded.serveAll calls (Bounded.Start tcpDial defaultIdleInterval p0)))).
Proof. apply Bounded_serveAll_table, emptyTable_ok. Qed.

(** In any later state of the table, the id still leads to the object it
    led to, and that object still has its id and its address. *)
Lemma getLazyConn_later (id addr addr' : string) (t t1 t2 : connTable) (l : ptr) :
  table_ok t -> getLazyConn id addr t = (l, t1) -> extends t1 t2 ->
  getLazyConn id addr' t2 = (l, t2) /\
  exists lc1 lc2, heap t1 !! l = Some lc1 /\ heap t2 !! l = Some lc2 /\
                  lcId lc2 = id /\ lcAddr lc2 = lcAddr lc1.
Proof.
  intros Hok Hg [Hm Hh].
  destruct (getLazyConn_lookup id addr t Hok) as (Hin & lc1 & Hlc1 & Hid1).
  rewrite Hg in Hin, Hlc1. cbn [fst snd] in Hin, Hlc1.
  split; [by apply getLazyConn_existing, Hm|].
  destruct (Hh _ _ Hlc1) as (lc2 & Hlc2 & Hid2 & Haddr2 & _).
  exists lc1, lc2. split_and!; congruence.
Qed.

(** C9: getLazyConn is idempotent per id.  A new lazyConn is made only
    when the id has no entry; a call for an id that has one returns that
    object and changes nothing, whatever address it is given; so does every
    call after any number of requests were served by either revision, and
    the object still carries its id and the address it was made with; no
    two objects carry the same id. *)
Theorem C9_getLazyConn_idempotent (id addr addr' : string) (t t1 : connTable) (l : ptr) :
  table_ok t ->
  getLazyConn id addr t = (l, t1) ->
  (* a new object is created only when the id has no entry *)
  (forall l0, connMap t !! id = Some l0 -> l = l0 /\ t1 = t) /\
  (connMap t !! id = None ->
     l = length (heap t) /\ heap t1 = (heap t ++ [newLazyConn id addr])%list) /\
  (* at most one object per id *)
  one_per_id t1 /\
  (* the next call, whatever its address, returns the same object *)
  getLazyConn id addr' t1 = (l, t1) /\
  (* and so does every call after any number of requests were served *)
  (forall (p : Streaming.Proxy) (calls : list Streaming.call),
     Streaming.table p = t1 ->
     let t2 := Streaming.table (fst (Streaming.serveAll calls p)) in
     getLazyConn id addr' t2 = (l, t2) /\ one_per_id t2 /\
     exists lc1 lc2, heap t1 !! l = Some lc1 /\ heap t2 !! l = Some lc2 /\
                     lcId lc2 = id /\ lcAddr lc2 = lcAddr lc1) /\
  (forall (p : Bounded.Proxy) (calls : list Bounded.call),
     Bounded.table p = t1 ->
     let t2 := Bounded.table (fst (Bounded.serveAll calls p)) in
     getLazyConn id addr' t2 = (l, t2) /\ one_per_id t2 /\
     exists lc1 lc2, heap t1 !! l = Some lc1 /\ heap t2 !! l = Some lc2 /\
                     lcId lc2 = id /\ lcAddr lc2 = lcAddr lc1).
Proof.
  intros Hok Hg.
  assert (table_ok t1) as Hok1.
  { pose proof (getLazyConn_ok id addr t Hok) as H. by rewrite Hg in H. }
  split_and!.
  - intros l0 Hl0. rewrite (getLazyConn_existing _ _ _ _ Hl0) in Hg. by injection Hg as <- <-.
  - intros Hnone. unfold getLazyConn in Hg. rewrite Hnone in Hg. by injection Hg as <- <-.
  - by apply table_ok_one_per_id.
  - by destruct (getLazyConn_later id addr addr' t t1 t1 l Hok Hg (extends_refl t1)).
  - intros p calls Hp t2. subst t2.
    destruct (Streaming_serveAll_table calls p) as [He Ho]. rewrite Hp in He, Ho.
    destruct (getLazyConn_later id addr addr' t t1 _ l Hok Hg He) as [H1 H2].
    split_and!; [done | by apply table_ok_one_per_id, Ho | done].
  - intros p calls Hp t2. subst t2.
    destruct (Bounded_serveAll_table calls p) as [He Ho]. rewrite Hp in He, Ho.
    destruct (getLazyConn_later id addr addr' t t1 _ l Hok Hg He) as [H1 H2].
    split_and!; [done | by apply table_ok_one_per_id, Ho | done].
Qed.

Lemma C9_witness :
  let t1 := snd (getLazyConn "abc" "example.com:80" emptyTable) in
  getLazyConn "abc" "elsewhere:25" t1 = (0%nat, t1) /\
  lcAddr <$> heap t1 !! 0%nat = Some "example.com:80" /\
  one_per_id t1.
Proof.
  intros t1.
  destruct (C9_getLazyConn_idempotent "abc" "example.com:80" "elsewhere:25"
              emptyTable t1 0%nat emptyTable_ok eq_refl) as (_ & Hnew & Hone & Hsame & _).
  split; [exact Hsame|]. split; [reflexivity | exact Hone].
Defined.

(** ** io.Copy from a socket into the response *)

Lemma resp_Write_accepts (p : list byte) (r : responseWriter) (w : Z * gmap string string) :
  wire r = Some w -> accepts (rfaults r) ->
  resp_Write p r = ((length p, None),
                    mkResp (header r) (wire r) (body r ++ p) (flushed r) (tail (rfaults r))).
Proof.
  intros Hw Hacc. unfold resp_Write. rewrite (wire_WriteHeader_Some _ _ _ Hw).
  destruct (rfaults r) as [|[e|] rest]; try done.
  inversion Hacc; discriminate.
Qed.

Lemma mlw_Write_accepts (p : list byte) (m : maxLatencyWriter) (w : Z * gmap string string) :
  wire (dst m) = Some w -> accepts (rfaults (dst m)) ->
  Write p m = ((length p, None),
               mkMLW (mkResp (header (dst m)) (wire (dst m)) (body (dst m) ++ p)
                             (flushed (dst m)) (tail (rfaults (dst m))))
                     (latency m) (ticking m)).
Proof. intros Hw Hacc. unfold Write. by rewrite (resp_Write_accepts _ _ _ Hw Hacc). Qed.


(** [datas] arrive, then a read times out with nothing: the copy delivers
    the data and returns the timeout. *)
Lemma timing_out_cons (d : list byte) (datas : list (list byte)) (rest : reader) :
  timing_out (d :: datas) rest = (d, None) :: timing_out datas rest.
Proof. reflexivity. Qed.

Lemma ioCopyFrom_mlw_timeout (datas : list (list byte)) (rest : reader)
    (m : maxLatencyWriter) (n : Z) (k : nat) (w : Z * gmap string string) :
  wire (dst m) = Some w -> accepts (rfaults (dst m)) ->
  let r := ioCopyFrom Write (timing_out datas rest) m n k in
  copyErr r = Some (NetError true) /\ srcAfter r = rest /\
  srcReads r = (k + S (length datas))%nat /\
  body (dst (dstAfter r)) = (body (dst m) ++ concat datas)%list /\
  wire (dst (dstAfter r)) = Some w.
Proof.
  revert m n k. induction datas as [|d datas IH]; intros m n k Hw Hacc.
  - cbn. rewrite app_nil_r. split_and!; try done. lia.
  - rewrite timing_out_cons. cbn [ioCopyFrom]. destruct d as [|b d].
    + destruct (IH m (n + Z.of_nat 0) (S k) Hw Hacc) as (He & Hs & Hr & Hb & Hw').
      cbn [isEOF length Nat.eqb negb]. cbv zeta.
      rewrite He, Hs, Hr, Hb, Hw'. cbn. split_and!; try done; lia.
    + rewrite (mlw_Write_accepts _ _ _ Hw Hacc). cbn [negb]. rewrite Nat.eqb_refl.
      cbn [negb isEOF].
      match goal with |- context [ioCopyFrom _ _ ?m' ?n' ?k'] =>
        destruct (IH m' n' k') as (He & Hs & Hr & Hb & Hw') end;
        [done | by apply accepts_tail |].
      cbv zeta. rewrite He, Hs, Hr, Hb, Hw'. cbn.
      split_and!; try done; try lia. by rewrite <- app_assoc.
Qed.

(** ** GET: end-of-stream and timeouts in the streaming revision *)


Lemma lc_hitEOF_set (l : ptr) (t : connTable) :
  (l < length (heap t))%nat -> lc_hitEOF (set_hitEOF l t) l = true.
Proof.
  intros Hl. unfold lc_hitEOF, set_hitEOF. rewrite alter_heap_lookup, decide_True by done.
  by destruct (lookup_lt_is_Some_2 _ _ Hl) as [lc ->].
Qed.

Lemma lc_hitEOF_store_conn (l j : ptr) (c : netConn) (t : connTable) :
  lc_hitEOF (store_conn l c t) j = lc_hitEOF t j.
Proof.
  unfold lc_hitEOF, store_conn. rewrite alter_heap_lookup. case_decide; [|done].
  by destruct (heap t !! j).
Qed.

Lemma lc_conn_set_hitEOF (l j : ptr) (t : connTable) :
  lc_conn (set_hitEOF l t) j = lc_conn t j.
Proof.
  unfold lc_conn, set_hitEOF. rewrite alter_heap_lookup. case_decide; [|done].
  by destruct (heap t !! j).
Qed.


(** handleGET when a read exceeds the deadline with nothing read. *)
Lemma Streaming_handleGET_timeout (p : Streaming.Proxy) (resp : responseWriter) (req : request)
    (l : ptr) (c : netConn) (now : Z) (t : connTable) (datas : list (list byte))
    (rest : reader) :
  lc_hitEOF t l = false -> (l < length (heap t))%nat ->
  inbound c = timing_out datas rest -> wire resp = None -> accepts (rfaults resp) ->
  let out := Streaming.handleGET p resp req l c now t in
  lc_hitEOF (snd out) l = false /\
  wire (fst out) = Some (200, <["X-Accel-Buffering" := "no"]> (header resp)) /\
  body (fst out) = (body resp ++ concat datas)%list /\
  lc_conn (snd out) l =
    Some (mkNetConn rest (outbound c) (wfaults c)
                    (readDeadlines c ++ [now + 30 * Second])
                    (reads c + S (length datas)) (closed c) (emptyRead c)).
Proof.
  intros Hf Hl Hin Hw Hacc out. subst out. unfold Streaming.handleGET. rewrite Hf.
  set (resp1 := WriteHeader 200 (Header_Set "X-Accel-Buffering" "no" resp)).
  assert (wire resp1 = Some (200, <["X-Accel-Buffering" := "no"]> (header resp))) as Hw1.
  { subst resp1. unfold WriteHeader. cbn. by rewrite Hw. }
  assert (body resp1 = body resp /\ rfaults resp1 = rfaults resp) as [Hb1 Hr1].
  { subst resp1. unfold WriteHeader. cbn. by rewrite Hw. }
  unfold ioCopy. cbn [inbound conn_SetReadDeadline]. rewrite Hin.
  destruct (ioCopyFrom_mlw_timeout datas rest (start resp1 (Streaming.FlushInterval p)) 0 0 _
              Hw1 ltac:(cbn; by rewrite Hr1)) as (He & Hs & Hr & Hb & Hw').
  rewrite He. cbn [isEOF fst snd]. split_and!.
  - by rewrite lc_hitEOF_store_conn.
  - exact Hw'.
  - cbn [stop dst]. rewrite Hb. cbn. by rewrite Hb1.
  - rewrite lc_conn_store_conn by done. unfold conn_copy_result. cbn. by rewrite Hs, Hr.
Qed.

Lemma sentHeader_wire (r : responseWriter) (code : Z) (h : gmap string string) (k : string) :
  wire r = Some (code, h) -> sentHeader r k = default "" (h !! k).
Proof. intros H. unfold sentHeader. by rewrite H. Qed.

Lemma status_of_wire (r : responseWriter) (code : Z) (h : gmap string string) :
  wire r = Some (code, h) -> status r = Some code.
Proof. intros H. unfold status. by rewrite H. Qed.


(** ** Timeouts in the bounded-read revision *)

Lemma firstHeaders_body (p : Bounded.Proxy) (e : option error) (resp : responseWriter) :
  body (Bounded.firstHeaders p e resp) = body resp /\
  rfaults (Bounded.firstHeaders p e resp) = rfaults resp.
Proof.
  unfold Bounded.firstHeaders, WriteHeader.
  destruct (isEOF e); case_decide; cbn; destruct (wire resp); done.
Qed.

(** The deadlines of [k] successive iterations starting with iteration [i]. *)
Lemma readLoop_timeout (p : Bounded.Proxy) (l : ptr) (now : nat -> Z)
    (datas : list (list byte)) (rest : reader) :
  forall (i : nat) (c : netConn) (resp : responseWriter) (first : bool) (t : connTable),
    accepts (rfaults resp) ->
    is_Some (wire (if first then Bounded.firstHeaders p None resp else resp)) ->
    exists resp' t',
      Bounded.readLoop p l now i (timing_out datas rest) c resp first t =
        (resp',
         mkNetConn rest (outbound c) (wfaults c)
           (readDeadlines c ++
              ((fun j => now j + Bounded.IdleInterval p) <$> seq i (S (length datas))))
           (S (length datas) + reads c) (closed c) (emptyRead c),
         t') /\
      wire resp' = wire (if first then Bounded.firstHeaders p None resp else resp) /\
      body resp' = (body resp ++ concat datas)%list.
Proof.
  induction datas as [|d datas IH]; intros i c resp first t Hacc Hsome.
  - cbn [timing_out fmap list_fmap app Bounded.readLoop isEOF]. unfold Bounded.loopBody.
    eexists _, _. split; [reflexivity|]. cbn [length concat].
    rewrite app_nil_r. destruct first; (split; [reflexivity|]); [|done].
    apply firstHeaders_body.
  - rewrite timing_out_cons. cbn [Bounded.readLoop isEOF]. unfold Bounded.loopBody.
    set (resp1 := if first then Bounded.firstHeaders p None resp else resp) in *.
    assert (body resp1 = body resp /\ rfaults resp1 = rfaults resp) as [Hb1 Hr1].
    { subst resp1. destruct first; [apply firstHeaders_body|done]. }
    destruct Hsome as [w Hw1].
    set (c1 := mkNetConn _ _ _ _ _ _ _).
    destruct d as [|b d].
    + destruct (IH (S i) c1 resp1 false t) as (resp' & t' & Heq & Hw' & Hb');
        [by rewrite Hr1 | by rewrite Hw1 |].
      rewrite Heq. eexists _, _. split.
      * f_equal. f_equal. subst c1. cbn. f_equal; [|lia].
        rewrite <- app_assoc. done.
      * split; [by rewrite Hw'|]. rewrite Hb', Hb1. done.
    + rewrite (resp_Write_accepts _ _ _ Hw1) by (by rewrite Hr1).
      match goal with |- context [Bounded.readLoop p l now (S i) _ c1 ?r false ?t1] =>
        destruct (IH (S i) c1 r false t1) as (resp' & t' & Heq & Hw' & Hb') end;
        [cbn; rewrite Hr1; by apply accepts_tail | cbn; by rewrite Hw1 |].
      rewrite Heq. eexists _, _. split.
      * f_equal. f_equal. subst c1. cbn. f_equal; [|lia].
        rewrite <- app_assoc. done.
      * split; [by rewrite Hw'|]. rewrite Hb'. cbn. rewrite Hb1, <- app_assoc. done.
Qed.

Lemma Streaming_timeout_ends_normally (p : Streaming.Proxy) (resp : responseWriter)
    (req : request) (now : Z) (l : ptr) (c : netConn) (datas : list (list byte))
    (rest : reader) :
  Method req = "GET" ->
  Header_Get (reqHeader req) X_HTTPCONN_ID <> "" ->
  Header_Get (reqHeader req) X_HTTPCONN_DEST_ADDR <> "" ->
  connMap (Streaming.table p) !! Header_Get (reqHeader req) X_HTTPCONN_ID = Some l ->
  lc_conn (Streaming.table p) l = Some c ->
  lc_hitEOF (Streaming.table p) l = false ->
  inbound c = timing_out datas rest ->
  wire resp = None -> header resp !! X_HTTPCONN_EOF = None -> accepts (rfaults resp) ->
  let out := Streaming.ServeHTTP p resp req now in
  status (snd out) = Some 200 /\
  sentHeader (snd out) X_HTTPCONN_EOF = "" /\
  body (snd out) = (body resp ++ concat datas)%list /\
  lc_hitEOF (Streaming.table (fst out)) l = false /\
  exists c', lc_conn (Streaming.table (fst out)) l = Some c' /\
             closed c' = closed c /\
             reads c' = (reads c + S (length datas))%nat /\
             readDeadlines c' = (readDeadlines c ++ [now + 30 * Second])%list.
Proof.
  intros Hm Hid Haddr Hl Hc Hf Hin Hw Hh Hacc out. subst out.
  rewrite (Streaming_ServeHTTP_GET p resp req now l c) by done.
  destruct (lc_conn_Some _ _ _ Hc) as (lc & Hlc & _).
  pose proof (lookup_lt_Some _ _ _ Hlc) as Hlt.
  destruct (Streaming_handleGET_timeout p resp req l c now (Streaming.table p) datas rest
              Hf Hlt Hin Hw Hacc) as (Hflag & Hwire & Hbody & Hconn).
  cbn [fst snd Streaming.with_table Streaming.table]. split_and!.
  - by eapply status_of_wire.
  - erewrite sentHeader_wire by done. rewrite lookup_insert_ne by done. by rewrite Hh.
  - done.
  - done.
  - eexists. split; [exact Hconn|]. done.
Qed.

Lemma Bounded_timeout_ends_normally (p : Bounded.Proxy) (resp : responseWriter)
    (req : request) (now : nat -> Z) (l : ptr) (c : netConn) (datas : list (list byte))
    (rest : reader) :
  Header_Get (reqHeader req) X_HTTPCONN_ID <> "" ->
  Header_Get (reqHeader req) X_HTTPCONN_DEST_ADDR <> "" ->
  connMap (Bounded.table p) !! Header_Get (reqHeader req) X_HTTPCONN_ID = Some l ->
  lc_conn (Bounded.table p) l = Some c ->
  reqBody req = [] ->
  inbound c = timing_out datas rest ->
  wire resp = None -> header resp !! X_HTTPCONN_EOF = None -> accepts (rfaults resp) ->
  let out := Bounded.ServeHTTP p resp req now in
  status (snd out) = Some 200 /\
  sentHeader (snd out) X_HTTPCONN_EOF = "" /\
  body (snd out) = (body resp ++ concat datas)%list /\
  exists c', lc_conn (Bounded.table (fst out)) l = Some c' /\
             closed c' = closed c /\
             reads c' = (S (length datas) + reads c)%nat /\
             readDeadlines c' =
               (readDeadlines c ++
                  ((fun j => now j + Bounded.IdleInterval p) <$> seq 0 (S (length datas))))%list.
Proof.
  intros Hid Haddr Hl Hc Hb Hin Hw Hh Hacc out. subst out.
  rewrite (Bounded_ServeHTTP_existing p resp req now l c) by done.
  destruct (lc_conn_Some _ _ _ Hc) as (lc & Hlc & _).
  pose proof (lookup_lt_Some _ _ _ Hlc) as Hlt.
  rewrite Hb. cbn [ioCopy ioCopyFrom copyErr dstAfter]. cbv zeta. rewrite Hin.
  assert (exists h, wire (Bounded.firstHeaders p None resp) = Some (200, h) /\
                    h !! X_HTTPCONN_EOF = None) as (h & Hw1 & Hh1).
  { unfold Bounded.firstHeaders, WriteHeader. cbn [isEOF].
    case_decide; cbn; rewrite Hw; eexists; (split; [reflexivity|]); [done|].
    by rewrite lookup_insert_ne. }
  pose proof (Bounded_readLoop_post p l now (timing_out datas rest) 0 c resp true
                (Bounded.table p)) as Hpost.
  destruct (readLoop_timeout p l now datas rest 0 c resp true (Bounded.table p) Hacc)
    as (resp' & t' & Heq & Hw' & Hb'); [by rewrite Hw1|].
  rewrite Heq in *. destruct Hpost as (_ & _ & _ & Hlen & _).
  cbn [fst snd Bounded.with_table Bounded.table]. split_and!.
  - eapply status_of_wire. by rewrite Hw'.
  - erewrite sentHeader_wire by (by rewrite Hw'). by rewrite Hh1.
  - done.
  - eexists. split; [apply lc_conn_store_conn; lia|]. done.
Qed.

(** C6, as amended.  A GET during which data chunks arrive and then a read
    exceeds its deadline with nothing read, no end-of-stream in between:
    the response has status 200, no EOF header and the chunks as its body;
    the socket stays open.  In the bounded-read revision every one of these
    reads has its own deadline, time.Now() plus the Proxy's IdleInterval.
    In the streaming revision one deadline is set before the copy, thirty
    seconds from time.Now(), and the EOF flag stays unset. *)
Theorem C6_timeout_is_not_an_error :
  (forall (p : Streaming.Proxy) (resp : responseWriter) (req : request) (now : Z) (l : ptr)
          (c : netConn) (datas : list (list byte)) (rest : reader),
     Method req = "GET" ->
     Header_Get (reqHeader req) X_HTTPCONN_ID <> "" ->
     Header_Get (reqHeader req) X_HTTPCONN_DEST_ADDR <> "" ->
     connMap (Streaming.table p) !! Header_Get (reqHeader req) X_HTTPCONN_ID = Some l ->
     lc_conn (Streaming.table p) l = Some c ->
     lc_hitEOF (Streaming.table p) l = false ->
     inbound c = timing_out datas rest ->
     wire resp = None -> header resp !! X_HTTPCONN_EOF = None -> accepts (rfaults resp) ->
     let out := Streaming.ServeHTTP p resp req now in
     status (snd out) = Some 200 /\
     sentHeader (snd out) X_HTTPCONN_EOF = "" /\
     body (snd out) = (body resp ++ concat datas)%list /\
     lc_hitEOF (Streaming.table (fst out)) l = false /\
     exists c', lc_conn (Streaming.table (fst out)) l = Some c' /\
                closed c' = closed c /\
                reads c' = (reads c + S (length datas))%nat /\
                readDeadlines c' = (readDeadlines c ++ [now + 30 * Second])%list) /\
  (forall (p : Bounded.Proxy) (resp : responseWriter) (req : request) (now : nat -> Z)
          (l : ptr) (c : netConn) (datas : list (list byte)) (rest : reader),
     Header_Get (reqHeader req) X_HTTPCONN_ID <> "" ->
     Header_Get (reqHeader req) X_HTTPCONN_DEST_ADDR <> "" ->
     connMap (Bounded.table p) !! Header_Get (reqHeader req) X_HTTPCONN_ID = Some l ->
     lc_conn (Bounded.table p) l = Some c ->
     reqBody req = [] ->
     inbound c = timing_out datas rest ->
     wire resp = None -> header resp !! X_HTTPCONN_EOF = None -> accepts (rfaults resp) ->
     let out := Bounded.ServeHTTP p resp req now in
     status (snd out) = Some 200 /\
     sentHeader (snd out) X_HTTPCONN_EOF = "" /\
     body (snd out) = (body resp ++ concat datas)%list /\
     exists c', lc_conn (Bounded.table (fst out)) l = Some c' /\
                closed c' = closed c /\
                reads c' = (S (length datas) + reads c)%nat /\
                readDeadlines c' =
                  (readDeadlines c ++
                     ((fun j => now j + Bounded.IdleInterval p) <$> seq 0 (S (length datas))))%list).
Proof.
  split.
  - apply Streaming_timeout_ends_normally.
  - apply Bounded_timeout_ends_normally.
Qed.

Lemma C6_witness :
  let script := timing_out [Sample.hi] [] in
  let pS := fst (Streaming.ServeHTTP (Sample.streaming script) freshResponse (Sample.POST []) 0) in
  let pB := Bounded.with_table (Sample.bounded script)
              (mkTable {[ "abc" := 0%nat ]}
                       [mkLazyConn "abc" "example.com:80" (Some (Sample.socket script)) false 0]
                       ["example.com:80"]) in
  let outS := Streaming.ServeHTTP pS freshResponse Sample.GET 7 in
  let outB := Bounded.ServeHTTP pB freshResponse Sample.GET Sample.noon in
  (status (snd outS) = Some 200 /\ sentHeader (snd outS) X_HTTPCONN_EOF = "" /\
   body (snd outS) = Sample.hi) /\
  (status (snd outB) = Some 200 /\ sentHeader (snd outB) X_HTTPCONN_EOF = "" /\
   body (snd outB) = Sample.hi).
Proof.
  intros script pS pB outS outB. destruct C6_timeout_is_not_an_error as [HS HB]. split.
  - destruct (HS pS freshResponse Sample.GET 7 0%nat (Sample.socket script) [Sample.hi] [])
      as (H1 & H2 & H3 & _); try reflexivity; try (vm_compute; discriminate);
      [constructor|]. split_and!; [exact H1 | exact H2 | exact H3].
  - destruct (HB pB freshResponse Sample.GET Sample.noon 0%nat (Sample.socket script)
                 [Sample.hi] [])
      as (H1 & H2 & H3 & _); try reflexivity; try (vm_compute; discriminate);
      [constructor|]. split_and!; [exact H1 | exact H2 | exact H3].
Defined.

(** C6 as stated fails in the streaming revision: the deadline of the copy
    is thirty seconds from now, whatever intervals the server is
    configured with. *)
Lemma C6_counterexample :
  let p := Sample.streaming (timing_out [] []) in
  let out := Streaming.ServeHTTP p freshResponse Sample.GET 0 in
  status (snd out) = Some 200 /\
  (readDeadlines <$> lc_conn (Streaming.table (fst out)) 0) = Some [30 * Second] /\
  Streaming.FlushInterval p = 50 * Millisecond /\
  Streaming.IdleTimeout p = 70 * Second /\
  30 * Second <> Streaming.FlushInterval p /\
  30 * Second <> Streaming.IdleTimeout p.
Proof.
  vm_compute. split_and!; try reflexivity; discriminate.
Qed.

(** ** The flush-paced writer *)

Lemma tick_flushes (m : maxLatencyWriter) : ticking m = true -> unflushed (tick m) = 0%nat.
Proof. intros H. unfold tick, unflushed. rewrite H. cbn. lia. Qed.

Lemma tick_after_stop (m : maxLatencyWriter) : tick (stop m) = stop m.
Proof. reflexivity. Qed.

Lemma ticks_after_stop (m : maxLatencyWriter) (k : nat) : Nat.iter k tick (stop m) = stop m.
Proof.
  induction k as [|k IH]; [reflexivity|]. rewrite Nat.iter_succ, IH. apply tick_after_stop.
Qed.

(** C8, as amended: stopping the writer ends the flush loop and cancels its
    ticker; it flushes nothing, so what was written since the last flush is
    still unflushed, and no later tick will flush it. *)
Theorem C8_stop_cancels_timer_without_flushing (evs : list event) (resp : responseWriter)
    (lat : Z) :
  let m := run evs (start resp lat) in
  ticking (stop m) = false /\
  dst (stop m) = dst m /\
  unflushed (stop m) = unflushed m /\
  forall k : nat, Nat.iter k tick (stop m) = stop m.
Proof.
  intros m. split_and!; try reflexivity. apply ticks_after_stop.
Qed.

(** C8 as stated fails: two bytes are written, the writer is stopped, and
    the two bytes are still unflushed. *)
Lemma C8_counterexample :
  let m := run [EvWrite Sample.hi] (start (WriteHeader 200 freshResponse) (50 * Millisecond)) in
  body (dst (stop m)) = Sample.hi /\
  flushed (dst (stop m)) = 0%nat /\
  unflushed (stop m) = 2%nat /\
  unflushed (stop m) <> 0%nat /\
  unflushed (tick m) = 0%nat.
Proof.
  vm_compute. split_and!; try reflexivity; discriminate.
Qed.

(** ** The client read loop *)

Import Client.

Lemma drainRequests_spec (q : list buffer) (c : Conn) :
  drainRequests q c =
    mkConn (doneReading c) [] (readRequestsClosed c)
           (readResponsesCh c ++ replicate (length q) terminalEOF)
           (stopReadCh c) (closedFlag c) (lastActivityTime c) (IdleTimeout c).
Proof.
  revert c. induction q as [|b q IH]; intros c.
  - cbn. by rewrite app_nil_r.
  - cbn [drainRequests]. rewrite IH. cbn. by rewrite <- app_assoc.
Qed.

Lemma cleanupAfterReads_spec (r : option httpResponse) (c : Conn) :
  fst (cleanupAfterReads r c) =
    mkConn true [] true
           (readResponsesCh c ++ replicate (length (readRequestsCh c)) terminalEOF)
           0 (closedFlag c) (lastActivityTime c) (IdleTimeout c).
Proof. unfold cleanupAfterReads. cbn [fst]. by rewrite drainRequests_spec. Qed.

(** Whatever case [select] picks while both channels are ready, the loop of
    cleanupAfterReads ends in the same state. *)
Lemma cleanupRun_deterministic (c c' : Conn) :
  cleanupRun c c' ->
  c' = mkConn (doneReading c) [] true
              (readResponsesCh c ++ replicate (length (readRequestsCh c)) terminalEOF)
              0 (closedFlag c) (lastActivityTime c) (IdleTimeout c).
Proof.
  induction 1 as [c Hq Hs|c c1 c' Hstep _ IH].
  - rewrite Hq. cbn. by rewrite app_nil_r.
  - rewrite IH. destruct Hstep as [b q c Hq|k c Hk].
    + rewrite Hq. cbn. by rewrite <- app_assoc.
    + reflexivity.
Qed.

(** And the loop always gets there. *)
Lemma cleanupRun_total (c : Conn) : exists c', cleanupRun c c'.
Proof.
  remember (length (readRequestsCh c) + stopReadCh c)%nat as n eqn:Hn.
  revert c Hn. induction n as [|n IH]; intros c Hn.
  - eexists. apply cleanup_default.
    + destruct (readRequestsCh c); [done|cbn in Hn; lia].
    + lia.
  - destruct (readRequestsCh c) as [|b q] eqn:Hq.
    + destruct (stopReadCh c) as [|k] eqn:Hk; [cbn in Hn; lia|].
      destruct (IH (with_stops k c)) as [c' Hc']; [cbn; rewrite Hq; cbn in *; lia|].
      exists c'. eapply cleanup_more; [|exact Hc']. by apply cleanup_stop.
    + destruct (IH (respond terminalEOF (with_requests q c))) as [c' Hc'];
        [cbn in *; lia|].
      exists c'. eapply cleanup_more; [|exact Hc']. by eapply cleanup_request.
Qed.

Lemma submitRead_done (b : buffer) (c : Conn) :
  doneReading c = true -> submitRead b c = (false, c).
Proof. intros H. unfold submitRead. by rewrite H. Qed.

Lemma exitReads_done (c : Conn) : doneReading (fst (exitReads c)) = true /\ snd (exitReads c) = None.
Proof. unfold exitReads. cbn [fst snd]. by rewrite cleanupAfterReads_spec. Qed.

(** Once the read goroutine is gone, a step changes nothing. *)
Lemma step_after_exit (c : Conn) (a : action) :
  doneReading c = true -> step (c, None) a = (c, None).
Proof. intros H. destruct a as [b|ch now tr]; cbn; [by rewrite submitRead_done|done]. Qed.

Lemma run_after_exit (acts : list action) (c : Conn) :
  doneReading c = true -> run acts (c, None) = (c, None).
Proof.
  intros H. induction acts as [|a acts IH]; [done|].
  unfold run in *. cbn [fold_left]. by rewrite step_after_exit.
Qed.

Lemma readFromResponse_doneReading (now : Z) (r : httpResponse) (g : nat) (c : Conn) :
  match readFromResponse now r g c with
  | Continue _ c' | Return _ c' => doneReading c' = doneReading c
  | NotReady => True
  end.
Proof.
  unfold readFromResponse. destruct (Read (Body r)) as [[d e] body'].
  destruct e as [[]|]; repeat case_decide; repeat case_bool_decide; done.
Qed.

Lemma iteration_doneReading (ch : choice) (now : Z) (tr : transport) (st : loopState)
    (c : Conn) :
  match iteration ch now tr st c with
  | Continue _ c' | Return _ c' => doneReading c' = doneReading c
  | NotReady => True
  end.
Proof.
  unfold iteration. destruct (isClosed c); [done|]. destruct ch.
  - destruct (readRequestsCh c) as [|b q]; [done|].
    destruct (resp st) as [r|].
    + apply (readFromResponse_doneReading now r (gets st) (with_requests q c)).
    + destruct (isIdle now (with_requests q c)); [done|].
      destruct (requestResult tr) as [e|r].
      * by destruct (redialErr tr).
      * match goal with |- context [readFromResponse now r ?g ?c0] =>
          pose proof (readFromResponse_doneReading now r g c0) as H;
          destruct (readFromResponse now r g c0) end; try done;
          rewrite H; by destruct (redialErr tr).
  - by destruct (stopReadCh c).
  - by destruct (isIdle now c).
Qed.

(** No step clears doneReading. *)
Lemma step_doneReading (s : system) (a : action) :
  doneReading (fst s) = true -> doneReading (fst (step s a)) = true.
Proof.
  destruct s as [c lp]. cbn [fst]. intros H. destruct a as [b|ch now tr]; cbn [step].
  - by rewrite submitRead_done.
  - destruct lp as [st|]; [|done].
    pose proof (iteration_doneReading ch now tr st c) as Hi.
    destruct (iteration ch now tr st c); cbn [fst]; [congruence| |done].
    apply exitReads_done.
Qed.

Lemma run_doneReading (acts : list action) (s : system) :
  doneReading (fst s) = true -> doneReading (fst (run acts s)) = true.
Proof.
  revert s. induction acts as [|a acts IH]; intros s H; [done|].
  unfold run in *. cbn [fold_left]. by apply IH, step_doneReading.
Qed.

(** When processReads returns, the deferred cleanup has set doneReading. *)
Lemma step_exit (s : system) (a : action) (st : loopState) :
  snd s = Some st -> snd (step s a) = None -> doneReading (fst (step s a)) = true.
Proof.
  destruct s as [c lp]. cbn [snd]. intros -> . destruct a as [b|ch now tr]; cbn [step].
  - done.
  - destruct (iteration ch now tr st c); cbn [fst snd]; try done.
    intros _. apply exitReads_done.
Qed.

(** C10: doneReading is permanent.  cleanupAfterReads sets it and answers
    every submission still queued with zero bytes and io.EOF, in whatever
    order its select takes the ready cases; no later step clears the flag;
    from then on submitRead returns false and sends nothing. *)
Theorem C10_doneReading_is_permanent (c : Conn) (r : option httpResponse) :
  let c1 := fst (cleanupAfterReads r c) in
  doneReading c1 = true /\
  readResponsesCh c1 =
    (readResponsesCh c ++ replicate (length (readRequestsCh c)) terminalEOF)%list /\
  readRequestsCh c1 = [] /\
  (exists c', cleanupRun (setDoneReading c) c') /\
  (forall c', cleanupRun (setDoneReading c) c' -> c' = c1) /\
  (forall (lp : option loopState) (acts : list action) (b : buffer),
     let s := run acts (c1, lp) in
     doneReading (fst s) = true /\
     submitRead b (fst s) = (false, fst s)) /\
  (forall (st : loopState) (a : action) (acts : list action) (b : buffer),
     let s1 := step (c, Some st) a in
     snd s1 = None ->
     let s := run acts s1 in
     doneReading (fst s1) = true /\
     doneReading (fst s) = true /\ snd s = None /\
     submitRead b (fst s) = (false, fst s)).
Proof.
  intros c1. subst c1. rewrite cleanupAfterReads_spec. split_and!; try done.
  - apply cleanupRun_total.
  - intros c' Hrun. by apply cleanupRun_deterministic in Hrun.
  - intros lp acts b s.
    assert (doneReading (fst s) = true) as H by (by apply run_doneReading).
    split; [done|]. by apply submitRead_done.
  - intros st a acts b s1 Hexit s.
    assert (doneReading (fst s1) = true) as H1 by (by eapply step_exit).
    assert (s = s1) as ->.
    { subst s. destruct s1 as [c1 lp1]. cbn in Hexit, H1. subst lp1.
      by apply run_after_exit. }
    split_and!; try done. by apply submitRead_done.
Qed.

Lemma C10_witness :
  let c := mkConn false [4; 8]%nat false [] 1 false 0 (70 * Second) in
  let c1 := mkConn true [] true [terminalEOF; terminalEOF] 0 false 0 (70 * Second) in
  fst (cleanupAfterReads None c) = c1 /\
  submitRead 16%nat (fst (run [Submit 2%nat; Submit 3%nat] (c1, None))) = (false, c1).
Proof.
  intros c c1.
  destruct (C10_doneReading_is_permanent c None) as (_ & _ & _ & _ & Hdet & Hperm & _).
  assert (fst (cleanupAfterReads None c) = c1) as Hc1.
  { symmetry. apply Hdet.
    eapply cleanup_more; [eapply cleanup_request; reflexivity|].
    eapply cleanup_more; [eapply cleanup_stop; reflexivity|].
    eapply cleanup_more; [eapply cleanup_request; reflexivity|].
    apply cleanup_default; reflexivity. }
  split; [exact Hc1|].
  destruct (Hperm None [Submit 2%nat; Submit 3%nat] 16%nat) as [_ Hsub].
  rewrite Hc1 in Hsub. exact Hsub.
Defined.

Import Client.

Lemma isIdle_with_requests (now : Z) (q : list buffer) (c : Conn) :
  isIdle now (with_requests q c) = isIdle now c.
Proof. reflexivity. Qed.

(** The read itself, when the body reports io.EOF. *)
Lemma readFromResponse_EOF (now : Z) (r : httpResponse) (g : nat) (c : Conn)
    (d : list byte) (body' : reader) :
  Read (Body r) = ((d, Some EOF), body') ->
  exists c',
    readResponsesCh c' =
      (readResponsesCh c ++
         [mkRw (Z.of_nat (length d))
               (if bool_decide (Header_Get (respHeader r) X_ENPROXY_EOF = "true")
                then Some EOF else None)])%list /\
    readRequestsCh c' = readRequestsCh c /\ closedFlag c' = closedFlag c /\
    stopReadCh c' = stopReadCh c /\ IdleTimeout c' = IdleTimeout c /\
    readFromResponse now r g c =
      if bool_decide (Header_Get (respHeader r) X_ENPROXY_EOF = "true")
      then Return (mkLoop None g) c' else Continue (mkLoop None g) c'.
Proof.
  intros Hr. unfold readFromResponse. rewrite Hr. cbn [isEOF andb].
  eexists. split_and!; [| | | | |reflexivity];
    case_bool_decide; case_decide; reflexivity.
Qed.

(** The iteration that serves a submission from response [r]. *)
Lemma iteration_served (now : Z) (tr : transport) (st : loopState) (c : Conn)
    (b : buffer) (q : list buffer) (r : httpResponse) :
  isClosed c = false -> readRequestsCh c = b :: q -> servedFrom st now tr c r ->
  exists c0 g,
    readResponsesCh c0 = (readResponsesCh c ++ redialNotice st tr)%list /\
    readRequestsCh c0 = q /\ closedFlag c0 = closedFlag c /\
    stopReadCh c0 = stopReadCh c /\ IdleTimeout c0 = IdleTimeout c /\
    (g = gets st \/ g = S (gets st)) /\
    iteration CaseRead now tr st c = readFromResponse now r g c0.
Proof.
  intros Hcl Hq Hserved. unfold iteration. rewrite Hcl, Hq.
  destruct Hserved as [Hr|(Hr & Hidle & Hreq)].
  - rewrite Hr. exists (with_requests q c), (gets st). unfold redialNotice. rewrite Hr.
    cbn. rewrite app_nil_r. split_and!; try done. by left.
  - rewrite Hr, isIdle_with_requests, Hidle, Hreq. unfold redialNotice. rewrite Hr.
    destruct (redialErr tr) as [e|].
    + eexists _, (S (gets st)). split_and!; [| | | | | |reflexivity]; try done. by right.
    + exists (with_requests q c), (S (gets st)). cbn. rewrite app_nil_r.
      split_and!; try done. by right.
Qed.

(** C2: a read that meets the end of the response body.  Without the
    upstream-EOF header set to "true" the caller is answered with a nil
    error, the loop goes on with no active response, and the next
    submission (the connection being neither closed nor idle) issues a GET;
    with the header the caller is answered io.EOF and the read loop
    stops. *)
Theorem C2_end_of_response_body (c : Conn) (st : loopState) (now : Z) (tr : transport)
    (b : buffer) (q : list buffer) (r : httpResponse) (d : list byte) (body' : reader) :
  isClosed c = false ->
  readRequestsCh c = b :: q ->
  servedFrom st now tr c r ->
  Read (Body r) = ((d, Some EOF), body') ->
  let s' := step (c, Some st) (Iterate CaseRead now tr) in
  (Header_Get (respHeader r) X_ENPROXY_EOF <> "true" ->
     readResponsesCh (fst s') =
       (readResponsesCh c ++ redialNotice st tr ++ [mkRw (Z.of_nat (length d)) None])%list /\
     exists g,
       snd s' = Some (mkLoop None g) /\
       forall (c2 : Conn) (now' : Z) (tr' : transport),
         isClosed c2 = false -> readRequestsCh c2 <> [] -> isIdle now' c2 = false ->
         match iteration CaseRead now' tr' (mkLoop None g) c2 with
         | Continue st2 _ | Return st2 _ => gets st2 = S g
         | NotReady => False
         end) /\
  (Header_Get (respHeader r) X_ENPROXY_EOF = "true" ->
     readResponsesCh (fst s') =
       (readResponsesCh c ++ redialNotice st tr ++ [mkRw (Z.of_nat (length d)) (Some EOF)]
          ++ replicate (length q) terminalEOF)%list /\
     snd s' = None /\
     doneReading (fst s') = true).
Proof.
  intros Hcl Hq Hserved Hread s'.
  destruct (iteration_served now tr st c b q r Hcl Hq Hserved)
    as (c0 & g & Hresp0 & Hq0 & Hcl0 & Hst0 & Hto0 & _ & Hit).
  destruct (readFromResponse_EOF now r g c0 d body' Hread)
    as (c' & Hresp' & Hq' & Hcl' & Hst' & Hto' & Hrd).
  assert (s' = match readFromResponse now r g c0 with
               | Continue st' c' => (c', Some st')
               | Return _ c' => exitReads c'
               | NotReady => (c, Some st)
               end) as Hs'.
  { subst s'. cbn [step]. by rewrite Hit. }
  rewrite Hrd in Hs'. split.
  - intros Hne. rewrite bool_decide_eq_false_2 in Hs', Hresp' by done. rewrite Hs'.
    cbn [fst snd]. split.
    + by rewrite Hresp', Hresp0, <- app_assoc.
    + exists g. split; [done|]. intros c2 now' tr' Hcl2 Hq2 Hidle2.
      unfold iteration. rewrite Hcl2. destruct (readRequestsCh c2) as [|b2 q2]; [done|].
      cbn [resp gets]. rewrite isIdle_with_requests, Hidle2.
      destruct (requestResult tr') as [e|r']; [done|].
      unfold readFromResponse. destruct (Read (Body r')) as [[d2 e2] b2'].
      destruct e2 as [[]|];
        try destruct (bool_decide (Header_Get (respHeader r') X_ENPROXY_EOF = "true"));
        reflexivity.
  - intros Heq. rewrite bool_decide_eq_true_2 in Hs', Hresp' by done. rewrite Hs'.
    unfold exitReads. cbn [fst snd]. rewrite cleanupAfterReads_spec. cbn.
    split_and!; try done. rewrite Hresp', Hresp0, Hq', Hq0. by rewrite <- !app_assoc.
Qed.

Lemma C2_witness :
  let body := [(Sample.hi, Some EOF)] in
  let plain := step (Sample.conn [4%nat], Some (mkLoop (Some (Sample.response false body)) 1))
                    (Iterate CaseRead 5 (Sample.transport (Sample.response false []))) in
  let final := step (Sample.conn [4%nat], Some (mkLoop (Some (Sample.response true body)) 1))
                    (Iterate CaseRead 5 (Sample.transport (Sample.response false []))) in
  (readResponsesCh (fst plain) = [mkRw 2 None] /\ snd plain = Some (mkLoop None 1)) /\
  (readResponsesCh (fst final) = [mkRw 2 (Some EOF)] /\ snd final = None).
Proof.
  intros body plain final. split.
  - destruct (C2_end_of_response_body (Sample.conn [4%nat])
                (mkLoop (Some (Sample.response false body)) 1) 5
                (Sample.transport (Sample.response false [])) 4%nat []
                (Sample.response false body) Sample.hi [])
      as [Hplain _]; [reflexivity | reflexivity | left; reflexivity | reflexivity |].
    destruct Hplain as (H1 & g & H2 & _); [vm_compute; discriminate|].
    split; [exact H1|]. exact eq_refl.
  - destruct (C2_end_of_response_body (Sample.conn [4%nat])
                (mkLoop (Some (Sample.response true body)) 1) 5
                (Sample.transport (Sample.response false [])) 4%nat []
                (Sample.response true body) Sample.hi [])
      as [_ Hfinal]; [reflexivity | reflexivity | left; reflexivity | reflexivity |].
    destruct Hfinal as (H1 & H2 & _); [vm_compute; reflexivity|].
    split; [exact H1 | exact H2].
Defined.

(** C7: a read submission that arrives while no response is active and the
    connection is idle.  processReads takes the submission off the channel
    and returns: no GET is issued, and nothing is sent on readResponsesCh
    for it.  The deferred cleanup answers only the submissions that are
    still queued, so of the [S (length q)] submissions at hand exactly
    [length q] get the terminal EOF; the one that was taken gets none. *)
Theorem C7_idle_submission_gets_no_answer (c : Conn) (st : loopState) (now : Z)
    (tr : transport) (b : buffer) (q : list buffer) :
  isClosed c = false ->
  readRequestsCh c = b :: q ->
  resp st = None ->
  isIdle now c = true ->
  iteration CaseRead now tr st c = Return st (with_requests q c) /\
  let s' := step (c, Some st) (Iterate CaseRead now tr) in
  snd s' = None /\
  doneReading (fst s') = true /\
  readResponsesCh (fst s') = (readResponsesCh c ++ replicate (length q) terminalEOF)%list.
Proof.
  intros Hcl Hq Hr Hidle.
  assert (iteration CaseRead now tr st c = Return st (with_requests q c)) as Hit.
  { unfold iteration. by rewrite Hcl, Hq, Hr, isIdle_with_requests, Hidle. }
  split; [exact Hit|]. cbn [step]. rewrite Hit. unfold exitReads. cbn [fst snd].
  rewrite cleanupAfterReads_spec. done.
Qed.

Lemma C7_witness :
  let c := Sample.conn [4%nat] in
  let s' := step (c, Some (mkLoop None 1)) (Iterate CaseRead (70 * Second)
                 (Sample.transport (Sample.response false []))) in
  isIdle (70 * Second) c = true /\
  snd s' = None /\ doneReading (fst s') = true /\ readResponsesCh (fst s') = [].
Proof.
  intros c s'. split; [reflexivity|].
  destruct (C7_idle_submission_gets_no_answer c (mkLoop None 1) (70 * Second)
              (Sample.transport (Sample.response false [])) 4%nat [])
    as (_ & H1 & H2 & H3); [reflexivity | reflexivity | reflexivity | reflexivity |].
  split_and!; [exact H1 | exact H2 | exact H3].
Defined.
(** * Lemmas shared by the properties that follow *)

(** io.Copy into a socket touches its write side only. *)
Lemma ioCopyFrom_conn_frame (src : reader) (c : netConn) (n : Z) (k : nat) :
  let c' := dstAfter (ioCopyFrom conn_Write src c n k) in
  inbound c' = inbound c /\ readDeadlines c' = readDeadlines c /\
  reads c' = reads c /\ closed c' = closed c.
Proof.
  revert c n k. induction src as [|[d er] rest IH]; intros c n k; [done|].
  cbn [ioCopyFrom]. destruct d as [|b d].
  - cbn [length Nat.eqb negb]. destruct er as [[]|]; try done; apply IH.
  - destruct (conn_Write_cases (b :: d) c) as [(e & fs & _ & ->)|[-> _]]; [done|].
    cbn [negb]. rewrite Nat.eqb_refl. cbn [negb].
    destruct er as [[]|]; try done.
    match goal with |- context [ioCopyFrom _ rest ?c' ?n' ?k'] =>
      destruct (IH c' n' k') as (H1 & H2 & H3 & H4) end.
    cbv zeta. by rewrite H1, H2, H3, H4.
Qed.


(** ** The response loop of the bounded-read revision, in full *)

Lemma wrapInt_inInt (x : Z) : inInt (wrapInt x).
Proof.
  unfold inInt, wrapInt, minInt, maxInt, intBits.
  pose proof (Z.mod_pos_bound (x - - 2 ^ (64 - 1)) (2 ^ 64) ltac:(done)). lia.
Qed.

Lemma wrapInt_id (x : Z) : inInt x -> wrapInt x = x.
Proof.
  unfold inInt, wrapInt, minInt, maxInt, intBits. intros H.
  rewrite Z.mod_small; lia.
Qed.

Lemma wrapInt_add (x a b : Z) : wrapInt (wrapInt (x + a) + b) = wrapInt (x + (a + b)).
Proof.
  unfold wrapInt. f_equal.
  replace ((x + a - minInt) mod 2 ^ intBits + minInt + b - minInt)
    with ((x + a - minInt) mod 2 ^ intBits + b) by lia.
  rewrite Zplus_mod_idemp_l. f_equal. lia.
Qed.

Lemma add_bytesRead_add (l : ptr) (a b : Z) (t : connTable) :
  add_bytesRead l b (add_bytesRead l a t) = add_bytesRead l (a + b) t.
Proof.
  unfold add_bytesRead, alter_heap. cbn. f_equal. rewrite list_alter_alter_eq.
  apply list_alter_ext; [|done]. intros lc _. unfold lc_addBytes. cbn. f_equal.
  apply wrapInt_add.
Qed.

Lemma resp_Write_cases (p : list byte) (r : responseWriter) :
  let out := resp_Write p r in
  wire (snd out) = wire (WriteHeader 200 r) /\
  ((snd (fst out) = None /\ body (snd out) = (body r ++ p)%list) \/
   (is_Some (snd (fst out)) /\ body (snd out) = body r)) /\
  (accepts (rfaults r) ->
   snd (fst out) = None /\ body (snd out) = (body r ++ p)%list /\ accepts (rfaults (snd out))).
Proof.
  unfold resp_Write.
  assert (body (WriteHeader 200 r) = body r /\ rfaults (WriteHeader 200 r) = rfaults r)
    as [-> ->].
  { unfold WriteHeader. by destruct (wire r). }
  unfold accepts.
  destruct (rfaults r) as [|[e|] rest]; cbn; split_and!; eauto.
  - intros H. inversion H; discriminate.
  - intros H. split_and!; [done..|]. by inversion H.
Qed.

(** What one run of the response loop does.  The response grows by the
    bytes [delivered]; the bytes-read counter of the lazyConn is raised by
    their number when there are any; nothing else in the table changes.
    When the client takes every write, the bytes delivered and the bytes
    the socket still holds make up the bytes it held, the socket is closed
    exactly when the loop stops at an error that is neither a timeout nor
    io.EOF, and a calm stream is left calm. *)
Lemma Bounded_readLoop_delivers (p : Bounded.Proxy) (l : ptr) (now : nat -> Z) (src : reader) :
  forall (i : nat) (c : netConn) (resp : responseWriter) (first : bool) (t : connTable),
  exists delivered,
    let '(resp', c', t') := Bounded.readLoop p l now i src c resp first t in
    body resp' = (body resp ++ delivered)%list /\
    t' = match delivered with
         | [] => t
         | _ :: _ => add_bytesRead l (Z.of_nat (length delivered)) t
         end /\
    (accepts (rfaults resp) ->
       accepts (rfaults resp') /\
       (delivered ++ stream_bytes (inbound c'))%list = stream_bytes src /\
       closed c' = closed c || negb (expected (stop_error src)) /\
       (calm src = true -> calm (inbound c') = true)).
Proof.
  induction src as [|[d e] rest IH]; intros i c resp first t; cbn [Bounded.readLoop].
  - exists []. unfold Bounded.loopBody. cbn.
    rewrite app_nil_r, orb_false_r. split_and!; try done.
    + destruct first; [apply firstHeaders_body|done].
    + intros H. split_and!; try done. destruct first; [|done].
      by rewrite (proj2 (firstHeaders_body p (Some EOF) resp)).
  - unfold Bounded.loopBody.
    set (resp1 := if first then Bounded.firstHeaders p e resp else resp).
    assert (body resp1 = body resp /\ rfaults resp1 = rfaults resp) as [Hb1 Hr1].
    { subst resp1. destruct first; [apply firstHeaders_body|done]. }
    set (c1 := conn_SetReadDeadline (now i + Bounded.IdleInterval p) c).
    destruct d as [|b d].
    + (* nothing read *)
      destruct e as [e|].
      * destruct e as [|[]| |m].
        all: try (exists []; cbn; rewrite app_nil_r, ?orb_false_r, ?orb_true_r;
                  split_and!; try done; intros H; split_and!; try done; by rewrite Hr1).
        (* a net.Error without timeout: the loop goes on *)
        match goal with |- context [Bounded.readLoop p l now (S i) rest ?c2 resp1 false t] =>
          destruct (IH (S i) c2 resp1 false t) as [dl Hdl];
          destruct (Bounded.readLoop p l now (S i) rest c2 resp1 false t) as [[resp' c'] t'] end.
        exists dl. destruct Hdl as (H1 & H2 & H3). split_and!; [by rewrite H1, Hb1|done|].
        intros H. rewrite Hr1 in H3. by destruct (H3 H) as (? & ? & ? & ?).
      * match goal with |- context [Bounded.readLoop p l now (S i) rest ?c2 resp1 false t] =>
          destruct (IH (S i) c2 resp1 false t) as [dl Hdl];
          destruct (Bounded.readLoop p l now (S i) rest c2 resp1 false t) as [[resp' c'] t'] end.
        exists dl. destruct Hdl as (H1 & H2 & H3). split_and!; [by rewrite H1, Hb1|done|].
        intros H. rewrite Hr1 in H3. by destruct (H3 H) as (? & ? & ? & ?).
    + (* some bytes read *)
      pose proof (resp_Write_cases (b :: d) resp1) as (_ & Hcase & Haccw).
      destruct (resp_Write (b :: d) resp1) as [[nw ew] resp2]. cbn [fst snd] in Hcase, Haccw.
      rewrite Hr1, Hb1 in *.
      assert (forall (dl : list byte) (t' : connTable),
                t' = match dl with
                     | [] => add_bytesRead l (Z.of_nat (length (b :: d))) t
                     | _ :: _ => add_bytesRead l (Z.of_nat (length dl))
                                   (add_bytesRead l (Z.of_nat (length (b :: d))) t)
                     end ->
                t' = add_bytesRead l (Z.of_nat (length ((b :: d) ++ dl))) t) as Hsum.
      { intros dl t' ->. destruct dl as [|x dl]; [by rewrite app_nil_r|].
        rewrite add_bytesRead_add. f_equal. rewrite !length_app. lia. }
      destruct ew as [we|].
      * (* the write to the client failed *)
        destruct Hcase as [[? _]|[_ Hb2]]; [done|].
        exists []. rewrite app_nil_r. split_and!; try done.
        intros H. by destruct (Haccw H).
      * destruct Hcase as [[_ Hb2]|[[? ?] _]]; [|done].
        destruct e as [e|].
        -- destruct e as [|[]| |m].
           all: try (exists (b :: d); cbn; rewrite ?orb_false_r, ?orb_true_r;
                     split_and!; try done; intros H; destruct (Haccw H) as (_ & _ & ?);
                     split_and!; try done; by rewrite ?app_nil_r).
           match goal with |- context [Bounded.readLoop p l now (S i) rest ?c2 resp2 false ?t2] =>
             destruct (IH (S i) c2 resp2 false t2) as [dl Hdl];
             destruct (Bounded.readLoop p l now (S i) rest c2 resp2 false t2) as [[resp' c'] t'] end.
           exists ((b :: d) ++ dl)%list. destruct Hdl as (H1 & H2 & H3). split_and!.
           ++ by rewrite H1, Hb2, <- app_assoc.
           ++ by apply Hsum.
           ++ intros H. destruct (Haccw H) as (_ & _ & Ha2).
              destruct (H3 Ha2) as (? & Hs & ? & ?). split_and!; try done.
              cbn [stream_bytes]. by rewrite <- Hs, <- app_assoc.
        -- match goal with |- context [Bounded.readLoop p l now (S i) rest ?c2 resp2 false ?t2] =>
             destruct (IH (S i) c2 resp2 false t2) as [dl Hdl];
             destruct (Bounded.readLoop p l now (S i) rest c2 resp2 false t2) as [[resp' c'] t'] end.
           exists ((b :: d) ++ dl)%list. destruct Hdl as (H1 & H2 & H3). split_and!.
           ++ by rewrite H1, Hb2, <- app_assoc.
           ++ by apply Hsum.
           ++ intros H. destruct (Haccw H) as (_ & _ & Ha2).
              destruct (H3 Ha2) as (? & Hs & ? & ?). split_and!; try done.
              cbn [stream_bytes]. by rewrite <- Hs, <- app_assoc.
Qed.

(** ** A request touches the lazyConn of its own id only *)

Lemma only_at_refl (l : ptr) (t : connTable) : only_at l t t.
Proof. by split. Qed.

Lemma only_at_trans (l : ptr) (t1 t2 t3 : connTable) :
  only_at l t1 t2 -> only_at l t2 t3 -> only_at l t1 t3.
Proof.
  intros [Hm1 Hh1] [Hm2 Hh2]. split; [congruence|].
  intros j Hj. by rewrite Hh2, Hh1.
Qed.

Lemma alter_heap_only_at (f : lazyConn -> lazyConn) (l : ptr) (t : connTable) :
  only_at l t (alter_heap f l t).
Proof.
  split; [done|]. intros j Hj. rewrite alter_heap_lookup. by rewrite decide_False.
Qed.

Lemma lazyConn_get_only_at (dial : dialFunc) (l : ptr) (t : connTable) :
  only_at l t (snd (lazyConn_get dial l t)).
Proof.
  unfold lazyConn_get. destruct (heap t !! l) as [lc|]; [|apply only_at_refl].
  destruct (connOut lc); [apply only_at_refl|].
  destruct (dial (lcAddr lc)); cbn [snd]; [by split|].
  eapply only_at_trans; [|apply alter_heap_only_at]. by split.
Qed.

Lemma Streaming_handleGET_only_at (p : Streaming.Proxy) (resp : responseWriter)
    (req : request) (l : ptr) (c : netConn) (now : Z) (t : connTable) :
  only_at l t (snd (Streaming.handleGET p resp req l c now t)).
Proof.
  unfold Streaming.handleGET. destruct (lc_hitEOF t l); [apply only_at_refl|].
  cbv zeta.
  destruct (copyErr _) as [e|]; [|unfold conn_ReadEmpty]; cbn [snd].
  all: destruct (isEOF _); repeat (eapply only_at_trans; [|apply alter_heap_only_at]).
  all: apply only_at_refl.
Qed.

Lemma Bounded_readLoop_only_at (p : Bounded.Proxy) (l : ptr) (now : nat -> Z) (src : reader)
    (i : nat) (c : netConn) (resp : responseWriter) (first : bool) (t : connTable) :
  only_at l t (snd (Bounded.readLoop p l now i src c resp first t)).
Proof.
  destruct (Bounded_readLoop_delivers p l now src i c resp first t) as (dl & Hdl).
  destruct (Bounded.readLoop _ _ _ _ _ _ _ _ _) as [[r' c'] t']. cbn [snd].
  destruct Hdl as (_ & -> & _). destruct dl; [apply only_at_refl|apply alter_heap_only_at].
Qed.

(** getLazyConn adds at most the entry and the object of [id]. *)
Lemma getLazyConn_others_kept (id addr : string) (t : connTable) :
  let '(l, t1) := getLazyConn id addr t in
  forall t', only_at l t1 t' -> others_kept id t t'.
Proof.
  unfold getLazyConn. destruct (connMap t !! id) as [l|] eqn:Hid.
  - intros t' [Hm Hh]. split.
    + intros id' _. by rewrite Hm.
    + intros j lc Hj Hne. rewrite Hh by congruence. done.
  - intros t' [Hm Hh]. cbn in Hm, Hh. split.
    + intros id' Hne. rewrite Hm. by rewrite lookup_insert_ne.
    + intros j lc Hj _. pose proof (lookup_lt_Some _ _ _ Hj) as Hlt.
      rewrite Hh by lia. by rewrite lookup_app_l.
Qed.

Lemma Streaming_ServeHTTP_others_kept (p : Streaming.Proxy) (resp : responseWriter)
    (req : request) (now : Z) :
  others_kept (Header_Get (reqHeader req) X_HTTPCONN_ID) (Streaming.table p)
    (Streaming.table (fst (Streaming.ServeHTTP p resp req now))).
Proof.
  assert (forall id t, others_kept id t t) as Hrefl by (by split).
  unfold Streaming.ServeHTTP.
  case_decide; [apply Hrefl|]. case_decide; [apply Hrefl|].
  pose proof (getLazyConn_others_kept (Header_Get (reqHeader req) X_HTTPCONN_ID)
                (Header_Get (reqHeader req) X_HTTPCONN_DEST_ADDR) (Streaming.table p)) as Hg.
  destruct (getLazyConn _ _ _) as [l t1].
  pose proof (lazyConn_get_only_at (Streaming.dialer p) l t1) as Hget.
  destruct (lazyConn_get _ _ _) as [[e|c] t2]; cbn [snd] in Hget; [by apply Hg|].
  case_decide.
  { destruct (Streaming.handlePOST resp req c) as [r' c'].
    cbn [fst Streaming.table Streaming.with_table].
    apply Hg. eapply only_at_trans; [exact Hget|apply alter_heap_only_at]. }
  case_decide; [|by apply Hg].
  pose proof (Streaming_handleGET_only_at p resp req l c now t2) as Hh.
  destruct (Streaming.handleGET p resp req l c now t2) as [r' t3]. cbn [fst snd] in *.
  apply Hg. by eapply only_at_trans.
Qed.

Lemma Bounded_ServeHTTP_others_kept (p : Bounded.Proxy) (resp : responseWriter)
    (req : request) (now : nat -> Z) :
  others_kept (Header_Get (reqHeader req) X_HTTPCONN_ID) (Bounded.table p)
    (Bounded.table (fst (Bounded.ServeHTTP p resp req now))).
Proof.
  assert (forall id t, others_kept id t t) as Hrefl by (by split).
  unfold Bounded.ServeHTTP.
  case_decide; [apply Hrefl|]. case_decide; [apply Hrefl|].
  pose proof (getLazyConn_others_kept (Header_Get (reqHeader req) X_HTTPCONN_ID)
                (Header_Get (reqHeader req) X_HTTPCONN_DEST_ADDR) (Bounded.table p)) as Hg.
  destruct (getLazyConn _ _ _) as [l t1].
  pose proof (lazyConn_get_only_at (Bounded.dialer p) l t1) as Hget.
  destruct (lazyConn_get _ _ _) as [[e|c] t2]; cbn [snd] in Hget; [by apply Hg|].
  destruct (copyErr _).
  { cbn [fst Bounded.table Bounded.with_table].
    apply Hg. eapply only_at_trans; [exact Hget|apply alter_heap_only_at]. }
  match goal with |- context [Bounded.readLoop p l now 0 ?src ?c1 resp true t2] =>
    pose proof (Bounded_readLoop_only_at p l now src 0 c1 resp true t2) as Hl;
    destruct (Bounded.readLoop p l now 0 src c1 resp true t2) as [[r' c'] t3] end.
  cbn [fst snd Bounded.table Bounded.with_table] in *.
  apply Hg. eapply only_at_trans; [exact Hget|].
  eapply only_at_trans; [exact Hl|apply alter_heap_only_at].
Qed.

(** * The end of the upstream stream *)

(** ** Streaming revision *)






(** ** Bounded-read revision *)







(** * Further properties of the code *)

Import MaxLatencyWriter.

(** ** Streams through the streaming revision *)

Lemma stream_bytes_intact (r : reader) : intact r = true -> stream_bytes r = reader_bytes r.
Proof.
  induction r as [|[d [e|]] rest IH]; cbn; [done| |].
  - destruct e; done.
  - intros H. by rewrite IH.
Qed.

(** io.Copy from a socket into a response that takes every write: what the
    response holds and what the socket still holds make up what the socket
    held; the copy reports nil exactly when the stream ended cleanly. *)
Lemma ioCopyFrom_mlw_accepts (src : reader) (m : maxLatencyWriter) (n : Z) (k : nat)
    (w : Z * gmap string string) :
  wire (dst m) = Some w -> accepts (rfaults (dst m)) ->
  let r := ioCopyFrom Write src m n k in
  (body (dst (dstAfter r)) ++ stream_bytes (srcAfter r))%list
    = (body (dst m) ++ stream_bytes src)%list /\
  wire (dst (dstAfter r)) = Some w /\
  accepts (rfaults (dst (dstAfter r))) /\
  isEOF (copyErr r) = false /\
  (copyErr r = None <-> intact src = true).
Proof.
  revert m n k. induction src as [|[d er] rest IH]; intros m n k Hw Hacc.
  - cbn. done.
  - cbn [ioCopyFrom]. destruct d as [|b d].
    + cbn [length Nat.eqb negb]. destruct er as [e|].
      * destruct e; cbn; split_and!; try done; by rewrite ?app_nil_r.
      * cbn [isEOF]. apply (IH m (n + Z.of_nat 0) (S k)); done.
    + rewrite (mlw_Write_accepts _ _ _ Hw Hacc). cbn [negb]. rewrite Nat.eqb_refl. cbn [negb].
      destruct er as [e|].
      * destruct e; cbn; split_and!; try done; try (by apply accepts_tail);
          by rewrite <- ?app_assoc, ?app_nil_r.
      * cbn [isEOF].
        match goal with |- context [ioCopyFrom _ rest ?m' ?n' ?k'] =>
          destruct (IH m' n' k') as (Hb & Hw' & Ha & He & Hi) end;
          [done | by apply accepts_tail |].
        cbv zeta. split_and!; try done.
        rewrite Hb. cbn. by rewrite <- app_assoc.
Qed.

(** The wire of a response, once written, survives any copy into it. *)
Lemma ioCopyFrom_mlw_wire (src : reader) (m : maxLatencyWriter) (n : Z) (k : nat)
    (w : Z * gmap string string) :
  wire (dst m) = Some w -> wire (dst (dstAfter (ioCopyFrom Write src m n k))) = Some w.
Proof.
  revert m n k. induction src as [|[d er] rest IH]; intros m n k Hw; [done|].
  cbn [ioCopyFrom]. destruct d as [|b d].
  - cbn [length Nat.eqb negb]. destruct er as [[]|]; try done. by apply IH.
  - unfold Write at 1. pose proof (wire_resp_Write (b :: d) (dst m) w Hw) as Hw1.
    destruct (resp_Write (b :: d) (dst m)) as [[nw ew] r1]. cbn [snd] in Hw1.
    destruct ew as [e|]; [done|].
    destruct (negb (nw =? length (b :: d))%nat); [done|].
    destruct er as [[]|]; try done. by apply IH.
Qed.

(** handleGET on a connection whose flag is not set, writing to a response
    that takes every write. *)
Lemma Streaming_handleGET_accepts (p : Streaming.Proxy) (resp : responseWriter) (req : request)
    (l : ptr) (c : netConn) (now : Z) (t : connTable) :
  lc_hitEOF t l = false -> (l < length (heap t))%nat ->
  wire resp = None -> accepts (rfaults resp) ->
  let out := Streaming.handleGET p resp req l c now t in
  status (fst out) = Some 200 /\
  lc_hitEOF (snd out) l = intact (inbound c) && isEOF (emptyRead c) /\
  exists c', lc_conn (snd out) l = Some c' /\
             (body (fst out) ++ stream_bytes (inbound c'))%list
               = (body resp ++ stream_bytes (inbound c))%list /\
             outbound c' = outbound c /\ wfaults c' = wfaults c /\ closed c' = closed c.
Proof.
  intros Hf Hl Hw Hacc out. subst out. unfold Streaming.handleGET. rewrite Hf.
  set (resp1 := WriteHeader 200 (Header_Set "X-Accel-Buffering" "no" resp)).
  assert (wire resp1 = Some (200, <["X-Accel-Buffering" := "no"]> (header resp))) as Hw1.
  { subst resp1. unfold WriteHeader. cbn. by rewrite Hw. }
  assert (body resp1 = body resp /\ rfaults resp1 = rfaults resp) as [Hb1 Hr1].
  { subst resp1. unfold WriteHeader. cbn. by rewrite Hw. }
  unfold ioCopy. cbn [inbound conn_SetReadDeadline].
  destruct (ioCopyFrom_mlw_accepts (inbound c) (start resp1 (Streaming.FlushInterval p)) 0 0 _
              Hw1 ltac:(cbn; by rewrite Hr1)) as (Hb & Hw' & _ & He & Hi).
  pose proof (ioCopyFrom_nil_at_end Write (inbound c)
                (start resp1 (Streaming.FlushInterval p)) 0 0) as Hend.
  cbn [dst start] in Hb. rewrite Hb1 in Hb.
  destruct (copyErr _) as [e|] eqn:Ee.
  - assert (intact (inbound c) = false) as Hin.
    { destruct (intact (inbound c)); [|done]. by destruct Hi as [_ Hi']; specialize (Hi' eq_refl). }
    rewrite He. cbn [fst snd stop dst]. split_and!.
    + by eapply status_of_wire.
    + by rewrite lc_hitEOF_store_conn, Hin.
    + eexists. split; [by apply lc_conn_store_conn|]. cbn. done.
  - assert (intact (inbound c) = true) as Hin by (by apply Hi).
    specialize (Hend eq_refl). unfold conn_ReadEmpty, conn_copy_result.
    cbn [inbound emptyRead].
    change (emptyRead (conn_SetReadDeadline (now + 30 * Second) c)) with (emptyRead c).
    rewrite Hend in *. cbn [fst snd stop dst]. rewrite Hin. cbn [andb]. split_and!.
    + by eapply status_of_wire.
    + destruct (isEOF (emptyRead c)).
      * apply lc_hitEOF_set. unfold store_conn. by rewrite alter_heap_length.
      * by rewrite lc_hitEOF_store_conn.
    + eexists. split.
      { destruct (isEOF (emptyRead c)); rewrite ?lc_conn_set_hitEOF;
          by apply lc_conn_store_conn. }
      cbn. done.
Qed.

(** One GET for an id whose socket is there: the body of the response and
    what the socket still holds make up what the socket held. *)
Lemma Streaming_GET_conserves (p : Streaming.Proxy) (resp : responseWriter) (req : request)
    (now : Z) (l : ptr) (c : netConn) :
  Method req = "GET" ->
  Header_Get (reqHeader req) X_HTTPCONN_ID <> "" ->
  Header_Get (reqHeader req) X_HTTPCONN_DEST_ADDR <> "" ->
  connMap (Streaming.table p) !! Header_Get (reqHeader req) X_HTTPCONN_ID = Some l ->
  lc_conn (Streaming.table p) l = Some c ->
  wire resp = None -> accepts (rfaults resp) ->
  let out := Streaming.ServeHTTP p resp req now in
  status (snd out) = Some 200 /\
  exists c', lc_conn (Streaming.table (fst out)) l = Some c' /\
             (body (snd out) ++ stream_bytes (inbound c'))%list
               = (body resp ++ stream_bytes (inbound c))%list /\
             outbound c' = outbound c /\ wfaults c' = wfaults c /\ closed c' = closed c.
Proof.
  intros Hm Hid Haddr Hl Hc Hw Hacc out. subst out.
  rewrite (Streaming_ServeHTTP_GET p resp req now l c) by done.
  destruct (lc_conn_Some _ _ _ Hc) as (lc & Hlc & _).
  pose proof (lookup_lt_Some _ _ _ Hlc) as Hlt.
  cbn [fst snd Streaming.with_table Streaming.table].
  destruct (lc_hitEOF (Streaming.table p) l) eqn:Hf.
  - unfold Streaming.handleGET. rewrite Hf. cbn [fst snd]. split.
    + by apply status_WriteHeader.
    + exists c. rewrite body_WriteHeader. done.
  - destruct (Streaming_handleGET_accepts p resp req l c now (Streaming.table p)
                Hf Hlt Hw Hacc) as (Hs & _ & Hex). done.
Qed.

(** X1: successive GETs for one id lose and repeat nothing.  The bodies of
    the responses, in order, followed by what the socket still holds, are
    what the socket held before the first GET; every response has status
    200 and nothing is written to the socket. *)
Theorem X1_streaming_gets_conserve_the_stream (id : string) (calls : list Streaming.call) :
  forall (p : Streaming.Proxy) (l : ptr) (c : netConn),
    id <> "" ->
    connMap (Streaming.table p) !! id = Some l ->
    lc_conn (Streaming.table p) l = Some c ->
    Forall (get_for id) calls ->
    let out := Streaming.serveAll calls p in
    Forall (fun r => status r = Some 200) (snd out) /\
    exists c', lc_conn (Streaming.table (fst out)) l = Some c' /\
               (concat (body <$> snd out) ++ stream_bytes (inbound c'))%list
                 = stream_bytes (inbound c) /\
               outbound c' = outbound c.
Proof.
  induction calls as [|[[resp req] now] rest IH]; intros p l c Hid Hl Hc Hall.
  - cbn. split; [constructor|]. exists c. done.
  - apply Forall_cons in Hall as [(Hm & Hi & Ha & Hw & Hb & Hacc) Hrest].
    cbn [Streaming.serveAll Streaming.serve]. subst id.
    pose proof (Streaming_GET_conserves p resp req now l c Hm Hid Ha Hl Hc Hw Hacc)
      as (Hs & c1 & Hc1 & Hcons & Ho1 & _).
    pose proof (Streaming_ServeHTTP_table p resp req now) as ([Hext _] & _).
    destruct (Streaming.ServeHTTP p resp req now) as [p1 r1]. cbn [fst snd] in *.
    specialize (IH p1 l c1 Hid (Hext _ _ Hl) Hc1 Hrest).
    destruct (Streaming.serveAll rest p1) as [p2 rs]. cbn [fst snd] in *.
    destruct IH as (Hss & c2 & Hc2 & Hcons2 & Ho2). split; [by constructor|].
    exists c2. split_and!; [done| |congruence].
    cbn [fmap list_fmap concat]. rewrite Hb in Hcons. cbn in Hcons.
    rewrite <- Hcons, <- Hcons2. by rewrite <- app_assoc.
Qed.

Lemma X1_witness :
  let calls := [(freshResponse, Sample.GET, 0); (freshResponse, Sample.GET, 1)] in
  let script := [(Sample.hi, None); ([], Some (NetError true)); (Sample.hi, Some EOF)] in
  let p := fst (Streaming.ServeHTTP (Sample.streaming script) freshResponse (Sample.POST []) 0) in
  let out := Streaming.serveAll calls p in
  exists c', lc_conn (Streaming.table (fst out)) 0 = Some c' /\
             (concat (body <$> snd out) ++ stream_bytes (inbound c'))%list
               = (Sample.hi ++ Sample.hi)%list.
Proof.
  intros calls script p out.
  destruct (X1_streaming_gets_conserve_the_stream "abc" calls p 0%nat (Sample.socket script))
    as (_ & c' & Hc' & Hcons & _).
  - discriminate.
  - vm_compute. reflexivity.
  - vm_compute. reflexivity.
  - repeat constructor; vm_compute; discriminate.
  - exists c'. split; [exact Hc' | exact Hcons].
Defined.

(** X2: after a GET on a connection whose flag was not set (the client
    taking every write), the flag is set exactly when the stream of the
    socket ended cleanly during that GET and the additional
    connOut.Read(emptyBuffer) reported io.EOF.  A timeout or any other read
    error during the copy leaves it unset, and so does an additional read
    that reports (0, nil), as a *net.TCPConn answers when the buffer has
    length zero. *)
Theorem X2_streaming_flag_iff_clean_end (p : Streaming.Proxy) (resp : responseWriter)
    (req : request) (now : Z) (l : ptr) (c : netConn) :
  Method req = "GET" ->
  Header_Get (reqHeader req) X_HTTPCONN_ID <> "" ->
  Header_Get (reqHeader req) X_HTTPCONN_DEST_ADDR <> "" ->
  connMap (Streaming.table p) !! Header_Get (reqHeader req) X_HTTPCONN_ID = Some l ->
  lc_conn (Streaming.table p) l = Some c ->
  lc_hitEOF (Streaming.table p) l = false ->
  wire resp = None -> accepts (rfaults resp) ->
  lc_hitEOF (Streaming.table (fst (Streaming.ServeHTTP p resp req now))) l
    = intact (inbound c) && isEOF (emptyRead c).
Proof.
  intros Hm Hid Haddr Hl Hc Hf Hw Hacc.
  rewrite (Streaming_ServeHTTP_GET p resp req now l c) by done.
  destruct (lc_conn_Some _ _ _ Hc) as (lc & Hlc & _).
  pose proof (lookup_lt_Some _ _ _ Hlc) as Hlt.
  by destruct (Streaming_handleGET_accepts p resp req l c now (Streaming.table p)
                 Hf Hlt Hw Hacc) as (_ & Hflag & _).
Qed.

Lemma X2_witness :
  let script := [(Sample.hi, None); ([], Some EOF)] in
  let pS := fst (Streaming.ServeHTTP (Sample.streaming script) freshResponse (Sample.POST []) 0) in
  let pT :=
    fst (Streaming.ServeHTTP (Sample.streamingTCP script) freshResponse (Sample.POST []) 0) in
  lc_hitEOF (Streaming.table (fst (Streaming.ServeHTTP pS freshResponse Sample.GET 1))) 0 = true /\
  lc_hitEOF (Streaming.table (fst (Streaming.ServeHTTP pT freshResponse Sample.GET 1))) 0 = false.
Proof.
  intros script pS pT. split.
  - rewrite (X2_streaming_flag_iff_clean_end pS freshResponse Sample.GET 1 0%nat
               (Sample.socket script)); try reflexivity; try (vm_compute; discriminate).
    constructor.
  - rewrite (X2_streaming_flag_iff_clean_end pT freshResponse Sample.GET 1 0%nat
               (Sample.tcpSocket script)); try reflexivity; try (vm_compute; discriminate).
    constructor.
Defined.

(** ** What the handlers of the streaming revision leave alone *)

(** X3: a POST never touches the read side of the socket, whatever happens
    to the copy: no read, no deadline, no close, the EOF flag as it was;
    the answer is 200 or 502. *)
Theorem X3_streaming_post_leaves_read_side (p : Streaming.Proxy) (resp : responseWriter)
    (req : request) (now : Z) (l : ptr) (c : netConn) :
  Method req = "POST" ->
  Header_Get (reqHeader req) X_HTTPCONN_ID <> "" ->
  Header_Get (reqHeader req) X_HTTPCONN_DEST_ADDR <> "" ->
  connMap (Streaming.table p) !! Header_Get (reqHeader req) X_HTTPCONN_ID = Some l ->
  lc_conn (Streaming.table p) l = Some c ->
  wire resp = None ->
  let out := Streaming.ServeHTTP p resp req now in
  (status (snd out) = Some 200 \/ status (snd out) = Some BAD_GATEWAY) /\
  body (snd out) = body resp /\
  lc_hitEOF (Streaming.table (fst out)) l = lc_hitEOF (Streaming.table p) l /\
  exists c', lc_conn (Streaming.table (fst out)) l = Some c' /\
             inbound c' = inbound c /\ reads c' = reads c /\
             readDeadlines c' = readDeadlines c /\ closed c' = closed c.
Proof.
  intros Hm Hid Haddr Hl Hc Hw out. subst out.
  rewrite (Streaming_ServeHTTP_POST p resp req now l c) by done.
  destruct (lc_conn_Some _ _ _ Hc) as (lc & Hlc & _).
  pose proof (lookup_lt_Some _ _ _ Hlc) as Hlt.
  cbn [fst snd Streaming.with_table Streaming.table].
  pose proof (ioCopyFrom_conn_frame (reqBody req) c 0 0) as (H1 & H2 & H3 & H4).
  assert (snd (Streaming.handlePOST resp req c)
          = dstAfter (ioCopyFrom conn_Write (reqBody req) c 0 0)) as Hsnd.
  { unfold Streaming.handlePOST, ioCopy. destruct (copyErr _) as [e|]; [case_decide|]; done. }
  split_and!.
  - unfold Streaming.handlePOST, Streaming.badGateway.
    destruct (copyErr _) as [e|]; [case_decide|]; cbn [fst];
      rewrite status_WriteHeader by done; auto.
  - unfold Streaming.handlePOST, Streaming.badGateway.
    destruct (copyErr _) as [e|]; [case_decide|]; cbn [fst]; apply body_WriteHeader.
  - apply lc_hitEOF_store_conn.
  - eexists. split; [by apply lc_conn_store_conn|]. by rewrite Hsnd.
Qed.

Lemma X3_witness :
  let c := mkNetConn [(Sample.hi, None)] [] [Some (OtherError "broken pipe")] [] 0 false
                     (Some EOF) in
  let p := Streaming.with_table (Sample.streaming [])
             (mkTable {[ "abc" := 0%nat ]}
                      [mkLazyConn "abc" "example.com:80" (Some c) false 0] []) in
  let out := Streaming.ServeHTTP p freshResponse (Sample.POST Sample.hi) 0 in
  status (snd out) = Some BAD_GATEWAY /\
  exists c', lc_conn (Streaming.table (fst out)) 0 = Some c' /\
             inbound c' = [(Sample.hi, None)] /\ closed c' = false.
Proof.
  intros c p out.
  destruct (X3_streaming_post_leaves_read_side p freshResponse (Sample.POST Sample.hi) 0
              0%nat c) as (_ & _ & _ & c' & Hc' & Hi & _ & _ & Hcl);
    try reflexivity; try (vm_compute; discriminate).
  split; [reflexivity|]. exists c'. split_and!; [exact Hc' | exact Hi | exact Hcl].
Defined.

(** X4: successive POSTs for one id compose: when every body ends cleanly
    and the socket takes every write, the socket has received the bodies
    one after the other, each answered 200, its read side untouched. *)
Theorem X4_streaming_posts_compose (id : string) (calls : list Streaming.call) :
  forall (p : Streaming.Proxy) (l : ptr) (c : netConn),
    id <> "" ->
    connMap (Streaming.table p) !! id = Some l ->
    lc_conn (Streaming.table p) l = Some c ->
    accepts (wfaults c) ->
    Forall (post_for id) calls ->
    let out := Streaming.serveAll calls p in
    Forall (fun r => status r = Some 200) (snd out) /\
    exists c', lc_conn (Streaming.table (fst out)) l = Some c' /\
               outbound c' =
                 (outbound c ++ concat ((fun x => reader_bytes (reqBody (snd (fst x)))) <$> calls))%list /\
               inbound c' = inbound c /\ reads c' = reads c.
Proof.
  induction calls as [|[[resp req] now] rest IH]; intros p l c Hid Hl Hc Hacc Hall.
  - cbn. split; [constructor|]. exists c. by rewrite app_nil_r.
  - apply Forall_cons in Hall as [(Hm & Hi & Ha & Hw & Hin) Hrest].
    cbn [Streaming.serveAll Streaming.serve]. subst id.
    pose proof (Streaming_ServeHTTP_table p resp req now) as ([Hext _] & _).
    rewrite (Streaming_ServeHTTP_POST p resp req now l c) in * by done.
    cbn [fst snd Streaming.with_table Streaming.table] in *.
    destruct (lc_conn_Some _ _ _ Hc) as (lc & Hlc & _).
    pose proof (lookup_lt_Some _ _ _ Hlc) as Hlt.
    destruct (ioCopyFrom_conn_exact (reqBody req) c 0 0 Hin Hacc)
      as (He & Ho & Hacc' & Hi' & _ & Hr' & _).
    assert (Streaming.handlePOST resp req c
            = (WriteHeader 200 resp, dstAfter (ioCopyFrom conn_Write (reqBody req) c 0 0)))
      as Hpost.
    { unfold Streaming.handlePOST, ioCopy. by rewrite He. }
    rewrite Hpost in *. cbn [fst snd] in *.
    set (c1 := dstAfter (ioCopyFrom conn_Write (reqBody req) c 0 0)) in *.
    match goal with |- context [Streaming.serveAll rest ?p1] =>
      specialize (IH p1 l c1 Hid (Hext _ _ Hl)
                     ltac:(by apply lc_conn_store_conn) Hacc' Hrest);
      destruct (Streaming.serveAll rest p1) as [p2 rs] end.
    cbn [fst snd] in *. destruct IH as (Hss & c2 & Hc2 & Ho2 & Hi2 & Hr2).
    split; [constructor; [by apply status_WriteHeader|done]|].
    exists c2. split_and!; [done| |congruence|congruence].
    rewrite Ho2, Ho. cbn [fmap list_fmap concat fst snd]. by rewrite <- app_assoc.
Qed.

Lemma X4_witness :
  let p := fst (Streaming.ServeHTTP (Sample.streaming []) freshResponse (Sample.POST []) 0) in
  let calls := [(freshResponse, Sample.POST Sample.hi, 1);
                (freshResponse, Sample.POST [Byte.x21], 2)] in
  exists c', lc_conn (Streaming.table (fst (Streaming.serveAll calls p))) 0 = Some c' /\
             outbound c' = [Byte.x68; Byte.x69; Byte.x21].
Proof.
  intros p calls.
  destruct (X4_streaming_posts_compose "abc" calls p 0%nat (Sample.socket []))
    as (_ & c' & Hc' & Ho & _).
  - discriminate.
  - vm_compute. reflexivity.
  - vm_compute. reflexivity.
  - constructor.
  - repeat constructor; vm_compute; discriminate.
  - exists c'. split; [exact Hc' | exact Ho].
Defined.

(** X5: once the socket is there, a GET is answered 200 whatever the socket
    and the client do (read errors and failed writes included); it never
    writes to the socket and never closes it, and when the flag was not
    set it sets exactly one read deadline, thirty seconds from now. *)
Theorem X5_streaming_get_always_200 (p : Streaming.Proxy) (resp : responseWriter)
    (req : request) (now : Z) (l : ptr) (c : netConn) :
  Method req = "GET" ->
  Header_Get (reqHeader req) X_HTTPCONN_ID <> "" ->
  Header_Get (reqHeader req) X_HTTPCONN_DEST_ADDR <> "" ->
  connMap (Streaming.table p) !! Header_Get (reqHeader req) X_HTTPCONN_ID = Some l ->
  lc_conn (Streaming.table p) l = Some c ->
  wire resp = None ->
  let out := Streaming.ServeHTTP p resp req now in
  status (snd out) = Some 200 /\
  exists c', lc_conn (Streaming.table (fst out)) l = Some c' /\
             outbound c' = outbound c /\ wfaults c' = wfaults c /\ closed c' = closed c /\
             readDeadlines c' =
               if lc_hitEOF (Streaming.table p) l then readDeadlines c
               else (readDeadlines c ++ [now + 30 * Second])%list.
Proof.
  intros Hm Hid Haddr Hl Hc Hw out. subst out.
  rewrite (Streaming_ServeHTTP_GET p resp req now l c) by done.
  destruct (lc_conn_Some _ _ _ Hc) as (lc & Hlc & _).
  pose proof (lookup_lt_Some _ _ _ Hlc) as Hlt.
  cbn [fst snd Streaming.with_table Streaming.table].
  unfold Streaming.handleGET. destruct (lc_hitEOF (Streaming.table p) l) eqn:Hf.
  - cbn [fst snd]. split; [by apply status_WriteHeader|]. by exists c.
  - set (resp1 := WriteHeader 200 (Header_Set "X-Accel-Buffering" "no" resp)).
    assert (wire resp1 = Some (200, <["X-Accel-Buffering" := "no"]> (header resp))) as Hw1.
    { subst resp1. unfold WriteHeader. cbn. by rewrite Hw. }
    unfold ioCopy. cbn [inbound conn_SetReadDeadline].
    pose proof (ioCopyFrom_mlw_wire (inbound c) (start resp1 (Streaming.FlushInterval p))
                  0 0 _ Hw1) as Hw'.
    destruct (copyErr _) as [e|]; [|unfold conn_ReadEmpty].
    + cbn [fst snd stop dst]. split; [by eapply status_of_wire|].
      eexists. split.
      { destruct (isEOF (Some e)); rewrite ?lc_conn_set_hitEOF; by apply lc_conn_store_conn. }
      done.
    + cbn [fst snd stop dst]. split; [by eapply status_of_wire|].
      eexists. split.
      { destruct (isEOF _); rewrite ?lc_conn_set_hitEOF; by apply lc_conn_store_conn. }
      done.
Qed.

Lemma X5_witness :
  let c := mkNetConn [(Sample.hi, Some (OtherError "reset"))] [] [] [] 0 false (Some EOF) in
  let p := Streaming.with_table (Sample.streaming [])
             (mkTable {[ "abc" := 0%nat ]}
                      [mkLazyConn "abc" "example.com:80" (Some c) false 0] []) in
  let resp := mkResp ∅ None [] 0 [Some (OtherError "client gone")] in
  let out := Streaming.ServeHTTP p resp Sample.GET 0 in
  status (snd out) = Some 200 /\
  exists c', lc_conn (Streaming.table (fst out)) 0 = Some c' /\ closed c' = false.
Proof.
  intros c p resp out.
  destruct (X5_streaming_get_always_200 p resp Sample.GET 0 0%nat c)
    as (Hs & c' & Hc' & _ & _ & Hcl & _);
    try reflexivity; try (vm_compute; discriminate).
  split; [exact Hs|]. exists c'. split; [exact Hc' | exact Hcl].
Defined.

(** The response loop leaves the write side of the socket and the map
    alone, never reopens the socket, reads at least once, and sets one
    read deadline before each read: iteration [j] sets [now j] plus the
    idle interval. *)
Lemma Bounded_readLoop_frame (p : Bounded.Proxy) (l : ptr) (now : nat -> Z) (src : reader) :
  forall (i : nat) (c : netConn) (resp : responseWriter) (first : bool) (t : connTable),
    let '(_, c', t') := Bounded.readLoop p l now i src c resp first t in
    wfaults c' = wfaults c /\ outbound c' = outbound c /\
    (closed c = true -> closed c' = true) /\
    connMap t' = connMap t /\
    exists k, reads c' = (S k + reads c)%nat /\
              readDeadlines c' =
                (readDeadlines c ++ ((fun j => now j + Bounded.IdleInterval p) <$> seq i (S k)))%list.
Proof.
  assert (forall (i : nat) (c : netConn),
            exists k, S (reads c) = (S k + reads c)%nat /\
                      (readDeadlines c ++ [now i + Bounded.IdleInterval p])%list =
                        (readDeadlines c ++
                           ((fun j => now j + Bounded.IdleInterval p) <$> seq i (S k)))%list)
    as Hstop.
  { intros i c. exists 0%nat. done. }
  induction src as [|[d e] rest IH]; intros i c resp first t; cbn [Bounded.readLoop].
  - unfold Bounded.loopBody. cbn. split_and!; try done.
  - unfold Bounded.loopBody.
    set (resp1 := if first then Bounded.firstHeaders p e resp else resp).
    assert (forall (r2 : responseWriter) (t2 : connTable),
              connMap t2 = connMap t ->
              let '(_, c', t') :=
                Bounded.readLoop p l now (S i) rest
                  (mkNetConn rest (outbound c) (wfaults c)
                     (readDeadlines c ++ [now i + Bounded.IdleInterval p])
                     (S (reads c)) (closed c) (emptyRead c)) r2 false t2 in
              wfaults c' = wfaults c /\ outbound c' = outbound c /\
              (closed c = true -> closed c' = true) /\
              connMap t' = connMap t /\
              exists k, reads c' = (S k + reads c)%nat /\
                        readDeadlines c' =
                          (readDeadlines c ++
                             ((fun j => now j + Bounded.IdleInterval p) <$> seq i (S k)))%list)
      as Hgo.
    { intros r2 t2 Ht2.
      specialize (IH (S i) (mkNetConn rest (outbound c) (wfaults c)
                     (readDeadlines c ++ [now i + Bounded.IdleInterval p])
                     (S (reads c)) (closed c) (emptyRead c)) r2 false t2).
      destruct (Bounded.readLoop _ _ _ _ _ _ _ _ _) as [[r' c'] t'].
      cbn in IH. destruct IH as (? & ? & ? & ? & k & Hk & Hd).
      split_and!; try done; [congruence|].
      exists (S k). split; [lia|]. rewrite Hd, <- app_assoc. done. }
    destruct d as [|b d].
    + destruct e as [[|[]| |m]|]; cbn; try (by (split_and!; try done; try apply Hstop)).
      all: by apply Hgo.
    + destruct (resp_Write (b :: d) resp1) as [[nw [we|]] resp2].
      { cbn. split_and!; try done; try apply Hstop. }
      destruct e as [[|[]| |m]|]; cbn; try (by (split_and!; try done; try apply Hstop)).
      all: by apply Hgo.
Qed.

(** The status line and the headers of the response are those of the
    first iteration. *)
Lemma Bounded_readLoop_first_wire (p : Bounded.Proxy) (l : ptr) (now : nat -> Z)
    (src : reader) (i : nat) (c : netConn) (resp : responseWriter) (t : connTable) :
  wire resp = None ->
  wire (fst (fst (Bounded.readLoop p l now i src c resp true t)))
    = wire (Bounded.firstHeaders p (snd (fst (Read src))) resp).
Proof.
  intros Hw.
  assert (forall e, exists w, wire (Bounded.firstHeaders p e resp) = Some w) as Hfh.
  { intros e. destruct (firstHeaders_wire p e resp) as [_ H].
    destruct (status_wire _ _ (H Hw)) as [h Hh]. eauto. }
  destruct src as [|[d e] rest]; cbn [Bounded.readLoop]; [done|].
  match goal with |- _ = wire (Bounded.firstHeaders p ?x resp) =>
    replace x with e by (by destruct e as [[]|]) end.
  unfold Bounded.loopBody. destruct (Hfh e) as [w Hw1].
  assert (forall (r2 : responseWriter) (c2 : netConn) (t2 : connTable),
            wire r2 = Some w ->
            wire (fst (fst (Bounded.readLoop p l now (S i) rest c2 r2 false t2))) = Some w)
    as Hgo.
  { intros r2 c2 t2 H2.
    pose proof (Bounded_readLoop_post p l now rest (S i) c2 r2 false t2) as Hp.
    destruct (Bounded.readLoop _ _ _ _ _ _ _ _ _) as [[r' c'] t'].
    destruct Hp as (_ & _ & _ & _ & _ & Hwire & _). by apply Hwire. }
  destruct d as [|b d].
  - destruct e as [[|[]| |m]|]; cbn [fst snd]; try done.
    all: rewrite Hw1; by apply Hgo.
  - pose proof (wire_resp_Write (b :: d) _ w Hw1) as Hw2.
    destruct (resp_Write (b :: d) _) as [[nw [we|]] resp2]; cbn [fst snd] in *; [congruence|].
    destruct e as [[|[]| |m]|]; cbn [fst snd]; try congruence.
    all: rewrite Hw1; by apply Hgo.
Qed.

Lemma lc_bytesRead_store_conn (l : ptr) (c : netConn) (t : connTable) :
  lc_bytesRead (store_conn l c t) l = lc_bytesRead t l.
Proof.
  unfold lc_bytesRead, store_conn, alter_heap. cbn. rewrite list_lookup_alter_eq.
  by destruct (heap t !! l).
Qed.

Lemma lc_bytesRead_add (l : ptr) (n : Z) (t : connTable) :
  (l < length (heap t))%nat ->
  lc_bytesRead (add_bytesRead l n t) l = wrapInt (lc_bytesRead t l + n).
Proof.
  intros Hl. unfold lc_bytesRead, add_bytesRead, alter_heap. cbn. rewrite list_lookup_alter_eq.
  destruct (lookup_lt_is_Some_2 _ _ Hl) as [lc ->]. done.
Qed.

(** The counter after the response loop has delivered [dl]. *)
Lemma lc_bytesRead_delivered (l : ptr) (dl : list byte) (t : connTable) :
  (l < length (heap t))%nat ->
  lc_bytesRead (match dl with
                | [] => t
                | _ :: _ => add_bytesRead l (Z.of_nat (length dl)) t
                end) l
  = match dl with
    | [] => lc_bytesRead t l
    | _ :: _ => wrapInt (lc_bytesRead t l + Z.of_nat (length dl))
    end.
Proof. intros Hl. destruct dl; [done|by apply lc_bytesRead_add]. Qed.

Lemma lc_bytesRead_delivered_int (l : ptr) (dl : list byte) (t : connTable) :
  (l < length (heap t))%nat -> inInt (lc_bytesRead t l) ->
  lc_bytesRead (match dl with
                | [] => t
                | _ :: _ => add_bytesRead l (Z.of_nat (length dl)) t
                end) l
  = wrapInt (lc_bytesRead t l + Z.of_nat (length dl)).
Proof.
  intros Hl Hint. rewrite lc_bytesRead_delivered by done.
  destruct dl; [|done]. cbn. by rewrite Z.add_0_r, wrapInt_id.
Qed.

Lemma calm_expected (r : reader) : calm r = true -> expected (stop_error r) = true.
Proof.
  induction r as [|[d [[|[]| |m]|]] rest IH]; cbn; try done.
Qed.

Lemma add_bytesRead_length (l : ptr) (n : Z) (t : connTable) :
  length (heap (add_bytesRead l n t)) = length (heap t).
Proof. unfold add_bytesRead. apply alter_heap_length. Qed.

(** ** One request to the bounded-read ServeHTTP, its socket being there *)

(** What ServeHTTP does once the request body is copied. *)
Lemma Bounded_ServeHTTP_copied (p : Bounded.Proxy) (resp : responseWriter) (req : request)
    (now : nat -> Z) (l : ptr) (c : netConn) :
  Header_Get (reqHeader req) X_HTTPCONN_ID <> "" ->
  Header_Get (reqHeader req) X_HTTPCONN_DEST_ADDR <> "" ->
  connMap (Bounded.table p) !! Header_Get (reqHeader req) X_HTTPCONN_ID = Some l ->
  lc_conn (Bounded.table p) l = Some c ->
  copyErr (ioCopy conn_Write (reqBody req) c) = None ->
  let c1 := dstAfter (ioCopy conn_Write (reqBody req) c) in
  let out := Bounded.ServeHTTP p resp req now in
  let res := Bounded.readLoop p l now 0 (inbound c) c1 resp true (Bounded.table p) in
  snd out = fst (fst res) /\
  Bounded.table (fst out) = store_conn l (snd (fst res)) (snd res) /\
  inbound c1 = inbound c /\ readDeadlines c1 = readDeadlines c /\
  reads c1 = reads c /\ closed c1 = closed c.
Proof.
  intros Hid Haddr Hl Hc Hcopy c1 out res. subst out res.
  rewrite (Bounded_ServeHTTP_existing p resp req now l c) by done.
  cbv zeta. rewrite Hcopy.
  destruct (ioCopyFrom_conn_frame (reqBody req) c 0 0) as (Hi & Hd & Hr & Hcl).
  fold (ioCopy conn_Write (reqBody req) c) in Hi, Hd, Hr, Hcl. fold c1 in Hi, Hd, Hr, Hcl |- *.
  rewrite Hi.
  destruct (Bounded.readLoop p l now 0 (inbound c) c1 resp true (Bounded.table p))
    as [[r' c'] t']. done.
Qed.

(** One request whose body arrives whole, to a socket that takes every
    write, from a client that takes every write. *)
Lemma Bounded_exchange (p : Bounded.Proxy) (resp : responseWriter) (req : request)
    (now : nat -> Z) (l : ptr) (c : netConn) :
  Header_Get (reqHeader req) X_HTTPCONN_ID <> "" ->
  Header_Get (reqHeader req) X_HTTPCONN_DEST_ADDR <> "" ->
  connMap (Bounded.table p) !! Header_Get (reqHeader req) X_HTTPCONN_ID = Some l ->
  lc_conn (Bounded.table p) l = Some c ->
  wire resp = None -> accepts (rfaults resp) ->
  intact (reqBody req) = true -> accepts (wfaults c) ->
  let out := Bounded.ServeHTTP p resp req now in
  status (snd out) = Some 200 /\
  connMap (Bounded.table (fst out)) = connMap (Bounded.table p) /\
  exists c' delivered,
    lc_conn (Bounded.table (fst out)) l = Some c' /\
    accepts (wfaults c') /\
    outbound c' = (outbound c ++ reader_bytes (reqBody req))%list /\
    body (snd out) = (body resp ++ delivered)%list /\
    (delivered ++ stream_bytes (inbound c'))%list = stream_bytes (inbound c) /\
    lc_bytesRead (Bounded.table (fst out)) l
      = match delivered with
        | [] => lc_bytesRead (Bounded.table p) l
        | _ :: _ => wrapInt (lc_bytesRead (Bounded.table p) l + Z.of_nat (length delivered))
        end /\
    closed c' = closed c || negb (expected (stop_error (inbound c))) /\
    (calm (inbound c) = true -> calm (inbound c') = true).
Proof.
  intros Hid Haddr Hl Hc Hw Hacc Hint Hwf.
  destruct (ioCopyFrom_conn_exact (reqBody req) c 0 0 Hint Hwf)
    as (Hcopy & Hout & Hwf1 & _ & _ & _ & Hcl1).
  fold (ioCopy conn_Write (reqBody req) c) in Hcopy, Hout, Hwf1, Hcl1.
  destruct (Bounded_ServeHTTP_copied p resp req now l c Hid Haddr Hl Hc Hcopy)
    as (Hresp & Htab & _).
  destruct (lc_conn_Some _ _ _ Hc) as (lc & Hlc & _).
  pose proof (lookup_lt_Some _ _ _ Hlc) as Hlt.
  cbv zeta. rewrite Hresp, Htab. clear Hresp Htab.
  set (c1 := dstAfter (ioCopy conn_Write (reqBody req) c)) in *.
  pose proof (Bounded_readLoop_post p l now (inbound c) 0 c1 resp true (Bounded.table p)) as Hpost.
  pose proof (Bounded_readLoop_frame p l now (inbound c) 0 c1 resp true (Bounded.table p)) as Hfr.
  destruct (Bounded_readLoop_delivers p l now (inbound c) 0 c1 resp true (Bounded.table p))
    as (dl & Hdl).
  destruct (Bounded.readLoop p l now 0 (inbound c) c1 resp true (Bounded.table p))
    as [[r' c'] t']. cbn [fst snd].
  destruct Hpost as (Ho & _ & _ & Hlen & _ & _ & Hst).
  destruct Hfr as (Hwf' & _ & _ & Hmap & _).
  destruct Hdl as (Hb & Ht' & Hrest). destruct (Hrest Hacc) as (_ & Hcons & Hcl & Hcalm).
  split_and!; [by apply Hst|done|].
  exists c', dl. split_and!; try done.
  - apply lc_conn_store_conn. by rewrite Hlen.
  - by rewrite Hwf'.
  - by rewrite Ho.
  - rewrite lc_bytesRead_store_conn, Ht'. by apply lc_bytesRead_delivered.
  - by rewrite Hcl, Hcl1.
Qed.

(** X6: successive requests for one id to a socket that is open and
    whose stream is calm (no read fails for good, so that no request closes
    the socket), each request with a body that arrives whole, the socket
    and the clients taking every write.  Every response has status 200.
    The socket has received the request bodies in order, and is still
    open.  The response bodies, in order, followed by what the socket still
    holds, are what the socket held before the first request.  The
    bytes-read counter of the lazyConn, an int, has been raised by the
    total length of the response bodies, wrapping around where the sum
    leaves the range of int. *)
Theorem X6_bounded_exchanges_conserve_both_directions (id : string)
    (calls : list Bounded.call) :
  forall (p : Bounded.Proxy) (l : ptr) (c : netConn),
    id <> "" ->
    connMap (Bounded.table p) !! id = Some l ->
    lc_conn (Bounded.table p) l = Some c ->
    closed c = false ->
    calm (inbound c) = true ->
    accepts (wfaults c) ->
    inInt (lc_bytesRead (Bounded.table p) l) ->
    Forall (exchange_for id) calls ->
    let out := Bounded.serveAll calls p in
    Forall (fun r => status r = Some 200) (snd out) /\
    exists c', lc_conn (Bounded.table (fst out)) l = Some c' /\
               closed c' = false /\
               outbound c' =
                 (outbound c ++
                  concat ((fun x : Bounded.call => reader_bytes (reqBody (snd (fst x)))) <$> calls))%list /\
               (concat (body <$> snd out) ++ stream_bytes (inbound c'))%list
                 = stream_bytes (inbound c) /\
               lc_bytesRead (Bounded.table (fst out)) l
                 = wrapInt (lc_bytesRead (Bounded.table p) l
                            + Z.of_nat (length (concat (body <$> snd out)))).
Proof.
  induction calls as [|[[resp req] now] rest IH]; intros p l c Hid Hl Hc Hop Hcalm Hwf Hint Hall.
  - cbn. split; [constructor|]. exists c. rewrite app_nil_r, Z.add_0_r, wrapInt_id; done.
  - apply Forall_cons in Hall as [(Hi & Ha & Hw & Hb & Hacc & Hin) Hrest].
    cbn [Bounded.serveAll Bounded.serve]. subst id.
    pose proof (Bounded_exchange p resp req now l c Hid Ha Hl Hc Hw Hacc Hin Hwf)
      as (Hs & Hmap & c1 & dl & Hc1 & Hwf1 & Ho1 & Hb1 & Hcons & Hbr & Hcl1 & Hcalm1).
    rewrite Hop, (calm_expected _ Hcalm) in Hcl1. cbn in Hcl1.
    assert (lc_bytesRead (Bounded.table (fst (Bounded.ServeHTTP p resp req now))) l
            = wrapInt (lc_bytesRead (Bounded.table p) l + Z.of_nat (length dl))) as Hbr1.
    { rewrite Hbr. destruct dl; [|done]. cbn. by rewrite Z.add_0_r, wrapInt_id. }
    destruct (Bounded.ServeHTTP p resp req now) as [p1 r1]. cbn [fst snd] in *.
    rewrite <- Hmap in Hl.
    assert (inInt (lc_bytesRead (Bounded.table p1) l)) as Hint1.
    { rewrite Hbr1. apply wrapInt_inInt. }
    specialize (IH p1 l c1 Hid Hl Hc1 Hcl1 (Hcalm1 Hcalm) Hwf1 Hint1 Hrest).
    destruct (Bounded.serveAll rest p1) as [p2 rs]. cbn [fst snd] in *.
    destruct IH as (Hss & c2 & Hc2 & Hop2 & Ho2 & Hcons2 & Hbr2). split; [by constructor|].
    exists c2. rewrite Hb in Hb1. cbn in Hb1. subst dl.
    cbn [fmap list_fmap concat fst snd]. split_and!; [done|done| | |].
    + by rewrite Ho2, Ho1, <- app_assoc.
    + by rewrite <- Hcons, <- Hcons2, <- app_assoc.
    + rewrite Hbr2, Hbr1, wrapInt_add, length_app. f_equal. lia.
Qed.

Lemma X6_witness :
  let p := fst (Bounded.ServeHTTP (Sample.bounded [(Sample.hi, None); ([], Some (NetError true));
                                                   (Sample.hi, Some EOF)])
                  freshResponse (Sample.POST []) (fun _ => 0)) in
  let calls := [(freshResponse, Sample.POST Sample.hi, fun _ : nat => 1);
                (freshResponse, Sample.GET, fun _ : nat => 2)] in
  let out := Bounded.serveAll calls p in
  exists c', lc_conn (Bounded.table (fst out)) 0 = Some c' /\
             closed c' = false /\
             outbound c' = Sample.hi /\
             lc_bytesRead (Bounded.table (fst out)) 0 = 4.
Proof.
  intros p calls out.
  destruct (X6_bounded_exchanges_conserve_both_directions "abc" calls p 0%nat
              (mkNetConn [(Sample.hi, Some EOF)] [] [] [35000000; 35000000] 2 false (Some EOF)))
    as (_ & c' & Hc' & Hop & Ho & _ & Hbr).
  - discriminate.
  - vm_compute. reflexivity.
  - vm_compute. reflexivity.
  - reflexivity.
  - reflexivity.
  - constructor.
  - vm_compute. split; discriminate.
  - repeat constructor; vm_compute; discriminate.
  - exists c'. split; [exact Hc'|]. split; [exact Hop|]. split; [exact Ho|].
    etransitivity; [exact Hbr|]. vm_compute. reflexivity.
Defined.

(** What badGateway of the bounded-read revision sends. *)
Lemma Bounded_badGateway_sends (resp : responseWriter) (msg : string) :
  wire resp = None ->
  status (Bounded.badGateway resp msg) = Some BAD_GATEWAY /\
  sentHeader (Bounded.badGateway resp msg) "Connection" = "close" /\
  (accepts (rfaults resp) ->
   body (Bounded.badGateway resp msg) =
     (body resp ++ list_byte_of_string "No id found in header Connection-Id")%list).
Proof.
  intros Hw. unfold Bounded.badGateway.
  set (r1 := WriteHeader BAD_GATEWAY (Header_Set "Connection" "close" resp)).
  assert (wire r1 = Some (BAD_GATEWAY, <["Connection" := "close"]> (header resp))) as Hw1.
  { subst r1. unfold WriteHeader. cbn. by rewrite Hw. }
  assert (body r1 = body resp /\ rfaults r1 = rfaults resp) as [Hb1 Hr1].
  { subst r1. unfold WriteHeader. cbn. by rewrite Hw. }
  pose proof (wire_resp_Write
                (list_byte_of_string ("No id found in header " +:+ X_HTTPCONN_ID)) r1 _ Hw1) as Hw2.
  split_and!.
  - by apply (status_of_wire _ _ _ Hw2).
  - rewrite (sentHeader_wire _ _ _ _ Hw2). by rewrite lookup_insert_eq.
  - intros Hacc. rewrite <- Hr1 in Hacc.
    rewrite (resp_Write_accepts _ r1 _ Hw1 Hacc). cbn. by rewrite Hb1.
Qed.

(** The status tells whether the request body reached the socket. *)
Lemma Bounded_status_cases (p : Bounded.Proxy) (resp : responseWriter) (req : request)
    (now : nat -> Z) (l : ptr) (c : netConn) :
  Header_Get (reqHeader req) X_HTTPCONN_ID <> "" ->
  Header_Get (reqHeader req) X_HTTPCONN_DEST_ADDR <> "" ->
  connMap (Bounded.table p) !! Header_Get (reqHeader req) X_HTTPCONN_ID = Some l ->
  lc_conn (Bounded.table p) l = Some c ->
  wire resp = None ->
  status (snd (Bounded.ServeHTTP p resp req now)) =
    Some (match copyErr (ioCopy conn_Write (reqBody req) c) with
          | Some _ => BAD_GATEWAY
          | None => 200
          end).
Proof.
  intros Hid Haddr Hl Hc Hw.
  destruct (copyErr (ioCopy conn_Write (reqBody req) c)) as [e|] eqn:Hcopy.
  - rewrite (Bounded_ServeHTTP_existing p resp req now l c) by done.
    cbv zeta. rewrite Hcopy. cbn [snd]. by apply Bounded_badGateway_status.
  - destruct (Bounded_ServeHTTP_copied p resp req now l c Hid Haddr Hl Hc Hcopy)
      as (-> & _).
    pose proof (Bounded_readLoop_post p l now (inbound c) 0
                  (dstAfter (ioCopy conn_Write (reqBody req) c)) resp true (Bounded.table p))
      as Hpost.
    destruct (Bounded.readLoop _ _ _ _ _ _ _ _ _) as [[r' c'] t']. cbn [fst snd].
    destruct Hpost as (_ & _ & _ & _ & _ & _ & Hst). by apply Hst.
Qed.

(** X7: the bytes-read counter of the lazyConn, an int, counts exactly the
    bytes that went into response bodies, whatever the socket and the
    client do: a request answered 200 raises it by the number of bytes its
    response body has grown by, wrapping around where the sum leaves the
    range of int; a request answered 502 leaves it as it is (the text of
    the 502 is not counted); and there is no third status. *)
Theorem X7_bounded_counter_counts_response_bytes (p : Bounded.Proxy) (resp : responseWriter)
    (req : request) (now : nat -> Z) (l : ptr) (c : netConn) :
  Header_Get (reqHeader req) X_HTTPCONN_ID <> "" ->
  Header_Get (reqHeader req) X_HTTPCONN_DEST_ADDR <> "" ->
  connMap (Bounded.table p) !! Header_Get (reqHeader req) X_HTTPCONN_ID = Some l ->
  lc_conn (Bounded.table p) l = Some c ->
  wire resp = None ->
  inInt (lc_bytesRead (Bounded.table p) l) ->
  let out := Bounded.ServeHTTP p resp req now in
  (status (snd out) = Some 200 /\
   lc_bytesRead (Bounded.table (fst out)) l =
     wrapInt (lc_bytesRead (Bounded.table p) l
              + (Z.of_nat (length (body (snd out))) - Z.of_nat (length (body resp))))) \/
  (status (snd out) = Some BAD_GATEWAY /\
   lc_bytesRead (Bounded.table (fst out)) l = lc_bytesRead (Bounded.table p) l).
Proof.
  intros Hid Haddr Hl Hc Hw Hint. cbv zeta.
  rewrite (Bounded_status_cases p resp req now l c) by done.
  destruct (lc_conn_Some _ _ _ Hc) as (lc & Hlc & _).
  pose proof (lookup_lt_Some _ _ _ Hlc) as Hlt.
  destruct (copyErr (ioCopy conn_Write (reqBody req) c)) as [e|] eqn:Hcopy.
  - right. split; [done|].
    rewrite (Bounded_ServeHTTP_existing p resp req now l c) by done.
    cbv zeta. rewrite Hcopy. cbn [fst Bounded.table Bounded.with_table].
    by rewrite lc_bytesRead_store_conn.
  - left. split; [done|].
    destruct (Bounded_ServeHTTP_copied p resp req now l c Hid Haddr Hl Hc Hcopy)
      as (-> & -> & _).
    destruct (Bounded_readLoop_delivers p l now (inbound c) 0
                (dstAfter (ioCopy conn_Write (reqBody req) c)) resp true (Bounded.table p))
      as (dl & Hdl).
    destruct (Bounded.readLoop _ _ _ _ _ _ _ _ _) as [[r' c'] t']. cbn [fst snd].
    destruct Hdl as (-> & -> & _).
    rewrite lc_bytesRead_store_conn, lc_bytesRead_delivered_int, length_app by done.
    f_equal. lia.
Qed.

Lemma X7_witness :
  let script := [(Sample.hi, None); ([], Some (NetError true));
                 (Sample.hi, None); (Sample.hi, Some (OtherError "reset"))] in
  let p := fst (Bounded.ServeHTTP (Sample.bounded script) freshResponse (Sample.POST [])
                  Sample.noon) in
  let out := Bounded.ServeHTTP p freshResponse Sample.GET Sample.noon in
  (status (snd out) = Some 200 /\
   lc_bytesRead (Bounded.table (fst out)) 0 =
     wrapInt (lc_bytesRead (Bounded.table p) 0
              + (Z.of_nat (length (body (snd out))) - Z.of_nat (length (body freshResponse))))) \/
  (status (snd out) = Some BAD_GATEWAY /\
   lc_bytesRead (Bounded.table (fst out)) 0 = lc_bytesRead (Bounded.table p) 0).
Proof.
  intros script p.
  apply (X7_bounded_counter_counts_response_bytes p freshResponse Sample.GET Sample.noon 0%nat
           (mkNetConn [(Sample.hi, None); (Sample.hi, Some (OtherError "reset"))] [] []
              [35000000; 35000000] 2 false (Some EOF))).
  - discriminate.
  - discriminate.
  - vm_compute. reflexivity.
  - vm_compute. reflexivity.
  - reflexivity.
  - vm_compute. split; discriminate.
Defined.

(** The headers the first iteration of the response loop sends. *)
Lemma firstHeaders_sent (p : Bounded.Proxy) (e : option error) (resp : responseWriter) :
  wire resp = None ->
  header resp !! X_HTTPCONN_EOF = None ->
  header resp !! X_HTTPCONN_PROXY_HOST = None ->
  sentHeader (Bounded.firstHeaders p e resp) X_HTTPCONN_EOF
    = (if isEOF e then "true" else "") /\
  sentHeader (Bounded.firstHeaders p e resp) X_HTTPCONN_PROXY_HOST = Bounded.Host p.
Proof.
  intros Hw He Hh. unfold Bounded.firstHeaders, sentHeader, WriteHeader.
  destruct (isEOF e); case_decide as Hhost; cbn; rewrite Hw; cbn.
  all: rewrite ?lookup_insert_eq, ?lookup_insert_ne, ?He, ?Hh by done; cbn; try done.
  all: split; try done.
  all: rewrite ?lookup_insert_eq, ?lookup_insert_ne, ?He, ?Hh by done; done.
Qed.

(** X8: the headers of a 200 response.  The upstream-EOF header is "true"
    exactly when the first read of the socket in this request reported
    io.EOF (an end of stream met by a later read of the same request is not
    announced), and the Proxy-Host header carries the Proxy's Host, absent
    when that is empty. *)
Theorem X8_bounded_headers_come_from_the_first_read (p : Bounded.Proxy)
    (resp : responseWriter) (req : request) (now : nat -> Z) (l : ptr) (c : netConn) :
  Header_Get (reqHeader req) X_HTTPCONN_ID <> "" ->
  Header_Get (reqHeader req) X_HTTPCONN_DEST_ADDR <> "" ->
  connMap (Bounded.table p) !! Header_Get (reqHeader req) X_HTTPCONN_ID = Some l ->
  lc_conn (Bounded.table p) l = Some c ->
  wire resp = None ->
  header resp !! X_HTTPCONN_EOF = None ->
  header resp !! X_HTTPCONN_PROXY_HOST = None ->
  let out := Bounded.ServeHTTP p resp req now in
  status (snd out) = Some 200 ->
  sentHeader (snd out) X_HTTPCONN_EOF
    = (if isEOF (snd (fst (Read (inbound c)))) then "true" else "") /\
  sentHeader (snd out) X_HTTPCONN_PROXY_HOST = Bounded.Host p.
Proof.
  intros Hid Haddr Hl Hc Hw He Hh. cbv zeta.
  rewrite (Bounded_status_cases p resp req now l c) by done.
  destruct (copyErr (ioCopy conn_Write (reqBody req) c)) as [e|] eqn:Hcopy; [done|]. intros _.
  destruct (Bounded_ServeHTTP_copied p resp req now l c Hid Haddr Hl Hc Hcopy) as (-> & _).
  pose proof (Bounded_readLoop_first_wire p l now (inbound c) 0
                (dstAfter (ioCopy conn_Write (reqBody req) c)) resp (Bounded.table p) Hw) as Hwire.
  unfold sentHeader at 1 2. rewrite Hwire.
  apply (firstHeaders_sent p _ resp Hw He Hh).
Qed.

Lemma X8_witness :
  let script := [(Sample.hi, None); ([], Some EOF)] in
  let p := fst (Bounded.ServeHTTP (Sample.bounded []) freshResponse (Sample.POST [])
                  Sample.noon) in
  let p := Bounded.with_table p
             (store_conn 0 (Sample.socket script) (Bounded.table p)) in
  sentHeader (snd (Bounded.ServeHTTP p freshResponse Sample.GET Sample.noon)) X_HTTPCONN_EOF = "".
Proof.
  intros script p0 p.
  destruct (X8_bounded_headers_come_from_the_first_read p freshResponse Sample.GET Sample.noon
              0%nat (Sample.socket script)) as [H _].
  - discriminate.
  - discriminate.
  - vm_compute. reflexivity.
  - vm_compute. reflexivity.
  - reflexivity.
  - reflexivity.
  - reflexivity.
  - vm_compute. reflexivity.
  - exact H.
Defined.

(** X9: when copying the request body to the socket fails, the answer is
    502 with "Connection: close"; the socket is closed, yet stays the
    socket of its id; what the socket received is a prefix of the body; the
    socket is not read and no deadline is set. *)
Theorem X9_bounded_failed_body_copy (p : Bounded.Proxy) (resp : responseWriter)
    (req : request) (now : nat -> Z) (l : ptr) (c : netConn) (e : error) :
  Header_Get (reqHeader req) X_HTTPCONN_ID <> "" ->
  Header_Get (reqHeader req) X_HTTPCONN_DEST_ADDR <> "" ->
  connMap (Bounded.table p) !! Header_Get (reqHeader req) X_HTTPCONN_ID = Some l ->
  lc_conn (Bounded.table p) l = Some c ->
  wire resp = None ->
  copyErr (ioCopy conn_Write (reqBody req) c) = Some e ->
  let out := Bounded.ServeHTTP p resp req now in
  status (snd out) = Some BAD_GATEWAY /\
  sentHeader (snd out) "Connection" = "close" /\
  connMap (Bounded.table (fst out)) = connMap (Bounded.table p) /\
  exists c', lc_conn (Bounded.table (fst out)) l = Some c' /\
             closed c' = true /\
             (exists m, outbound c' = (outbound c ++ take m (reader_bytes (reqBody req)))%list) /\
             inbound c' = inbound c /\ reads c' = reads c /\
             readDeadlines c' = readDeadlines c.
Proof.
  intros Hid Haddr Hl Hc Hw Hcopy. cbv zeta.
  rewrite (Bounded_ServeHTTP_existing p resp req now l c) by done.
  cbv zeta. rewrite Hcopy. cbn [fst snd Bounded.table Bounded.with_table].
  destruct (Bounded_badGateway_sends resp "Unable to write to connOut" Hw) as (Hs & Hh & _).
  destruct (lc_conn_Some _ _ _ Hc) as (lc & Hlc & _).
  pose proof (lookup_lt_Some _ _ _ Hlc) as Hlt.
  destruct (ioCopyFrom_conn_frame (reqBody req) c 0 0) as (Hi & Hd & Hr & _).
  split_and!; try done.
  eexists. split; [by apply lc_conn_store_conn|]. cbn.
  split_and!; try done. apply ioCopyFrom_conn_prefix.
Qed.

Lemma X9_witness :
  let c := mkNetConn [] [] [Some (OtherError "broken pipe")] [] 0 false (Some EOF) in
  let p := Bounded.with_table (Sample.bounded [])
             (mkTable {[ "abc" := 0%nat ]}
                [mkLazyConn "abc" "example.com:80" (Some c) false 0] ["example.com:80"]) in
  status (snd (Bounded.ServeHTTP p freshResponse (Sample.POST Sample.hi) Sample.noon))
    = Some BAD_GATEWAY.
Proof.
  intros c p.
  destruct (X9_bounded_failed_body_copy p freshResponse (Sample.POST Sample.hi) Sample.noon
              0%nat c (OtherError "broken pipe")) as [H _].
  - discriminate.
  - discriminate.
  - vm_compute. reflexivity.
  - vm_compute. reflexivity.
  - reflexivity.
  - vm_compute. reflexivity.
  - exact H.
Defined.

(** X10: a 502 of the bounded-read revision looks the same whatever went
    wrong (missing id, missing address, failed dial, failed copy of the
    request body): "Connection: close" and, the client taking the write,
    the text "No id found in header Connection-Id" as body.  The message
    handed to badGateway does not reach the client. *)
Theorem X10_bounded_502_always_says_no_id (p : Bounded.Proxy) (resp : responseWriter)
    (req : request) (now : nat -> Z) :
  wire resp = None -> accepts (rfaults resp) ->
  let out := Bounded.ServeHTTP p resp req now in
  status (snd out) = Some BAD_GATEWAY ->
  sentHeader (snd out) "Connection" = "close" /\
  body (snd out) =
    (body resp ++ list_byte_of_string "No id found in header Connection-Id")%list.
Proof.
  intros Hw Hacc. cbv zeta.
  assert (forall msg, sentHeader (Bounded.badGateway resp msg) "Connection" = "close" /\
            body (Bounded.badGateway resp msg) =
              (body resp ++ list_byte_of_string "No id found in header Connection-Id")%list)
    as Hbg.
  { intros msg. destruct (Bounded_badGateway_sends resp msg Hw) as (_ & ? & Hb). auto. }
  unfold Bounded.ServeHTTP.
  case_decide; [intros _; apply Hbg|].
  case_decide; [intros _; apply Hbg|].
  destruct (getLazyConn _ _ _) as [l t1].
  destruct (lazyConn_get _ _ _) as [[e|c] t2]; [intros _; apply Hbg|].
  destruct (copyErr _); [intros _; apply Hbg|].
  pose proof (Bounded_readLoop_post p l now
                (inbound (dstAfter (ioCopy conn_Write (reqBody req) c))) 0
                (dstAfter (ioCopy conn_Write (reqBody req) c)) resp true t2) as Hpost.
  destruct (Bounded.readLoop _ _ _ _ _ _ _ _ _) as [[r' c'] t']. cbn [fst snd].
  destruct Hpost as (_ & _ & _ & _ & _ & _ & Hst). rewrite (Hst eq_refl Hw). discriminate.
Qed.

Lemma X10_witness :
  body (snd (Bounded.ServeHTTP (Sample.bounded []) freshResponse
               (mkRequest "GET" {[ X_HTTPCONN_ID := "abc" ]} []) Sample.noon))
  = list_byte_of_string "No id found in header Connection-Id".
Proof.
  destruct (X10_bounded_502_always_says_no_id (Sample.bounded []) freshResponse
              (mkRequest "GET" {[ X_HTTPCONN_ID := "abc" ]} []) Sample.noon) as [_ H].
  - reflexivity.
  - constructor.
  - vm_compute. reflexivity.
  - exact H.
Defined.

(** X11: request body copied, client taking every write.  The socket is
    closed by the request exactly when the response loop stops at a read
    error that is neither a timeout nor io.EOF; a read that times out, the
    end of the stream, and a net.Error that is no timeout (after which the
    loop reads on) leave it open.  Closed or not, it stays the socket of
    its id. *)
Theorem X11_bounded_closes_on_unexpected_read_error (p : Bounded.Proxy)
    (resp : responseWriter) (req : request) (now : nat -> Z) (l : ptr) (c : netConn) :
  Header_Get (reqHeader req) X_HTTPCONN_ID <> "" ->
  Header_Get (reqHeader req) X_HTTPCONN_DEST_ADDR <> "" ->
  connMap (Bounded.table p) !! Header_Get (reqHeader req) X_HTTPCONN_ID = Some l ->
  lc_conn (Bounded.table p) l = Some c ->
  wire resp = None -> accepts (rfaults resp) ->
  intact (reqBody req) = true -> accepts (wfaults c) ->
  let out := Bounded.ServeHTTP p resp req now in
  connMap (Bounded.table (fst out)) !! Header_Get (reqHeader req) X_HTTPCONN_ID = Some l /\
  exists c', lc_conn (Bounded.table (fst out)) l = Some c' /\
             closed c' = closed c || negb (expected (stop_error (inbound c))).
Proof.
  intros Hid Haddr Hl Hc Hw Hacc Hint Hwf.
  destruct (Bounded_exchange p resp req now l c Hid Haddr Hl Hc Hw Hacc Hint Hwf)
    as (_ & Hmap & c' & dl & Hc' & _ & _ & _ & _ & _ & Hcl & _).
  cbv zeta. rewrite Hmap. split; [done|]. by exists c'.
Qed.

Lemma X11_witness :
  let script := [(Sample.hi, Some (NetError false)); ([], Some (OtherError "reset"))] in
  let c := Sample.socket script in
  let p := Bounded.with_table (Sample.bounded [])
             (mkTable {[ "abc" := 0%nat ]}
                [mkLazyConn "abc" "example.com:80" (Some c) false 0] ["example.com:80"]) in
  let out := Bounded.ServeHTTP p freshResponse Sample.GET Sample.noon in
  exists c', lc_conn (Bounded.table (fst out)) 0 = Some c' /\ closed c' = true.
Proof.
  intros script c p out.
  destruct (X11_bounded_closes_on_unexpected_read_error p freshResponse Sample.GET Sample.noon
              0%nat c) as (_ & c' & Hc' & Hcl).
  - discriminate.
  - discriminate.
  - vm_compute. reflexivity.
  - vm_compute. reflexivity.
  - reflexivity.
  - constructor.
  - reflexivity.
  - constructor.
  - exists c'. split; [exact Hc'|exact Hcl].
Defined.

(** What one Write to the client does, by the outcome that is due. *)
Lemma resp_Write_due (p : list byte) (r : responseWriter) :
  let out := resp_Write p r in
  match rfaults r with
  | Some e :: rf =>
      snd (fst out) = Some e /\ body (snd out) = body r /\ rfaults (snd out) = rf
  | None :: rf =>
      snd (fst out) = None /\ body (snd out) = (body r ++ p)%list /\ rfaults (snd out) = rf
  | [] =>
      snd (fst out) = None /\ body (snd out) = (body r ++ p)%list /\ rfaults (snd out) = []
  end.
Proof.
  unfold resp_Write, WriteHeader.
  destruct (wire r); cbn; destruct (rfaults r) as [|[e|] rf]; done.
Qed.

(** The response loop up to a Write to the client that fails: the reads
    [pre] before it let the loop read on, their data is written, and the
    chunk whose Write fails is dropped with the socket closed. *)
Lemma Bounded_readLoop_write_fails (p : Bounded.Proxy) (l : ptr) (now : nat -> Z)
    (pre : reader) (b : byte) (d : list byte) (e : option error) (rest : reader)
    (we : error) (rf : list (option error)) :
  continuing pre ->
  forall (i : nat) (c : netConn) (resp : responseWriter) (first : bool) (t : connTable),
    rfaults resp = (replicate (chunks pre) None ++ Some we :: rf)%list ->
    let '(resp', c', _) :=
      Bounded.readLoop p l now i (pre ++ (b :: d, e) :: rest)%list c resp first t in
    body resp' = (body resp ++ concat (fst <$> pre))%list /\
    closed c' = true /\ reads c' = (S (length pre) + reads c)%nat /\
    inbound c' = (if isEOF e then [] else rest).
Proof.
  induction pre as [|[d0 e0] pre IH]; intros Hpre i c resp first t Hrf.
  - cbn [app Bounded.readLoop]. unfold Bounded.loopBody.
    set (resp1 := if first then Bounded.firstHeaders p e resp else resp).
    assert (body resp1 = body resp /\ rfaults resp1 = rfaults resp) as [Hb1 Hr1].
    { subst resp1. destruct first; [apply firstHeaders_body|done]. }
    pose proof (resp_Write_due (b :: d) resp1) as Hdue. rewrite Hr1, Hrf in Hdue.
    cbn in Hdue. destruct (resp_Write (b :: d) resp1) as [[nw ew] resp2].
    cbn [fst snd] in Hdue. destruct Hdue as (-> & Hb2 & _).
    cbn. rewrite app_nil_r. split_and!; [congruence|done|done|done].
  - apply Forall_cons in Hpre as [He0 Hpre]. cbn [snd] in He0.
    cbn [app Bounded.readLoop]. unfold Bounded.loopBody.
    set (resp1 := if first then Bounded.firstHeaders p e0 resp else resp).
    assert (body resp1 = body resp /\ rfaults resp1 = rfaults resp) as [Hb1 Hr1].
    { subst resp1. destruct first; [apply firstHeaders_body|done]. }
    assert (isEOF e0 = false) as Hne by (by destruct He0 as [->| ->]).
    rewrite Hne.
    destruct d0 as [|b0 d0].
    + (* nothing read: the loop reads on *)
      cbn [chunks] in Hrf.
      match goal with |- context [Bounded.readLoop p l now (S i) _ ?c2 resp1 false t] =>
        specialize (IH Hpre (S i) c2 resp1 false t ltac:(by rewrite Hr1)) end.
      destruct He0 as [->| ->].
      all: destruct (Bounded.readLoop _ _ _ _ _ _ _ _ _) as [[resp' c'] t'].
      all: destruct IH as (Hb & Hcl & Hrd & Hi); cbn in Hrd.
      all: cbn [fmap list_fmap concat fst app]; split_and!; [congruence|done| |done].
      all: rewrite Hrd; cbn; lia.
    + (* a chunk: its Write succeeds, the loop reads on *)
      cbn [chunks replicate app] in Hrf.
      pose proof (resp_Write_due (b0 :: d0) resp1) as Hdue. rewrite Hr1, Hrf in Hdue.
      destruct (resp_Write (b0 :: d0) resp1) as [[nw ew] resp2].
      cbn [fst snd] in Hdue. destruct Hdue as (-> & Hb2 & Hr2).
      match goal with |- context [Bounded.readLoop p l now (S i) _ ?c2 resp2 false ?t2] =>
        specialize (IH Hpre (S i) c2 resp2 false t2 Hr2) end.
      destruct He0 as [->| ->].
      all: destruct (Bounded.readLoop _ _ _ _ _ _ _ _ _) as [[resp' c'] t'].
      all: destruct IH as (Hb & Hcl & Hrd & Hi); cbn in Hrd.
      all: cbn [fmap list_fmap concat fst]; split_and!; [|done| |done].
      all: try (by rewrite Hb, Hb2, Hb1, <- app_assoc).
      all: rewrite Hrd; cbn; lia.
Qed.

(** X12: when a Write of a chunk to the client fails, at whatever point of
    the response, the request still ends with status 200 and the socket is
    closed.  The data of the reads before that point is in the response and
    is counted in the bytes-read counter; the chunk whose Write failed is
    lost: it is not in the response, no longer in the socket, and not
    counted.  (A response loop gets to a failing Write exactly through
    reads that let it read on, [pre], each chunk of which was written.) *)
Theorem X12_bounded_failed_response_write_loses_the_chunk (p : Bounded.Proxy)
    (resp : responseWriter) (req : request) (now : nat -> Z) (l : ptr) (c : netConn)
    (pre : reader) (b : byte) (d : list byte) (e : option error) (rest : reader)
    (we : error) (rf : list (option error)) :
  Header_Get (reqHeader req) X_HTTPCONN_ID <> "" ->
  Header_Get (reqHeader req) X_HTTPCONN_DEST_ADDR <> "" ->
  connMap (Bounded.table p) !! Header_Get (reqHeader req) X_HTTPCONN_ID = Some l ->
  lc_conn (Bounded.table p) l = Some c ->
  wire resp = None ->
  copyErr (ioCopy conn_Write (reqBody req) c) = None ->
  continuing pre ->
  inbound c = (pre ++ (b :: d, e) :: rest)%list ->
  rfaults resp = (replicate (chunks pre) None ++ Some we :: rf)%list ->
  inInt (lc_bytesRead (Bounded.table p) l) ->
  let out := Bounded.ServeHTTP p resp req now in
  status (snd out) = Some 200 /\
  body (snd out) = (body resp ++ concat (fst <$> pre))%list /\
  lc_bytesRead (Bounded.table (fst out)) l =
    wrapInt (lc_bytesRead (Bounded.table p) l
             + Z.of_nat (length (concat (fst <$> pre)))) /\
  exists c', lc_conn (Bounded.table (fst out)) l = Some c' /\
             closed c' = true /\ reads c' = (S (length pre) + reads c)%nat /\
             inbound c' = (if isEOF e then [] else rest).
Proof.
  intros Hid Haddr Hl Hc Hw Hcopy Hpre Hin Hrf Hint. cbv zeta.
  pose proof (Bounded_status_cases p resp req now l c Hid Haddr Hl Hc Hw) as Hst.
  rewrite Hcopy in Hst. split; [done|]. clear Hst.
  destruct (Bounded_ServeHTTP_copied p resp req now l c Hid Haddr Hl Hc Hcopy)
    as (-> & -> & _ & _ & Hr & _).
  destruct (lc_conn_Some _ _ _ Hc) as (lc & Hlc & _).
  pose proof (lookup_lt_Some _ _ _ Hlc) as Hlt.
  pose proof (Bounded_readLoop_post p l now (inbound c) 0
                (dstAfter (ioCopy conn_Write (reqBody req) c)) resp true (Bounded.table p))
    as Hpost.
  destruct (Bounded_readLoop_delivers p l now (inbound c) 0
              (dstAfter (ioCopy conn_Write (reqBody req) c)) resp true (Bounded.table p))
    as (dl & Hdl).
  pose proof (Bounded_readLoop_write_fails p l now pre b d e rest we rf Hpre 0
                (dstAfter (ioCopy conn_Write (reqBody req) c)) resp true (Bounded.table p) Hrf)
    as Hfail.
  rewrite <- Hin in Hfail.
  destruct (Bounded.readLoop _ _ _ _ _ _ _ _ _) as [[r' c'] t']. cbn [fst snd].
  destruct Hpost as (_ & _ & _ & Hlen & _).
  destruct Hdl as (Hb & -> & _). destruct Hfail as (Hb' & Hcl & Hrd & Hi).
  assert (dl = concat (fst <$> pre)) as ->.
  { rewrite Hb in Hb'. by apply app_inv_head in Hb'. }
  split_and!; [done| |].
  - rewrite lc_bytesRead_store_conn. by apply lc_bytesRead_delivered_int.
  - exists c'. split_and!; [apply lc_conn_store_conn; by rewrite Hlen|done| |done].
    by rewrite Hrd, Hr.
Qed.

Lemma X12_witness :
  let c := Sample.socket [(Sample.hi, None); ([], Some (NetError false)); (Sample.hi, None)] in
  let p := Bounded.with_table (Sample.bounded [])
             (mkTable {[ "abc" := 0%nat ]}
                [mkLazyConn "abc" "example.com:80" (Some c) false 0] ["example.com:80"]) in
  let resp := mkResp ∅ None [] 0 [None; Some (OtherError "client gone")] in
  let out := Bounded.ServeHTTP p resp Sample.GET Sample.noon in
  status (snd out) = Some 200 /\ body (snd out) = Sample.hi /\
  lc_bytesRead (Bounded.table (fst out)) 0 = 2.
Proof.
  intros c p resp out.
  destruct (X12_bounded_failed_response_write_loses_the_chunk p resp Sample.GET Sample.noon
              0%nat c [(Sample.hi, None); ([], Some (NetError false))]
              Byte.x68 [Byte.x69] None [] (OtherError "client gone") [])
    as (Hs & Hb & Hbr & _).
  - discriminate.
  - discriminate.
  - vm_compute. reflexivity.
  - vm_compute. reflexivity.
  - reflexivity.
  - vm_compute. reflexivity.
  - apply Forall_cons. split; [by left|]. apply Forall_cons. split; [by right|constructor].
  - reflexivity.
  - reflexivity.
  - vm_compute. split; discriminate.
  - split; [exact Hs|]. split; [exact Hb|]. etransitivity; [exact Hbr|]. vm_compute. reflexivity.
Defined.

(** X13: in a request whose body was copied, the socket is read at least
    once, and every read has a deadline of its own, set just before it:
    iteration [j] of the response loop sets time.Now() of that iteration
    plus the Proxy's IdleInterval.  This holds whatever the socket and the
    client do. *)
Theorem X13_bounded_one_deadline_per_read (p : Bounded.Proxy) (resp : responseWriter)
    (req : request) (now : nat -> Z) (l : ptr) (c : netConn) :
  Header_Get (reqHeader req) X_HTTPCONN_ID <> "" ->
  Header_Get (reqHeader req) X_HTTPCONN_DEST_ADDR <> "" ->
  connMap (Bounded.table p) !! Header_Get (reqHeader req) X_HTTPCONN_ID = Some l ->
  lc_conn (Bounded.table p) l = Some c ->
  copyErr (ioCopy conn_Write (reqBody req) c) = None ->
  let out := Bounded.ServeHTTP p resp req now in
  exists c' k,
    lc_conn (Bounded.table (fst out)) l = Some c' /\
    reads c' = (S k + reads c)%nat /\
    readDeadlines c' =
      (readDeadlines c ++ ((fun j => now j + Bounded.IdleInterval p) <$> seq 0 (S k)))%list.
Proof.
  intros Hid Haddr Hl Hc Hcopy. cbv zeta.
  destruct (Bounded_ServeHTTP_copied p resp req now l c Hid Haddr Hl Hc Hcopy)
    as (_ & -> & _ & Hd & Hr & _).
  destruct (lc_conn_Some _ _ _ Hc) as (lc & Hlc & _).
  pose proof (lookup_lt_Some _ _ _ Hlc) as Hlt.
  pose proof (Bounded_readLoop_post p l now (inbound c) 0
                (dstAfter (ioCopy conn_Write (reqBody req) c)) resp true (Bounded.table p))
    as Hpost.
  pose proof (Bounded_readLoop_frame p l now (inbound c) 0
                (dstAfter (ioCopy conn_Write (reqBody req) c)) resp true (Bounded.table p))
    as Hfr.
  destruct (Bounded.readLoop _ _ _ _ _ _ _ _ _) as [[r' c'] t']. cbn [fst snd].
  destruct Hpost as (_ & _ & _ & Hlen & _).
  destruct Hfr as (_ & _ & _ & _ & k & Hk & Hdl).
  exists c', k. split; [apply lc_conn_store_conn; by rewrite Hlen|].
  by rewrite Hk, Hdl, Hr, Hd.
Qed.

Lemma X13_witness :
  let c := Sample.socket [(Sample.hi, None); (Sample.hi, Some EOF)] in
  let p := Bounded.with_table (Sample.bounded [])
             (mkTable {[ "abc" := 0%nat ]}
                [mkLazyConn "abc" "example.com:80" (Some c) false 0] ["example.com:80"]) in
  let out := Bounded.ServeHTTP p freshResponse Sample.GET (fun j => Z.of_nat j) in
  exists c' k, lc_conn (Bounded.table (fst out)) 0 = Some c' /\
               reads c' = S k /\
               readDeadlines c' = (fun j => Z.of_nat j + 35000000) <$> seq 0 (S k).
Proof.
  intros c p out.
  destruct (X13_bounded_one_deadline_per_read p freshResponse Sample.GET
              (fun j => Z.of_nat j) 0%nat c) as (c' & k & Hc' & Hk & Hd).
  - discriminate.
  - discriminate.
  - vm_compute. reflexivity.
  - vm_compute. reflexivity.
  - vm_compute. reflexivity.
  - exists c', k. split; [exact Hc'|]. split; [|exact Hd].
    rewrite Hk. apply Nat.add_0_r.
Defined.

(** X14: a request touches the lazyConn of its own id only, in both
    revisions and whatever its outcome: the map entries of all other ids
    and all other lazyConn objects (socket, EOF flag, byte counter) are
    afterwards what they were. *)
Theorem X14_requests_touch_their_own_connection_only (resp : responseWriter) (req : request) :
  (forall (p : Streaming.Proxy) (now : Z),
     others_kept (Header_Get (reqHeader req) X_HTTPCONN_ID) (Streaming.table p)
       (Streaming.table (fst (Streaming.ServeHTTP p resp req now)))) /\
  (forall (p : Bounded.Proxy) (now : nat -> Z),
     others_kept (Header_Get (reqHeader req) X_HTTPCONN_ID) (Bounded.table p)
       (Bounded.table (fst (Bounded.ServeHTTP p resp req now)))).
Proof.
  split.
  - intros p now. apply Streaming_ServeHTTP_others_kept.
  - intros p now. apply Bounded_ServeHTTP_others_kept.
Qed.

(** ** Start *)

Lemma Streaming_serveAll_config (calls : list Streaming.call) :
  forall p : Streaming.Proxy,
    Streaming.with_table (fst (Streaming.serveAll calls p)) (Streaming.table p) = p.
Proof.
  assert (forall p resp req now,
            Streaming.with_table (fst (Streaming.ServeHTTP p resp req now)) (Streaming.table p)
            = p) as Hone.
  { intros p resp req now. unfold Streaming.ServeHTTP.
    case_decide; [by destruct p|]. case_decide; [by destruct p|].
    destruct (getLazyConn _ _ _) as [l t1].
    destruct (lazyConn_get _ _ _) as [[e|c] t2]; [by destruct p|].
    case_decide; [destruct (Streaming.handlePOST _ _ _); by destruct p|].
    case_decide; [|by destruct p].
    destruct (Streaming.handleGET _ _ _ _ _ _ _). by destruct p. }
  induction calls as [|[[resp req] now] rest IH]; intros p; [apply Streaming_with_table_id|].
  cbn [Streaming.serveAll Streaming.serve].
  specialize (Hone p resp req now).
  destruct (Streaming.ServeHTTP p resp req now) as [p1 r1]. cbn [fst] in Hone.
  specialize (IH p1). destruct (Streaming.serveAll rest p1) as [p2 rs]. cbn [fst] in *.
  transitivity (Streaming.with_table (Streaming.with_table p2 (Streaming.table p1))
                  (Streaming.table p)); [by destruct p2|by rewrite IH].
Qed.

Lemma Bounded_serveAll_config (calls : list Bounded.call) :
  forall p : Bounded.Proxy,
    Bounded.with_table (fst (Bounded.serveAll calls p)) (Bounded.table p) = p.
Proof.
  assert (forall p resp req now,
            Bounded.with_table (fst (Bounded.ServeHTTP p resp req now)) (Bounded.table p)
            = p) as Hone.
  { intros p resp req now. unfold Bounded.ServeHTTP.
    case_decide; [by destruct p|]. case_decide; [by destruct p|].
    destruct (getLazyConn _ _ _) as [l t1].
    destruct (lazyConn_get _ _ _) as [[e|c] t2]; [by destruct p|].
    destruct (copyErr _); [by destruct p|].
    destruct (Bounded.readLoop _ _ _ _ _ _ _ _ _) as [[r' c'] t']. by destruct p. }
  induction calls as [|[[resp req] now] rest IH]; intros p; [by destruct p|].
  cbn [Bounded.serveAll Bounded.serve].
  specialize (Hone p resp req now).
  destruct (Bounded.ServeHTTP p resp req now) as [p1 r1]. cbn [fst] in Hone.
  specialize (IH p1). destruct (Bounded.serveAll rest p1) as [p2 rs]. cbn [fst] in *.
  transitivity (Bounded.with_table (Bounded.with_table p2 (Bounded.table p1))
                  (Bounded.table p)); [by destruct p2|by rewrite IH].
Qed.

Lemma default_twice (x def : Z) :
  (if decide ((if decide (x = 0) then def else x) = 0) then def
   else if decide (x = 0) then def else x)
  = (if decide (x = 0) then def else x).
Proof. destruct (decide (x = 0)); [by case_decide|by rewrite decide_False]. Qed.

(** X15: serving requests never changes the configuration of a Proxy (dial
    function, host, intervals, buffer size), and Start fills in a default
    only where a field is unset.  So starting a Proxy again, after any
    requests and with any default dialer, gives the Proxy as it was right
    after its first Start: same configuration, no connection. *)
Theorem X15_start_again_is_a_fresh_start :
  (forall (d d' : dialFunc) (p : Streaming.Proxy) (calls : list Streaming.call),
     Streaming.Start d' (fst (Streaming.serveAll calls (Streaming.Start d p)))
     = Streaming.Start d p) /\
  (forall (d d' : dialFunc) (di : Z) (p : Bounded.Proxy) (calls : list Bounded.call),
     Bounded.Start d' di (fst (Bounded.serveAll calls (Bounded.Start d di p)))
     = Bounded.Start d di p).
Proof.
  split.
  - intros d d' p calls.
    pose proof (Streaming_serveAll_config calls (Streaming.Start d p)) as H.
    destruct (fst (Streaming.serveAll calls (Streaming.Start d p))) as [dl h fi it t].
    unfold Streaming.with_table in H. cbn in H. unfold Streaming.Start in *. cbn.
    injection H as -> -> -> ->. cbn. by rewrite !default_twice.
  - intros d d' di p calls.
    pose proof (Bounded_serveAll_config calls (Bounded.Start d di p)) as H.
    destruct (fst (Bounded.serveAll calls (Bounded.Start d di p))) as [dl h ii it bs t].
    unfold Bounded.with_table in H. cbn in H. unfold Bounded.Start in *. cbn.
    injection H as -> -> -> -> ->. cbn. by rewrite !default_twice.
Qed.

(** ** The flush loop *)

(** One event, with and without the ticks: the two writers stay the same
    up to the flushed mark and up to the status line a tick may have sent
    early. *)
Lemma mlw_step_content (m1 m2 : maxLatencyWriter) (e : event) :
  header (dst m1) = header (dst m2) ->
  wire (WriteHeader 200 (dst m1)) = wire (WriteHeader 200 (dst m2)) ->
  body (dst m1) = body (dst m2) -> rfaults (dst m1) = rfaults (dst m2) ->
  let m1' := step m1 e in
  let m2' := if isWrite e then step m2 e else m2 in
  header (dst m1') = header (dst m2') /\
  wire (WriteHeader 200 (dst m1')) = wire (WriteHeader 200 (dst m2')) /\
  body (dst m1') = body (dst m2') /\ rfaults (dst m1') = rfaults (dst m2').
Proof.
  destruct m1 as [[h1 w1 b1 f1 r1] l1 t1], m2 as [[h2 w2 b2 f2 r2] l2 t2]. cbn.
  intros -> Hw -> ->. destruct e as [p|]; cbn.
  - unfold Write, resp_Write, WriteHeader in *. cbn in *.
    destruct w1, w2; cbn in *; destruct r2 as [|[e|] rest]; cbn; done.
  - unfold tick, resp_Flush, WriteHeader in *. cbn in *.
    destruct t1; cbn; destruct w1, w2; cbn in *; done.
Qed.

Lemma mlw_run_wire_Some (evs : list event) (w : Z * gmap string string) :
  forall m : maxLatencyWriter, wire (dst m) = Some w -> wire (dst (run evs m)) = Some w.
Proof.
  induction evs as [|e evs IH]; intros m Hw; [done|].
  unfold run in *. cbn [fold_left]. apply IH. destruct e as [p|]; cbn.
  - unfold Write. pose proof (wire_resp_Write p (dst m) w Hw) as H.
    by destruct (resp_Write p (dst m)).
  - unfold tick. destruct (ticking m); [|done]. cbn. unfold WriteHeader. by rewrite Hw.
Qed.

(** X16: the flush loop changes when bytes reach the client, not what
    reaches it.  Whatever ticks fall between the writes, the headers, the
    body and the outcome of the writes are those of the writes alone, and
    so is the status line once one is sent.  The one thing a tick can add
    is to send status 200 with the headers set so far when nothing was
    sent yet; a writer started after the status line was sent, as handleGET
    starts it, sends the same status line with and without the ticks. *)
Theorem X16_ticks_do_not_change_the_response (evs : list event) (m : maxLatencyWriter) :
  let m1 := run evs m in
  let m2 := run (List.filter isWrite evs) m in
  header (dst m1) = header (dst m2) /\
  body (dst m1) = body (dst m2) /\ rfaults (dst m1) = rfaults (dst m2) /\
  wire (WriteHeader 200 (dst m1)) = wire (WriteHeader 200 (dst m2)) /\
  (is_Some (wire (dst m)) -> wire (dst m1) = wire (dst m2)).
Proof.
  cbv zeta.
  assert (forall m1 m2,
            header (dst m1) = header (dst m2) ->
            wire (WriteHeader 200 (dst m1)) = wire (WriteHeader 200 (dst m2)) ->
            body (dst m1) = body (dst m2) -> rfaults (dst m1) = rfaults (dst m2) ->
            header (dst (run evs m1)) = header (dst (run (List.filter isWrite evs) m2)) /\
            wire (WriteHeader 200 (dst (run evs m1)))
              = wire (WriteHeader 200 (dst (run (List.filter isWrite evs) m2))) /\
            body (dst (run evs m1)) = body (dst (run (List.filter isWrite evs) m2)) /\
            rfaults (dst (run evs m1)) = rfaults (dst (run (List.filter isWrite evs) m2)))
    as Hgen.
  { induction evs as [|e evs IH]; intros m1 m2 Hh Hw Hb Hr; [done|].
    destruct (mlw_step_content m1 m2 e Hh Hw Hb Hr) as (Hh' & Hw' & Hb' & Hr').
    cbn [List.filter]. unfold run in *. cbn [fold_left].
    destruct (isWrite e); cbn [fold_left]; by apply IH. }
  destruct (Hgen m m) as (Hh & Hw & Hb & Hr); try done.
  split_and!; try done.
  intros [w Hsome]. by rewrite !(mlw_run_wire_Some _ w _ Hsome).
Qed.

Lemma X16_witness :
  let m := start (WriteHeader 200 freshResponse) (50 * Millisecond) in
  wire (dst (run [EvTick; EvWrite Sample.hi; EvTick] m)) = wire (dst (run [EvWrite Sample.hi] m)).
Proof.
  intros m.
  destruct (X16_ticks_do_not_change_the_response [EvTick; EvWrite Sample.hi; EvTick] m)
    as (_ & _ & _ & _ & H).
  apply H. vm_compute. eauto.
Defined.

Lemma resp_Flush_keeps (r : responseWriter) :
  header (resp_Flush r) = header r /\ body (resp_Flush r) = body r /\
  rfaults (resp_Flush r) = rfaults r /\ flushed (resp_Flush r) = length (body r).
Proof. unfold resp_Flush, WriteHeader. by destruct (wire r). Qed.

Lemma mlw_step_ticking (m : maxLatencyWriter) (e : event) : ticking (step m e) = ticking m.
Proof.
  destruct e as [p|]; cbn.
  - unfold Write. by destruct (resp_Write p (dst m)).
  - unfold tick. by destruct (ticking m) eqn:E.
Qed.

Lemma mlw_run_ticking (evs : list event) (m : maxLatencyWriter) :
  ticking (run evs m) = ticking m.
Proof.
  revert m. induction evs as [|e evs IH]; intros m; [done|].
  unfold run in *. cbn [fold_left]. by rewrite IH, mlw_step_ticking.
Qed.

Lemma mlw_run_app (evs1 evs2 : list event) (m : maxLatencyWriter) :
  run (evs1 ++ evs2) m = run evs2 (run evs1 m).
Proof. unfold run. apply fold_left_app. Qed.

Lemma mlw_writes_unflushed (post : list event) :
  forall m : maxLatencyWriter,
    Forall (fun e => isWrite e = true) post ->
    accepts (rfaults (dst m)) -> (flushed (dst m) <= length (body (dst m)))%nat ->
    unflushed (run post m) = (unflushed m + length (payload post))%nat.
Proof.
  induction post as [|e post IH]; intros m Hall Hacc Hfl.
  - cbn. lia.
  - apply Forall_cons in Hall as [He Hall]. destruct e as [p|]; [|done].
    unfold run in *. cbn [fold_left step].
    pose proof (resp_Write_cases p (dst m)) as (_ & _ & Hw). specialize (Hw Hacc).
    assert (flushed (snd (resp_Write p (dst m))) = flushed (dst m)) as Hf.
    { unfold resp_Write, WriteHeader.
      destruct (wire (dst m)); cbn; by destruct (rfaults (dst m)) as [|[]]. }
    unfold Write. destruct (resp_Write p (dst m)) as [res d]. cbn [fst snd] in *.
    destruct Hw as (_ & Hb & Hacc').
    rewrite IH; cbn [dst]; try done; [|rewrite Hb, Hf, length_app; lia].
    unfold unflushed, payload. cbn [dst fmap list_fmap concat].
    rewrite Hb, Hf, !length_app. fold (payload post). unfold payload. lia.
Qed.

(** X17: while the flush loop runs, a tick leaves nothing unflushed, so
    what is unflushed at any time is what was written since the last tick
    (the client taking the writes): no byte waits longer than one tick
    interval. *)
Theorem X17_unflushed_is_what_came_after_the_last_tick (pre post : list event)
    (m : maxLatencyWriter) :
  ticking m = true ->
  accepts (rfaults (dst m)) ->
  Forall (fun e => isWrite e = true) post ->
  unflushed (run (pre ++ EvTick :: post) m) = length (payload post).
Proof.
  intros Ht Hacc Hpost.
  change (pre ++ EvTick :: post)%list with (pre ++ [EvTick] ++ post)%list.
  rewrite !mlw_run_app.
  set (m1 := run pre m).
  assert (ticking m1 = true) as Ht1 by (subst m1; by rewrite mlw_run_ticking).
  assert (accepts (rfaults (dst m1))) as Hacc1.
  { subst m1. clear Ht Ht1 Hpost. revert m Hacc.
    induction pre as [|e pre IH]; intros m Hacc; [done|].
    unfold run in *. cbn [fold_left]. apply IH. destruct e as [p|]; cbn.
    - unfold Write. pose proof (resp_Write_cases p (dst m)) as (_ & _ & Hw).
      destruct (resp_Write p (dst m)). by apply Hw.
    - unfold tick. destruct (ticking m); [|done]. cbn [dst].
      by rewrite (proj1 (proj2 (proj2 (resp_Flush_keeps (dst m))))). }
  assert (run [EvTick] m1 = tick m1) as -> by done.
  destruct (resp_Flush_keeps (dst m1)) as (_ & Hfb & Hfr & Hff).
  rewrite mlw_writes_unflushed; try done.
  - by rewrite tick_flushes.
  - unfold tick. rewrite Ht1. cbn [dst]. by rewrite Hfr.
  - unfold tick. rewrite Ht1. cbn [dst]. rewrite Hff, Hfb. lia.
Qed.

Lemma X17_witness :
  unflushed (run [EvWrite Sample.hi; EvTick; EvWrite Sample.hi; EvWrite Sample.hi]
               (start freshResponse (50 * Millisecond))) = 4%nat.
Proof.
  apply (X17_unflushed_is_what_came_after_the_last_tick [EvWrite Sample.hi]
           [EvWrite Sample.hi; EvWrite Sample.hi] (start freshResponse (50 * Millisecond))).
  - reflexivity.
  - constructor.
  - repeat constructor.
Defined.

(** ** POSTs and GETs of the streaming revision, interleaved *)

(** A POST whose body arrives whole, to a socket that takes every write. *)
Lemma Streaming_POST_delivers (p : Streaming.Proxy) (resp : responseWriter) (req : request)
    (now : Z) (l : ptr) (c : netConn) :
  Method req = "POST" ->
  Header_Get (reqHeader req) X_HTTPCONN_ID <> "" ->
  Header_Get (reqHeader req) X_HTTPCONN_DEST_ADDR <> "" ->
  connMap (Streaming.table p) !! Header_Get (reqHeader req) X_HTTPCONN_ID = Some l ->
  lc_conn (Streaming.table p) l = Some c ->
  wire resp = None -> intact (reqBody req) = true -> accepts (wfaults c) ->
  let out := Streaming.ServeHTTP p resp req now in
  status (snd out) = Some 200 /\ body (snd out) = body resp /\
  exists c', lc_conn (Streaming.table (fst out)) l = Some c' /\
             outbound c' = (outbound c ++ reader_bytes (reqBody req))%list /\
             accepts (wfaults c') /\ inbound c' = inbound c.
Proof.
  intros Hm Hid Haddr Hl Hc Hw Hin Hacc. cbv zeta.
  rewrite (Streaming_ServeHTTP_POST p resp req now l c) by done.
  cbn [fst snd Streaming.with_table Streaming.table].
  destruct (lc_conn_Some _ _ _ Hc) as (lc & Hlc & _).
  pose proof (lookup_lt_Some _ _ _ Hlc) as Hlt.
  destruct (ioCopyFrom_conn_exact (reqBody req) c 0 0 Hin Hacc)
    as (He & Ho & Hacc' & Hi' & _).
  assert (Streaming.handlePOST resp req c
          = (WriteHeader 200 resp, dstAfter (ioCopyFrom conn_Write (reqBody req) c 0 0)))
    as ->.
  { unfold Streaming.handlePOST, ioCopy. by rewrite He. }
  cbn [fst snd]. split_and!; [by apply status_WriteHeader|apply body_WriteHeader|].
  eexists. split; [by apply lc_conn_store_conn|]. done.
Qed.

(** X24: the streaming revision as a tunnel.  POSTs and GETs for one id, in
    any interleaving, bodies arriving whole, socket and clients taking
    every write: every response has status 200; the socket has received the
    bodies of the POSTs, in order, and nothing else; the bodies of the
    responses, in order, followed by what the socket still holds, are what
    the socket held at the start. *)
Theorem X24_streaming_tunnel_is_lossless_both_ways (id : string)
    (calls : list Streaming.call) :
  forall (p : Streaming.Proxy) (l : ptr) (c : netConn),
    id <> "" ->
    connMap (Streaming.table p) !! id = Some l ->
    lc_conn (Streaming.table p) l = Some c ->
    accepts (wfaults c) ->
    Forall (tunnel_call id) calls ->
    let out := Streaming.serveAll calls p in
    Forall (fun r => status r = Some 200) (snd out) /\
    exists c', lc_conn (Streaming.table (fst out)) l = Some c' /\
               outbound c' = (outbound c ++ concat (posted <$> calls))%list /\
               (concat (body <$> snd out) ++ stream_bytes (inbound c'))%list
                 = stream_bytes (inbound c).
Proof.
  induction calls as [|[[resp req] now] rest IH]; intros p l c Hid Hl Hc Hacc Hall.
  - cbn. split; [constructor|]. exists c. by rewrite app_nil_r.
  - apply Forall_cons in Hall as [Hcall Hrest].
    cbn [Streaming.serveAll Streaming.serve].
    pose proof (Streaming_ServeHTTP_table p resp req now) as ([Hext _] & _).
    assert (exists c1,
              status (snd (Streaming.ServeHTTP p resp req now)) = Some 200 /\
              lc_conn (Streaming.table (fst (Streaming.ServeHTTP p resp req now))) l = Some c1 /\
              outbound c1 = (outbound c ++ posted (resp, req, now))%list /\
              accepts (wfaults c1) /\
              (body (snd (Streaming.ServeHTTP p resp req now)) ++ stream_bytes (inbound c1))%list
                = stream_bytes (inbound c)) as (c1 & Hs & Hc1 & Ho1 & Hacc1 & Hcons1).
    { destruct Hcall as [(Hm & Hi & Ha & Hw & Hb & Hra)|[(Hm & Hi & Ha & Hw & Hin) Hb]];
        cbn [fst snd] in *; subst id.
      - destruct (Streaming_GET_conserves p resp req now l c Hm Hid Ha Hl Hc Hw Hra)
          as (Hs & c1 & Hc1 & Hcons & Ho & Hwf & _).
        exists c1. unfold posted. cbn [fst snd]. rewrite decide_False by (rewrite Hm; done).
        rewrite app_nil_r, Hwf. rewrite Hb in Hcons. done.
      - destruct (Streaming_POST_delivers p resp req now l c Hm Hid Ha Hl Hc Hw Hin Hacc)
          as (Hs & Hbody & c1 & Hc1 & Ho & Hwf & Hi1).
        exists c1. unfold posted. cbn [fst snd]. rewrite decide_True by done.
        rewrite Hbody, Hb, Hi1. done. }
    destruct (Streaming.ServeHTTP p resp req now) as [p1 r1]. cbn [fst snd] in *.
    assert (connMap (Streaming.table p1) !! id = Some l) as Hl1 by (by apply Hext).
    specialize (IH p1 l c1 Hid Hl1 Hc1 Hacc1 Hrest).
    destruct (Streaming.serveAll rest p1) as [p2 rs]. cbn [fst snd] in *.
    destruct IH as (Hss & c2 & Hc2 & Ho2 & Hcons2). split; [by constructor|].
    exists c2. cbn [fmap list_fmap concat]. split_and!; [done| |].
    + by rewrite Ho2, Ho1, <- app_assoc.
    + by rewrite <- Hcons1, <- Hcons2, <- app_assoc.
Qed.

Lemma X24_witness :
  let script := [(Sample.hi, None); ([], Some (NetError true)); (Sample.hi, Some EOF)] in
  let p := fst (Streaming.ServeHTTP (Sample.streaming script) freshResponse (Sample.POST []) 0) in
  let calls := [(freshResponse, Sample.GET, 1); (freshResponse, Sample.POST Sample.hi, 2);
                (freshResponse, Sample.GET, 3)] in
  let out := Streaming.serveAll calls p in
  exists c', lc_conn (Streaming.table (fst out)) 0 = Some c' /\
             outbound c' = Sample.hi /\
             (concat (body <$> snd out) ++ stream_bytes (inbound c'))%list
               = (Sample.hi ++ Sample.hi)%list.
Proof.
  intros script p calls out.
  destruct (X24_streaming_tunnel_is_lossless_both_ways "abc" calls p 0%nat
              (Sample.socket script)) as (_ & c' & Hc' & Ho & Hcons).
  - discriminate.
  - vm_compute. reflexivity.
  - vm_compute. reflexivity.
  - constructor.
  - assert (get_for "abc" (freshResponse, Sample.GET, 1) /\
            get_for "abc" (freshResponse, Sample.GET, 3)) as [Hg1 Hg3].
    { split; (split_and!; [reflexivity|reflexivity|discriminate|reflexivity|reflexivity|constructor]). }
    assert (post_for "abc" (freshResponse, Sample.POST Sample.hi, 2)) as Hp2.
    { split_and!; [reflexivity|reflexivity|discriminate|reflexivity|reflexivity]. }
    apply Forall_cons. split; [by left|].
    apply Forall_cons. split; [right; by split|].
    apply Forall_cons. split; [by left|constructor].
  - exists c'. split; [exact Hc'|]. split; [exact Ho|exact Hcons].
Defined.

Import Client.

(** ** The read goroutine of the client *)

(** What readFromResponse leaves alone. *)
Lemma readFromResponse_frame (now : Z) (r : httpResponse) (g : nat) (c : Conn) :
  match readFromResponse now r g c with
  | Continue st' c' | Return st' c' =>
      gets st' = g /\
      doneReading c' = doneReading c /\ readRequestsClosed c' = readRequestsClosed c /\
      readRequestsCh c' = readRequestsCh c /\ stopReadCh c' = stopReadCh c /\
      closedFlag c' = closedFlag c /\ IdleTimeout c' = IdleTimeout c
  | NotReady => False
  end.
Proof.
  unfold readFromResponse. destruct (Read (Body r)) as [[d e] body'].
  destruct e as [[|t| |m]|]; try (case_decide; cbn; done).
  destruct (bool_decide _); case_decide; cbn; done.
Qed.

(** What an iteration of processReads leaves alone. *)
Lemma iteration_frame (ch : choice) (now : Z) (tr : transport) (st : loopState) (c : Conn) :
  match iteration ch now tr st c with
  | Continue _ c' | Return _ c' =>
      doneReading c' = doneReading c /\ readRequestsClosed c' = readRequestsClosed c /\
      closedFlag c' = closedFlag c /\ IdleTimeout c' = IdleTimeout c
  | NotReady => True
  end.
Proof.
  unfold iteration. destruct (isClosed c); [done|].
  destruct ch.
  - destruct (readRequestsCh c) as [|b q]; [done|].
    destruct (resp st) as [r|].
    + pose proof (readFromResponse_frame now r (gets st) (with_requests q c)) as H.
      destruct (readFromResponse _ _ _ _); [| |done];
        by destruct H as (_ & ? & ? & _ & _ & ? & ?).
    + destruct (isIdle now (with_requests q c)); [done|].
      destruct (requestResult tr) as [e|r]; [by destruct (redialErr tr)|].
      match goal with |- context [readFromResponse now r ?g ?c0] =>
        pose proof (readFromResponse_frame now r g c0) as H;
        destruct (readFromResponse now r g c0) end;
        try done; destruct H as (_ & Hd & Hc & _ & _ & Hf & Hi);
        rewrite Hd, Hc, Hf, Hi; by destruct (redialErr tr).
  - by destruct (stopReadCh c).
  - by destruct (isIdle now c).
Qed.

(** The state of the Conn once processReads has returned. *)
Lemma exitReads_state (c : Conn) :
  exitReads c =
    (mkConn true [] true
            (readResponsesCh c ++ replicate (length (readRequestsCh c)) terminalEOF)
            0 (closedFlag c) (lastActivityTime c) (IdleTimeout c), None).
Proof. unfold exitReads. by rewrite cleanupAfterReads_spec. Qed.

(** X18: from the start of processReads on, submitRead accepts a read
    exactly as long as processReads has not returned.  While it accepts,
    the requests channel is open, so the send never hits a closed channel;
    once processReads has returned, the channel is closed and empty and no
    stop signal is pending. *)
Theorem X18_reads_are_accepted_while_processReads_runs (acts : list action)
    (dialErr : option error) (ir : initialResponse) (c : Conn) (b : buffer) :
  doneReading c = false -> readRequestsClosed c = false ->
  let s := run acts (processReads_start dialErr ir c) in
  (fst (submitRead b (fst s)) = true <-> is_Some (snd s)) /\
  (fst (submitRead b (fst s)) = true -> readRequestsClosed (fst s) = false) /\
  (snd s = None ->
   readRequestsClosed (fst s) = true /\ readRequestsCh (fst s) = [] /\
   stopReadCh (fst s) = 0%nat).
Proof.
  intros Hd Hc.
  set (Inv := fun s : system =>
         match snd s with
         | Some _ => doneReading (fst s) = false /\ readRequestsClosed (fst s) = false
         | None => doneReading (fst s) = true /\ readRequestsClosed (fst s) = true /\
                   readRequestsCh (fst s) = [] /\ stopReadCh (fst s) = 0%nat
         end).
  assert (forall c0, Inv (exitReads c0)) as Hexit.
  { intros c0. rewrite exitReads_state. by unfold Inv. }
  assert (Inv (processReads_start dialErr ir c)) as H0.
  { unfold processReads_start. destruct dialErr; [apply Hexit|].
    destruct (initErr ir); [apply Hexit|]. by unfold Inv. }
  assert (forall s a, Inv s -> Inv (step s a)) as Hstep.
  { intros [c0 lp] a. unfold Inv. cbn [fst snd]. destruct a as [b0|ch now tr].
    - cbn [step fst snd]. unfold submitRead. destruct lp as [st|].
      + intros [Hd0 Hc0]. rewrite Hd0. by cbn.
      + intros (Hd0 & ? & ? & ?). rewrite Hd0. by cbn.
    - cbn [step]. destruct lp as [st|]; [|done]. intros [Hd0 Hc0].
      pose proof (iteration_frame ch now tr st c0) as Hf.
      destruct (iteration ch now tr st c0) as [st' c'|st' c'|]; cbn [fst snd].
      + destruct Hf as (Hd1 & Hc1 & _). by rewrite Hd1, Hc1.
      + apply Hexit.
      + done. }
  assert (forall acts s, Inv s -> Inv (run acts s)) as Hrun.
  { clear -Hstep. induction acts as [|a acts IH]; intros s Hs; [done|].
    unfold run in *. cbn [fold_left]. apply IH. by apply Hstep. }
  specialize (Hrun acts _ H0). cbv zeta.
  destruct (run acts (processReads_start dialErr ir c)) as [c1 lp1].
  unfold Inv in Hrun. cbn [fst snd] in *. unfold submitRead.
  destruct lp1 as [st|].
  - destruct Hrun as [Hd1 Hc1]. rewrite Hd1. cbn. split_and!; done.
  - destruct Hrun as (Hd1 & Hc1 & Hq1 & Hs1). rewrite Hd1. cbn. split_and!; done.
Qed.

Lemma X18_witness :
  let s := run [Submit 8%nat; Iterate CaseStop 0 (Sample.transport (Sample.response true []))]
               (processReads_start None (mkInitial None None) (Sample.conn [])) in
  (fst (submitRead 8%nat (fst s)) = true <-> is_Some (snd s)) /\
  (fst (submitRead 8%nat (fst s)) = true -> readRequestsClosed (fst s) = false) /\
  (snd s = None ->
   readRequestsClosed (fst s) = true /\ readRequestsCh (fst s) = [] /\
   stopReadCh (fst s) = 0%nat).
Proof.
  apply (X18_reads_are_accepted_while_processReads_runs
           [Submit 8%nat; Iterate CaseStop 0 (Sample.transport (Sample.response true []))]
           None (mkInitial None None) (Sample.conn []) 8%nat); reflexivity.
Defined.

(** X19: doRequest is called exactly in the iterations that take a read
    submission while no response is active, the Conn being neither closed
    nor idle, and then once.  While a response is active its body serves
    the reads and no request is issued. *)
Theorem X19_a_request_is_issued_only_without_active_response (ch : choice) (now : Z)
    (tr : transport) (st : loopState) (c : Conn) :
  match iteration ch now tr st c with
  | Continue st' _ | Return st' _ =>
      gets st' = (gets st + (if fetches ch now st c then 1 else 0))%nat
  | NotReady => True
  end.
Proof.
  unfold iteration, fetches. destruct (isClosed c); cbn [negb andb]; [lia|].
  destruct ch.
  - destruct (readRequestsCh c) as [|b q]; [done|].
    destruct (resp st) as [r|].
    + pose proof (readFromResponse_frame now r (gets st) (with_requests q c)) as H.
      destruct (readFromResponse _ _ _ _); try done; destruct H as [-> _]; lia.
    + change (isIdle now (with_requests q c)) with (isIdle now c).
      destruct (isIdle now c); cbn [negb]; [lia|].
      destruct (requestResult tr) as [e|r]; [cbn; lia|].
      match goal with |- context [readFromResponse now r ?g ?c0] =>
        pose proof (readFromResponse_frame now r g c0) as H;
        destruct (readFromResponse now r g c0) end; try done; destruct H as [-> _]; lia.
  - destruct (stopReadCh c); [done|lia].
  - destruct (isIdle now c); lia.
Qed.

(** X20: a read that does not meet the end of the response body.  The
    caller gets the number of bytes read and the error of the read as it
    is.  Without error the response stays active, its body advanced, for
    the next submission.  With an error processReads returns, and the
    submissions still queued are answered with zero bytes and io.EOF. *)
Theorem X20_read_result_reaches_the_caller_as_it_is (c : Conn) (st : loopState) (now : Z)
    (tr : transport) (b : buffer) (q : list buffer) (r : httpResponse) (d : list byte)
    (e : option error) (body' : reader) :
  isClosed c = false ->
  readRequestsCh c = b :: q ->
  servedFrom st now tr c r ->
  Read (Body r) = ((d, e), body') ->
  e <> Some EOF ->
  let s' := step (c, Some st) (Iterate CaseRead now tr) in
  let answer := mkRw (Z.of_nat (length d)) e in
  match e with
  | None =>
      readResponsesCh (fst s') = (readResponsesCh c ++ redialNotice st tr ++ [answer])%list /\
      readRequestsCh (fst s') = q /\
      exists g, snd s' =
                Some (mkLoop (Some (mkHttpResponse (respHeader r) body' (bodyClosed r))) g)
  | Some _ =>
      readResponsesCh (fst s') =
        (readResponsesCh c ++ redialNotice st tr ++ [answer]
           ++ replicate (length q) terminalEOF)%list /\
      snd s' = None /\ doneReading (fst s') = true
  end.
Proof.
  intros Hcl Hq Hserved Hread He.
  destruct (iteration_served now tr st c b q r Hcl Hq Hserved)
    as (c0 & g & Hr0 & Hq0 & _ & _ & _ & _ & Hit).
  cbv zeta. cbn [step]. rewrite Hit. unfold readFromResponse. rewrite Hread.
  destruct e as [[|t| |m]|]; [done| | | |].
  1-3: rewrite exitReads_state; cbn [fst snd]; case_decide; cbn;
       rewrite Hr0, Hq0, <- !app_assoc; done.
  cbn [isEOF andb fst snd]. case_decide; cbn; rewrite Hr0, Hq0, <- !app_assoc; eauto.
Qed.

Lemma X20_witness :
  let r := Sample.response false [(Sample.hi, Some (OtherError "reset"))] in
  let s' := step (Sample.conn [2%nat; 2%nat], Some (mkLoop (Some r) 0))
                 (Iterate CaseRead 1 (Sample.transport r)) in
  readResponsesCh (fst s') = [mkRw 2 (Some (OtherError "reset")); terminalEOF] /\
  snd s' = None /\ doneReading (fst s') = true.
Proof.
  intros r.
  apply (X20_read_result_reaches_the_caller_as_it_is (Sample.conn [2%nat; 2%nat])
           (mkLoop (Some r) 0) 1 (Sample.transport r) 2%nat [2%nat] r Sample.hi
           (Some (OtherError "reset")) []).
  - reflexivity.
  - reflexivity.
  - left. reflexivity.
  - reflexivity.
  - discriminate.
Defined.

(** X21: when processReads returns without taking a submission (the Conn
    is closed, a stop signal is taken, or the idle timer fires on an idle
    Conn), every submission still queued is answered exactly once, with
    zero bytes and io.EOF; pending stop signals are dropped and the
    requests channel is closed. *)
Theorem X21_queued_reads_are_answered_when_processReads_returns (c : Conn) (st : loopState)
    (ch : choice) (now : Z) (tr : transport) :
  isClosed c = true \/
  (ch = CaseStop /\ stopReadCh c <> 0%nat) \/
  (ch = CaseTimer /\ isIdle now c = true) ->
  step (c, Some st) (Iterate ch now tr) =
    (mkConn true [] true
            (readResponsesCh c ++ replicate (length (readRequestsCh c)) terminalEOF)
            0 (closedFlag c) (lastActivityTime c) (IdleTimeout c), None).
Proof.
  intros H. cbn [step]. unfold iteration.
  destruct (isClosed c) eqn:Hcl; [by rewrite exitReads_state|].
  destruct H as [?|[[-> Hs]|[-> Hi]]]; [done| |].
  - destruct (stopReadCh c) as [|k] eqn:Hk; [done|]. by rewrite exitReads_state.
  - rewrite Hi. by rewrite exitReads_state.
Qed.

Lemma X21_witness :
  step (Client.mkConn false [4%nat; 4%nat] false [] 1 false 0 (70 * Second),
        Some (mkLoop None 0))
       (Iterate CaseStop 1 (Sample.transport (Sample.response false []))) =
  (mkConn true [] true [terminalEOF; terminalEOF] 0 false 0 (70 * Second), None).
Proof.
  apply (X21_queued_reads_are_answered_when_processReads_returns
           (Client.mkConn false [4%nat; 4%nat] false [] 1 false 0 (70 * Second))
           (mkLoop None 0) CaseStop 1 (Sample.transport (Sample.response false []))).
  right. left. split; [reflexivity|discriminate].
Defined.

(** X22: when doRequest fails, the submission is answered with zero bytes
    and the error "Unable to issue read request" (after the redial notice,
    when the redial had failed as well, so that this one submission gets
    two answers), processReads returns, and the submissions still queued
    are answered with zero bytes and io.EOF. *)
Theorem X22_failed_request_ends_the_reading (c : Conn) (st : loopState) (now : Z)
    (tr : transport) (b : buffer) (q : list buffer) (e : error) :
  isClosed c = false ->
  readRequestsCh c = b :: q ->
  resp st = None ->
  isIdle now c = false ->
  requestResult tr = inl e ->
  let s' := step (c, Some st) (Iterate CaseRead now tr) in
  snd s' = None /\
  readResponsesCh (fst s') =
    (readResponsesCh c ++ redialNotice st tr
       ++ [mkRw 0 (Some (OtherError "Unable to issue read request"))]
       ++ replicate (length q) terminalEOF)%list.
Proof.
  intros Hcl Hq Hr Hi Hreq. cbv zeta. cbn [step]. unfold iteration, redialNotice.
  rewrite Hcl, Hq, Hr. change (isIdle now (with_requests q c)) with (isIdle now c).
  rewrite Hi, Hreq, exitReads_state. cbn [fst snd].
  destruct (redialErr tr); cbn; rewrite <- ?app_assoc; done.
Qed.

Lemma X22_witness :
  let tr := mkTransport (Some (OtherError "down")) (inl (OtherError "down")) in
  let s' := step (Sample.conn [4%nat], Some (mkLoop None 0)) (Iterate CaseRead 1 tr) in
  snd s' = None /\
  readResponsesCh (fst s') =
    [mkRw 0 (Some (OtherError "Unable to redial proxy"));
     mkRw 0 (Some (OtherError "Unable to issue read request"))].
Proof.
  intros tr.
  apply (X22_failed_request_ends_the_reading (Sample.conn [4%nat]) (mkLoop None 0) 1 tr
           4%nat [] (OtherError "down")); reflexivity.
Defined.

(** X23: only bytes delivered count as activity.  An iteration changes the
    time of the last activity only by setting it to the current time, and
    only when the answer it has just sent carries at least one byte. *)
Theorem X23_only_delivered_bytes_count_as_activity (ch : choice) (now : Z) (tr : transport)
    (st : loopState) (c : Conn) :
  match iteration ch now tr st c with
  | Continue _ c' | Return _ c' =>
      lastActivityTime c' = lastActivityTime c \/
      (lastActivityTime c' = now /\
       exists a, last (readResponsesCh c') = Some a /\ 0 < n a)
  | NotReady => True
  end.
Proof.
  assert (forall r g c0,
            match readFromResponse now r g c0 with
            | Continue _ c' | Return _ c' =>
                lastActivityTime c' = lastActivityTime c0 \/
                (lastActivityTime c' = now /\
                 exists a, last (readResponsesCh c') = Some a /\ 0 < n a)
            | NotReady => True
            end) as Hread.
  { intros r g c0. unfold readFromResponse. destruct (Read (Body r)) as [[d e] body'].
    assert (d <> [] -> 0 < Z.of_nat (length d)) as Hpos.
    { destruct d; [done|cbn; lia]. }
    destruct e as [[|t| |m]|]; [destruct (bool_decide _)| | | |].
    all: case_decide as Hd; cbn; [by left|right; split; [done|]].
    all: rewrite last_snoc; eexists; split; [done|]; cbn; by apply Hpos. }
  unfold iteration. destruct (isClosed c); [by left|].
  destruct ch.
  - destruct (readRequestsCh c) as [|b q]; [done|].
    destruct (resp st) as [r|]; [apply (Hread r (gets st) (with_requests q c))|].
    destruct (isIdle now (with_requests q c)); [by left|].
    destruct (requestResult tr) as [e|r]; [left; by destruct (redialErr tr)|].
    match goal with |- context [readFromResponse now r ?g ?c0] =>
      pose proof (Hread r g c0) as H; destruct (readFromResponse now r g c0) end; try done.
    all: by destruct (redialErr tr).
  - destruct (stopReadCh c); [done|by left].
  - destruct (isIdle now c); by left.
Qed.

